(** * Guided policy search: cost expansion, cost fusion and step adjustment

    A shallow embedding of

    - [gps/algorithm/cost/cost_utils.py]: the ramp schedule
      [get_ramp_multiplier] and the four penalty shapes [evall1l2term],
      [evallogl2term], [evalasymetric], [evalexp];
    - [gps/algorithm/algorithm_mdgps.py]: [AlgorithmMDGPS.compute_costs] and
      [AlgorithmMDGPS._stepadjust].

    numpy's float arrays are read in real arithmetic: an array of shape
    (n1, ..., nk) is a function of k indices together with its shape, and a
    one-dimensional array that the code updates in place is a list.  Where a
    statement is about NaN or infinity the same definitions are run in a
    checked arithmetic whose values are [option R]. *)

From Stdlib Require Import Reals Lra Lia ZArith String Epsilon Classical_Prop.
From stdpp Require Import base list.

Open Scope R_scope.

(** ** Python exceptions and results *)

Inductive exn : Type :=
| ValueError (msg : string)
| IndexError (msg : string)
| UnboundLocalError (name : string)
| LinAlgError (msg : string).

Inductive result (A : Type) : Type :=
| Ok (a : A)
| Raise (e : exn).

Arguments Ok {A} a.
Arguments Raise {A} e.

(** A raised exception skips the rest of the function body. *)
#[global] Instance result_ret : MRet result := fun A a => Ok a.
#[global] Instance result_bind : MBind result := fun A B k r =>
  match r with
  | Ok a => k a
  | Raise e => Raise e
  end.

(** ** One-dimensional arrays that are updated in place *)

Module NdArray.

(** Python indexing [a[i]] with a possibly negative index. *)
Definition norm_index (n : nat) (i : Z) : option nat :=
  if ((- Z.of_nat n <=? i) && (i <? Z.of_nat n))%Z
  then Some (Z.to_nat (if (i <? 0)%Z then i + Z.of_nat n else i)%Z)
  else None.

Definition out_of_bounds : exn :=
  IndexError "index is out of bounds for axis 0".

Definition getitem (a : list R) (i : Z) : result R :=
  match norm_index (length a) i with
  | Some k => match a !! k with Some x => Ok x | None => Raise out_of_bounds end
  | None => Raise out_of_bounds
  end.

Definition setitem (a : list R) (i : Z) (v : R) : result (list R) :=
  match norm_index (length a) i with
  | Some k => Ok (<[k := v]> a)
  | None => Raise out_of_bounds
  end.

(** [np.ones(T)], [np.zeros(T)], [np.arange(T)]. *)
Definition ones (T : nat) : list R := replicate T 1.
Definition zeros (T : nat) : list R := replicate T 0.
Definition arange (T : nat) : list R := map INR (seq 0 T).

End NdArray.

(** ** Array arithmetic

    The element operations numpy applies to float arrays.  The code of the
    penalty shapes is written once over this interface and read in two
    arithmetics: [exact] (the real numbers, every operation total) and
    [checked] (a value is [None] as soon as an operation leaves the finite
    reals: the square root of a negative number, the logarithm of a
    non-positive number, a division by zero; numpy yields NaN or an infinity
    there, and the operations this code applies to such a value keep it
    non-finite: the one operation that could map an infinity back to a finite
    value, [np.clip], is only applied to the exponential of a product of
    inputs). *)

Class Arith (A : Type) : Type := {
  lit : R -> A;
  add : A -> A -> A;
  sub : A -> A -> A;
  mul : A -> A -> A;
  div : A -> A -> A;
  neg : A -> A;
  np_sqrt : A -> A;
  np_log : A -> A;
  np_exp : A -> A;
  np_sign : A -> A;
  np_clip : A -> R -> R -> A
}.

(** [np.sign] on a real. *)
Definition Rsign (x : R) : R :=
  if Rlt_dec 0 x then 1 else if Rlt_dec x 0 then -1 else 0.

(** [np.clip(x, lo, hi)] on a real. *)
Definition Rclip (x lo hi : R) : R := Rmin (Rmax x lo) hi.

#[global] Instance exact : Arith R := {|
  lit r := r;
  add := Rplus;
  sub := Rminus;
  mul := Rmult;
  div := Rdiv;
  neg := Ropp;
  np_sqrt := sqrt;
  np_log := ln;
  np_exp := exp;
  np_sign := Rsign;
  np_clip := Rclip
|}.

Definition lift1 (f : R -> R) (x : option R) : option R :=
  a ← x; Some (f a).

Definition lift2 (f : R -> R -> R) (x y : option R) : option R :=
  a ← x; b ← y; Some (f a b).

#[global] Instance checked : Arith (option R) := {|
  lit r := Some r;
  add := lift2 Rplus;
  sub := lift2 Rminus;
  mul := lift2 Rmult;
  div x y := a ← x; b ← y; if Req_dec_T b 0 then None else Some (a / b);
  neg := lift1 Ropp;
  np_sqrt x := a ← x; if Rlt_dec a 0 then None else Some (sqrt a);
  np_log x := a ← x; if Rlt_dec 0 a then Some (ln a) else None;
  np_exp := lift1 exp;
  np_sign := lift1 Rsign;
  np_clip x lo hi := a ← x; Some (Rclip a lo hi)
|}.

(** Arrays of finite floats, read in checked arithmetic. *)
Definition finite2 (x : nat -> nat -> R) : nat -> nat -> option R :=
  fun t i => Some (x t i).
Definition finite3 (x : nat -> nat -> nat -> R)
  : nat -> nat -> nat -> option R :=
  fun t i a => Some (x t i a).
Definition finite4 (x : nat -> nat -> nat -> nat -> R)
  : nat -> nat -> nat -> nat -> option R :=
  fun t i a b => Some (x t i a b).


(** A checked value, when finite, is the exact value [r]. *)
Definition agrees (x : option R) (r : R) : Prop :=
  forall v, x = Some v -> v = r.

Declare Scope np_scope.
Delimit Scope np_scope with np.
Infix "+" := add : np_scope.
Infix "-" := sub : np_scope.
Infix "*" := mul : np_scope.
Infix "/" := div : np_scope.
Notation "- x" := (neg x) : np_scope.

Section ArrayOps.
Context {A : Type} `{Arith A}.

(** [np.sum] over an axis of length [n]. *)
Fixpoint np_sum (n : nat) (f : nat -> A) : A :=
  match n with
  | O => lit 0
  | S k => (np_sum k f + f k)%np
  end.

(** [x**2] and [x**3]. *)
Definition pow2 (x : A) : A := (x * x)%np.
Definition pow3 (x : A) : A := (x * x * x)%np.

(** [np.eye(D)[i, j]]. *)
Definition eye (i j : nat) : A := if Nat.eqb i j then lit 1 else lit 0.

End ArrayOps.

(** ** cost_utils.py *)

Module CostUtils.
Import NdArray.

(** *** Ramp modes *)

Definition RAMP_CONSTANT : Z := 1.
Definition RAMP_LINEAR : Z := 2.
Definition RAMP_QUADRATIC : Z := 3.
Definition RAMP_FINAL_ONLY : Z := 4.

(** Lines 23-33 of [get_ramp_multiplier]: the array [wpm] before the weight
    of the last step is applied. *)
Definition ramp_base (ramp_option : Z) (T : nat) : result (list R) :=
  if (ramp_option =? RAMP_CONSTANT)%Z then
    Ok (ones T)
  else if (ramp_option =? RAMP_LINEAR)%Z then
    Ok (map (fun x => (x + 1) / INR T) (arange T))
  else if (ramp_option =? RAMP_QUADRATIC)%Z then
    Ok (map (fun x => ((x + 1) / INR T) ^ 2) (arange T))
  else if (ramp_option =? RAMP_FINAL_ONLY)%Z then
    setitem (zeros T) (Z.of_nat T - 1) 1
  else
    Raise (ValueError "Unknown cost ramp requested!").

(** Line 34: [wpm[-1] *= wp_final_multiplier]. *)
Definition scale_last (wpm : list R) (wp_final_multiplier : R)
  : result (list R) :=
  x ← getitem wpm (-1);
  setitem wpm (-1) (x * wp_final_multiplier).

Definition get_ramp_multiplier (ramp_option : Z) (T : nat)
    (wp_final_multiplier : R) : result (list R) :=
  wpm ← ramp_base ramp_option T;
  scale_last wpm wp_final_multiplier.

Definition known_ramp (ramp_option : Z) : Prop :=
  ramp_option = RAMP_CONSTANT \/ ramp_option = RAMP_LINEAR \/
  ramp_option = RAMP_QUADRATIC \/ ramp_option = RAMP_FINAL_ONLY.

(** *** Penalty shapes

    [wp] and [d] have shape (T, D), [Jd] has shape (T, D, Dx), [Jdd] has
    shape (T, D, Dx, Dx); the result is [(l, lx, lxx)] of shapes (T,),
    (T, Dx) and (T, Dx, Dx).  Index names: [t] time, [i], [j] residual
    dimension, [a], [b] state dimension. *)

Section PenaltyShapes.
Context {A : Type} `{Arith A}.
Variables D : nat.

Definition arr1 : Type := nat -> A.
Definition arr2 : Type := nat -> nat -> A.
Definition arr3 : Type := nat -> nat -> nat -> A.
Definition arr4 : Type := nat -> nat -> nat -> nat -> A.

Local Open Scope np_scope.

(** Lines 77-85 (and their copies in the other shapes): the chain-rule
    term through [Jdd], the quadratic form in [Jd], and the averaging of
    [sec] with its transpose. *)
Definition second_order (Jd : arr3) (Jdd : arr4) (d1 : arr2) (d2 : arr3)
  : arr3 :=
  let sec t a b := np_sum D (fun i => d1 t i * Jdd t i a b) in
  let lxx t a b :=
    np_sum D (fun j => np_sum D (fun i => Jd t i a * Jd t j b * d2 t i j)) in
  fun t a b => lxx t a b + (lit (1/2) * sec t a b + lit (1/2) * sec t b a).

Definition evall1l2term (wp d : arr2) (Jd : arr3) (Jdd : arr4)
    (l1 l2 alpha : A) : arr1 * arr2 * arr3 :=
  let sqrtwp t i := np_sqrt (wp t i) in
  let dsclsq t i := d t i * sqrtwp t i in
  let dscl t i := d t i * wp t i in
  let dscls t i := d t i * pow2 (wp t i) in
  let l t :=
    lit (1/2) * np_sum D (fun i => pow2 (dsclsq t i)) * l2 +
    np_sqrt (alpha + np_sum D (fun i => pow2 (dscl t i))) * l1 in
  let d1 t i :=
    dscl t i * l2 +
    dscls t i / np_sqrt (alpha + np_sum D (fun i' => pow2 (dscl t i'))) * l1 in
  let lx t a := np_sum D (fun i => Jd t i a * d1 t i) in
  let psq t := np_sqrt (alpha + np_sum D (fun i => pow2 (dscl t i))) in
  let d2 t i j :=
    l1 * (eye i j * (pow2 (wp t j) / psq t) -
          dscls t j * dscls t i / pow3 (psq t)) +
    l2 * (wp t i * eye i j) in
  (l, lx, second_order Jd Jdd d1 d2).

Definition evallogl2term (wp d : arr2) (Jd : arr3) (Jdd : arr4)
    (l1 l2 alpha : A) : arr1 * arr2 * arr3 :=
  let sqrtwp t i := np_sqrt (wp t i) in
  let dsclsq t i := d t i * sqrtwp t i in
  let dscl t i := d t i * wp t i in
  let dscls t i := d t i * pow2 (wp t i) in
  let l t :=
    lit (1/2) * np_sum D (fun i => pow2 (dsclsq t i)) * l2 +
    lit (1/2) * np_log (alpha + np_sum D (fun i => pow2 (dscl t i))) * l1 in
  let d1 t i :=
    dscl t i * l2 +
    dscls t i / (alpha + np_sum D (fun i' => pow2 (dscl t i'))) * l1 in
  let lx t a := np_sum D (fun i => Jd t i a * d1 t i) in
  let psq t := alpha + np_sum D (fun i => pow2 (dscl t i)) in
  let d2 t i j :=
    l1 * (eye i j * (pow2 (wp t j) / psq t) -
          dscls t j * dscls t i / pow2 (psq t)) +
    l2 * (wp t i * eye i j) in
  (l, lx, second_order Jd Jdd d1 d2).

Definition evalasymetric (wp d : arr2) (Jd : arr3) (Jdd : arr4)
    (alpha : A) : arr1 * arr2 * arr3 :=
  let skew t i := pow2 (wp t i) * pow2 (np_sign (d t i) + alpha) in
  let l t := lit (1/2) * np_sum D (fun i => pow2 (d t i) * skew t i) in
  let d1 t i := d t i * skew t i in
  let lx t a := np_sum D (fun i => Jd t i a * d1 t i) in
  let d2 t i j := skew t i * eye i j in
  (l, lx, second_order Jd Jdd d1 d2).

Definition evalexp (wp d : arr2) (Jd : arr3) (Jdd : arr4)
  : arr1 * arr2 * arr3 :=
  let ex t i := np_clip (np_exp (d t i * wp t i)) 0 1 in
  let l t := np_sum D (fun i => ex t i) in
  let d1 t i := - wp t i * ex t i in
  let lx t a := np_sum D (fun i => Jd t i a * d1 t i) in
  let d2 t i j := pow2 (wp t i) * ex t i * eye i j in
  (l, lx, second_order Jd Jdd d1 d2).

End PenaltyShapes.

Arguments arr1 A : clear implicits.
Arguments arr2 A : clear implicits.
Arguments arr3 A : clear implicits.
Arguments arr4 A : clear implicits.

(** A result in checked arithmetic agrees entrywise with one in exact
    arithmetic. *)
Definition agree3 (c : arr1 (option R) * arr2 (option R) * arr3 (option R))
    (e : arr1 R * arr2 R * arr3 R) : Prop :=
  let '(l, lx, lxx) := c in
  let '(l', lx', lxx') := e in
  forall t a b,
    agrees (l t) (l' t) /\ agrees (lx t a) (lx' t a) /\
    agrees (lxx t a b) (lxx' t a b).

End CostUtils.

(** ** Dense linear algebra (numpy) in exact arithmetic *)

Module LinAlg.

Definition vec : Type := nat -> R.
Definition mat : Type := nat -> nat -> R.

Definition rsum (n : nat) (f : nat -> R) : R := np_sum n f.

(** Equality of the entries inside the shape. *)
Definition vec_eq (n : nat) (u v : vec) : Prop :=
  forall i, (i < n)%nat -> u i = v i.
Definition mat_eq (r c : nat) (X Y : mat) : Prop :=
  forall i j, (i < r)%nat -> (j < c)%nat -> X i j = Y i j.

Definition identity : mat := eye.
Definition transpose (X : mat) : mat := fun i j => X j i.
Definition mopp (X : mat) : mat := fun i j => - X i j.
Definition vopp (v : vec) : vec := fun i => - v i.

(** [X.dot(Y)] and [X.dot(v)], with [n] the contracted dimension. *)
Definition dot (n : nat) (X Y : mat) : mat :=
  fun i j => rsum n (fun k => X i k * Y k j).
Definition dotv (n : nat) (X : mat) (v : vec) : vec :=
  fun i => rsum n (fun k => X i k * v k).

(** [np.hstack([X, Y])] with [X] of [c] columns, [np.vstack([X, Y])] with
    [X] of [r] rows, [np.concatenate([u, v])] with [u] of length [n]. *)
Definition hstack (c : nat) (X Y : mat) : mat :=
  fun i j => if (j <? c)%nat then X i j else Y i (j - c)%nat.
Definition vstack (r : nat) (X Y : mat) : mat :=
  fun i j => if (i <? r)%nat then X i j else Y (i - r)%nat j.
Definition concatenate (n : nat) (u v : vec) : vec :=
  fun i => if (i <? n)%nat then u i else v (i - n)%nat.

(** [np.linalg.solve(a, b)] for [a] of shape (n, n) and [b] of shape
    (n, m): the solution [x] of [a.dot(x) = b].  numpy raises LinAlgError
    on a singular [a]; the statements below are about invertible [a]. *)
Definition solve (n m : nat) (a b : mat) : mat :=
  epsilon (inhabits b) (fun x => mat_eq n m (dot n a x) b).

(** [np.linalg.norm(X, np.inf)] of an r-by-c matrix: the largest row sum
    of absolute values.  The row sums are non-negative, so the maximum can
    start from 0. *)
Fixpoint rmax (n : nat) (f : nat -> R) : R :=
  match n with
  | O => 0
  | S k => Rmax (rmax k f) (f k)
  end.
Definition norm_inf (r c : nat) (X : mat) : R :=
  rmax r (fun i => rsum c (fun j => Rabs (X i j))).

(** [Y] is the inverse of the n-by-n matrix [X]. *)
Definition inverse_of (n : nat) (X Y : mat) : Prop :=
  mat_eq n n (dot n X Y) identity /\ mat_eq n n (dot n Y X) identity.

Definition invertible (n : nat) (X : mat) : Prop :=
  exists Y, inverse_of n X Y.

(** [np.mean] and [np.sum] of a one-dimensional array. *)
Definition sum_list (l : list R) : R := foldr Rplus 0 l.
Definition mean (l : list R) : R := sum_list l / INR (length l).

End LinAlg.

(** ** algorithm_mdgps.py *)

Module MDGPS.
Import LinAlg.

Section Model.
(** The fitted dynamics of a condition are only handed on to the
    trajectory optimizer. *)
Variable Dynamics : Type.

Record TrajectoryInfo : Type := {
  dynamics : Dynamics;
  Cm : nat -> mat;           (* (T, dX+dU, dX+dU) *)
  cv : nat -> vec;           (* (T, dX+dU) *)
  last_kl_step : R
}.

Record LinearGaussianPolicy : Type := {
  T : nat;
  dU : nat;
  dX : nat;
  K : nat -> mat;            (* (T, dU, dX) *)
  k : nat -> vec;            (* (T, dU) *)
  pol_covar : nat -> mat;
  chol_pol_covar : nat -> mat;
  inv_pol_covar : nat -> mat
}.

Record PolicyInfo : Type := {
  pol_K : nat -> mat;        (* (T, dU, dX) *)
  pol_k : nat -> vec;        (* (T, dU) *)
  pol_S : nat -> mat;        (* (T, dU, dU) *)
  chol_pol_S : nat -> mat    (* (T, dU, dU) *)
}.

(** One entry of [self.cur] or [self.prev].  [cs] is the
    (sample_count, T) array of sampled costs. *)
Record IterationData : Type := {
  sample_count : nat;
  cs : nat -> nat -> R;
  traj_info : TrajectoryInfo;
  traj_distr : LinearGaussianPolicy;
  new_traj_distr : LinearGaussianPolicy;
  pol_info : PolicyInfo;
  step_mult : R
}.

(** The fields of the algorithm object the two methods read.  [self.M]
    is the number of entries of [self.cur]. *)
Record AlgorithmMDGPS : Type := {
  horizon : nat;                       (* self.T *)
  cur : list IterationData;
  prev : list IterationData;
  step_rule : string;                  (* _hyperparams['step_rule'] *)
  K_regularization : R                 (* _hyperparams['K_regularization'] *)
}.

Definition M (self : AlgorithmMDGPS) : nat := length (cur self).

(** [self.cur[m]]. *)
Definition cur_at (self : AlgorithmMDGPS) (m : nat) : result IterationData :=
  match cur self !! m with
  | Some it => Ok it
  | None => Raise (IndexError "list index out of range")
  end.

(** *** compute_costs *)

(** Lines 248-250. *)
Definition inv_pol_S (du : nat) (chol : mat) : mat :=
  solve du du chol (solve du du (transpose chol) identity).

(** Lines 252-257. *)
Definition PKLm_of (dx du : nat) (KB invS : mat) : mat :=
  vstack dx
    (hstack dx (dot du (dot du (transpose KB) invS) KB)
               (mopp (dot du (transpose KB) invS)))
    (hstack dx (mopp (dot du invS KB)) invS).

(** Line 258. *)
Definition PKLv_of (dx du : nat) (KB invS : mat) (kB : vec) : vec :=
  concatenate dx (dotv du (dot du (transpose KB) invS) kB)
                 (vopp (dotv du invS kB)).

Definition compute_costs (self : AlgorithmMDGPS) (m : nat) (eta : R)
  : result ((nat -> mat) * (nat -> vec)) :=
  it ← cur_at self m;
  let traj_info := traj_info it in
  let traj_distr := traj_distr it in
  let pol_info := pol_info it in
  let '(T, dU, dX) := (T traj_distr, dU traj_distr, dX traj_distr) in
  let '(Cm, cv) := (Cm traj_info, cv traj_info) in
  let invS t := inv_pol_S dU (chol_pol_S pol_info t) in
  let PKLm t := PKLm_of dX dU (pol_K pol_info t) (invS t) in
  let PKLv t := PKLv_of dX dU (pol_K pol_info t) (invS t) (pol_k pol_info t) in
  let fCm t : mat := fun i j =>
    if (t <? T)%nat then
      (Cm t i j +
       K_regularization self * norm_inf dU dX (K traj_distr t) * identity i j +
       PKLm t i j * eta) / eta
    else 0 in
  let fcv t : vec := fun i =>
    if (t <? T)%nat then (cv t i + PKLv t i * eta) / eta else 0 in
  Ok (fCm, fcv).

(** *** _stepadjust *)

(** The trajectory optimizer's [estimate_cost] and [PolicyInfo.traj_distr]
    are collaborators of this class. *)
Variable estimate_cost : LinearGaussianPolicy -> TrajectoryInfo -> list R.
Variable pol_traj_distr : PolicyInfo -> LinearGaussianPolicy.

(** [Algorithm._set_new_mult(predicted_impr, actual_impr, m)], a method of
    the base class; it updates [self]. *)
Variable _set_new_mult : R -> R -> nat -> AlgorithmMDGPS -> result AlgorithmMDGPS.

(** [it.cs.mean(axis=0).sum()]. *)
Definition mc_cost (horizon : nat) (it : IterationData) : R :=
  rsum horizon (fun t =>
    rsum (sample_count it) (fun n => cs it n t) / INR (sample_count it)).

Definition laplace_cost (it : IterationData) : R :=
  sum_list (estimate_cost (pol_traj_distr (pol_info it)) (traj_info it)).

Definition predicted_cost (it : IterationData) : R :=
  sum_list (estimate_cost (new_traj_distr it) (traj_info it)).

(** Lines 179-220: the five condition-averaged costs. *)
Definition prev_laplace (self : AlgorithmMDGPS) : R :=
  mean (map laplace_cost (prev self)).
Definition prev_mc (self : AlgorithmMDGPS) : R :=
  mean (map (mc_cost (horizon self)) (prev self)).
Definition prev_predicted (self : AlgorithmMDGPS) : R :=
  mean (map predicted_cost (prev self)).
Definition cur_laplace (self : AlgorithmMDGPS) : R :=
  mean (map laplace_cost (cur self)).
Definition cur_mc (self : AlgorithmMDGPS) : R :=
  mean (map (mc_cost (horizon self)) (cur self)).

(** Lines 221-226: [(predicted_impr, actual_impr)]; the two names stay
    unbound under any other step rule. *)
Definition improvements (self : AlgorithmMDGPS) : option (R * R) :=
  if String.eqb (step_rule self) "laplace" then
    Some (prev_laplace self - prev_predicted self,
          prev_laplace self - cur_laplace self)
  else if String.eqb (step_rule self) "mc" then
    Some (prev_mc self - prev_predicted self,
          prev_mc self - cur_mc self)
  else None.

(** [for m in ms: self = body(m, self)]. *)
Fixpoint for_each (ms : list nat)
    (body : nat -> AlgorithmMDGPS -> result AlgorithmMDGPS)
    (self : AlgorithmMDGPS) : result AlgorithmMDGPS :=
  match ms with
  | [] => Ok self
  | m :: ms' => self' ← body m self; for_each ms' body self'
  end.

(** Lines 233-234; reading an unbound local raises. *)
Definition _stepadjust (self : AlgorithmMDGPS) : result AlgorithmMDGPS :=
  let impr := improvements self in
  for_each (seq 0 (M self))
    (fun m self' =>
       match impr with
       | Some (predicted_impr, actual_impr) =>
           _set_new_mult predicted_impr actual_impr m self'
       | None => Raise (UnboundLocalError "predicted_impr")
       end)
    self.

End Model.

Arguments dynamics {Dynamics} _.
Arguments Cm {Dynamics} _.
Arguments cv {Dynamics} _.
Arguments last_kl_step {Dynamics} _.
Arguments sample_count {Dynamics} _.
Arguments cs {Dynamics} _.
Arguments traj_info {Dynamics} _.
Arguments traj_distr {Dynamics} _.
Arguments new_traj_distr {Dynamics} _.
Arguments pol_info {Dynamics} _.
Arguments step_mult {Dynamics} _.
Arguments horizon {Dynamics} _.
Arguments cur {Dynamics} _.
Arguments prev {Dynamics} _.
Arguments step_rule {Dynamics} _.
Arguments K_regularization {Dynamics} _.
Arguments M {Dynamics} _.
Arguments cur_at {Dynamics} _ _.
Arguments compute_costs {Dynamics} _ _ _.
Arguments mc_cost {Dynamics} _ _.
Arguments laplace_cost {Dynamics} _ _ _.
Arguments predicted_cost {Dynamics} _ _.
Arguments prev_laplace {Dynamics} _ _ _.
Arguments prev_mc {Dynamics} _.
Arguments prev_predicted {Dynamics} _ _.
Arguments cur_laplace {Dynamics} _ _ _.
Arguments cur_mc {Dynamics} _.
Arguments improvements {Dynamics} _ _ _.
Arguments for_each {Dynamics} _ _ _.
Arguments _stepadjust {Dynamics} _ _ _ _.

End MDGPS.

(** ** Updates of the step multiplier *)

Module Algorithm.
Import MDGPS.

(** [Algorithm._set_new_mult], the method [_stepadjust] calls for every
    condition, belongs to the base class in gps/algorithm/algorithm.py, which
    is not among the sources: [_stepadjust] takes it as a parameter.  What
    follows are the state updates the statements about [_stepadjust] are
    tried on. *)

Section SetNewMult.
Context {Dynamics : Type}.

Definition with_step_mult (it : IterationData Dynamics) (mult : R)
  : IterationData Dynamics :=
  {| sample_count := sample_count it;
     cs := cs it;
     traj_info := traj_info it;
     traj_distr := traj_distr it;
     new_traj_distr := new_traj_distr it;
     pol_info := pol_info it;
     step_mult := mult |}.

Definition with_cur (self : AlgorithmMDGPS Dynamics)
    (c : list (IterationData Dynamics)) : AlgorithmMDGPS Dynamics :=
  {| horizon := horizon self;
     cur := c;
     prev := prev self;
     step_rule := step_rule self;
     K_regularization := K_regularization self |}.

(** [self.cur[m].step_mult = f(self.cur[m].step_mult)]. *)
Definition update_step_mult (f : R -> R) (m : nat)
    (self : AlgorithmMDGPS Dynamics) : result (AlgorithmMDGPS Dynamics) :=
  it ← cur_at self m;
  Ok (with_cur self (<[m := with_step_mult it (f (step_mult it))]> (cur self))).

(** A stand-in for the base-class method that makes its calls visible: it
    stores the predicted improvement it is handed in the multiplier of
    the condition it is called on. *)
Definition record_call (predicted_impr actual_impr : R) (m : nat)
    (self : AlgorithmMDGPS Dynamics) : result (AlgorithmMDGPS Dynamics) :=
  update_step_mult (fun _ => predicted_impr) m self.

(** The states a run of the loop of [_stepadjust] goes through when every
    call of [body] returns: the state before the call for condition m. *)
Definition states_of
    (body : nat -> AlgorithmMDGPS Dynamics -> result (AlgorithmMDGPS Dynamics))
    (self : AlgorithmMDGPS Dynamics) : nat -> AlgorithmMDGPS Dynamics :=
  fix chain (m : nat) : AlgorithmMDGPS Dynamics :=
    match m with
    | O => self
    | S k => match body k (chain k) with
             | Ok s => s
             | Raise _ => chain k
             end
    end.

(** [self.cur[m].step_mult], or 0 where there is no such condition. *)
Definition step_mult_at (self : AlgorithmMDGPS Dynamics) (m : nat) : R :=
  match cur self !! m with
  | Some it => step_mult it
  | None => 0
  end.

End SetNewMult.

End Algorithm.

(** ** The quantities the statements name, written out

    The block matrix and the stacked vector of the KL penalty, and the
    condition-averaged costs of step adjustment, written entry by entry from
    their descriptions.  The theorems compare them with what the code
    computes. *)

Module Stated.
Import LinAlg MDGPS.

(** The block matrix [[KB^T S KB, -KB^T S], [-S KB, S]] over the stacked
    (state, action) vector, for a gain KB of shape (du, dx) and S of shape
    (du, du). *)
Definition KL_matrix (dx du : nat) (KB S : mat) : mat :=
  fun i j =>
    if (i <? dx)%nat then
      if (j <? dx)%nat
      then rsum du (fun a => rsum du (fun b => KB a i * S a b * KB b j))
      else - rsum du (fun a => KB a i * S a (j - dx)%nat)
    else
      if (j <? dx)%nat
      then - rsum du (fun b => S (i - dx)%nat b * KB b j)
      else S (i - dx)%nat (j - dx)%nat.

(** The stacked vector [KB^T S kB, -S kB]. *)
Definition KL_vector (dx du : nat) (KB S : mat) (kB : vec) : vec :=
  fun i =>
    if (i <? dx)%nat
    then rsum du (fun a => rsum du (fun b => KB a i * S a b * kB b))
    else - rsum du (fun b => S (i - dx)%nat b * kB b).

(** The arithmetic mean of x[0], ..., x[n-1]. *)
Definition average (n : nat) (x : nat -> R) : R := rsum n x / INR n.

Section Conditions.
Context {Dynamics : Type}.

(** The cost of condition [m] of a list of conditions. *)
Definition cost_of (cost : IterationData Dynamics -> R)
    (its : list (IterationData Dynamics)) (m : nat) : R :=
  match its !! m with
  | Some it => cost it
  | None => 0
  end.

(** The realized cost of a condition with N samples: the sum over the T
    steps of the mean of cs[n, t] over the condition's own N samples. *)
Definition sampled_cost (T : nat) (it : IterationData Dynamics) : R :=
  rsum T (fun t => average (sample_count it) (fun n => cs it n t)).

End Conditions.

End Stated.

(** ** Inputs used in the statements below *)

Module Scenarios.
Import LinAlg MDGPS Algorithm.

(** The task-cost quadratics [Cm], [cv] of a condition scaled by [c]. *)
Definition scale_cost {Dynamics : Type} (c : R)
    (it : IterationData Dynamics) : IterationData Dynamics :=
  {| sample_count := sample_count it;
     cs := cs it;
     traj_info :=
       {| dynamics := dynamics (traj_info it);
          Cm := fun t i j => c * Cm (traj_info it) t i j;
          cv := fun t i => c * cv (traj_info it) t i;
          last_kl_step := last_kl_step (traj_info it) |};
     traj_distr := traj_distr it;
     new_traj_distr := new_traj_distr it;
     pol_info := pol_info it;
     step_mult := step_mult it |}.

Definition with_scaled_cost {Dynamics : Type} (c : R) (m : nat)
    (self : AlgorithmMDGPS Dynamics) : AlgorithmMDGPS Dynamics :=
  with_cur self (alter (scale_cost c) m (cur self)).

(** The regularizer of line 260 at timestep [t]. *)
Definition regularizer {Dynamics : Type} (self : AlgorithmMDGPS Dynamics)
    (it : IterationData Dynamics) (t : nat) : R :=
  K_regularization self *
  norm_inf (dU (traj_distr it)) (dX (traj_distr it)) (K (traj_distr it) t).

(** Controllers and conditions with T = dX = dU = 1. *)
Definition unit_policy (gain : R) : LinearGaussianPolicy :=
  {| T := 1; dU := 1; dX := 1;
     K := fun _ _ _ => gain;
     k := fun _ _ => 0;
     pol_covar := fun _ => identity;
     chol_pol_covar := fun _ => identity;
     inv_pol_covar := fun _ => identity |}.

Definition unit_pol_info (laplace : R) : PolicyInfo :=
  {| pol_K := fun _ _ _ => laplace;
     pol_k := fun _ _ => 1;
     pol_S := fun _ => identity;
     chol_pol_S := fun _ => identity |}.

(** A condition with [count] samples that all cost [sampled], whose fitted
    policy has gain [laplace] and whose new controller has gain
    [predicted]. *)
Definition condition (count : nat) (sampled laplace predicted mult : R)
  : IterationData unit :=
  {| sample_count := count;
     cs := fun _ _ => sampled;
     traj_info :=
       {| dynamics := tt;
          Cm := fun _ _ _ => 0;
          cv := fun _ _ => 0;
          last_kl_step := 0 |};
     traj_distr := unit_policy 1;
     new_traj_distr := unit_policy predicted;
     pol_info := unit_pol_info laplace;
     step_mult := mult |}.

(** A trajectory optimizer whose cost estimate of a controller is its
    gain, and the controller of a policy fit. *)
Definition estimate_gain (pol : LinearGaussianPolicy)
    (_ : TrajectoryInfo unit) : list R :=
  [K pol 0%nat 0%nat 0%nat].

Definition fitted_policy (p : PolicyInfo) : LinearGaussianPolicy :=
  unit_policy (pol_K p 0%nat 0%nat 0%nat).

Definition algorithm (rule : string) (c p : list (IterationData unit))
  : AlgorithmMDGPS unit :=
  {| horizon := 1; cur := c; prev := p; step_rule := rule;
     K_regularization := 1 |}.

(** One condition; used for cost fusion. *)
Definition fusion_example : AlgorithmMDGPS unit :=
  algorithm "mc" [condition 1 0 0 0 1] [].

(** One condition whose fitted policy has gain 2 and bias 1. *)
Definition kl_example : AlgorithmMDGPS unit :=
  algorithm "mc" [condition 1 0 2 0 1] [].

(** Two conditions with two samples each: the previous controllers cost 9
    and 11 on their samples and were predicted to cost 7 and 9, the current
    ones cost 8 and 10. *)
Definition stepadjust_example : AlgorithmMDGPS unit :=
  algorithm "mc"
    [condition 2 8 0 0 1; condition 2 10 0 0 1]
    [condition 2 9 0 7 1; condition 2 11 0 9 1].

(** A single condition with two samples: the previous controller cost 9
    on its samples and was predicted to cost 7, the current one costs 8. *)
Definition single_example : AlgorithmMDGPS unit :=
  algorithm "mc" [condition 2 8 0 0 1] [condition 2 9 0 7 1].

(** Condition 0 has three samples now and had two in the previous
    iteration; condition 1 has two in both. *)
Definition mismatch_example : AlgorithmMDGPS unit :=
  algorithm "mc"
    [condition 3 7 0 0 1; condition 2 9 0 0 1]
    [condition 2 10 0 8 1; condition 2 10 0 8 1].

End Scenarios.

(** ** Definitions for the further properties *)

Module Shapes.
Import CostUtils.

(** The three results of a penalty shape are finite at timestep [t]. *)
Definition finite_at (t : nat)
    (r : arr1 (option R) * arr2 (option R) * arr3 (option R)) : Prop :=
  let '(l, lx, lxx) := r in
  is_Some (l t) /\ (forall a, is_Some (lx t a)) /\
  (forall a b, is_Some (lxx t a b)).

(** The residual array [d] with entry (t, a) replaced by [x]. *)
Definition with_residual (d : arr2 R) (t a : nat) (x : R) : arr2 R :=
  fun t' i => if Nat.eqb t' t && Nat.eqb i a then x else d t' i.

(** The Jacobian of a residual that is the state itself: Jd[t] is the
    identity matrix. *)
Definition identity_jacobian : arr3 R := fun _ i b => eye i b.

End Shapes.

(** ** cost_action.py *)

Module CostAction.
Import LinAlg.

(** What [CostAction] reads of a sample: its shape and its actions, an array
    of shape (T, dU). *)
Record Sample : Type := {
  T : nat;
  dU : nat;
  dX : nat;
  get_U : nat -> nat -> R
}.

(** [_hyperparams['wu']] and [_hyperparams['target_state']], both of shape
    (dU,). *)
Record Hyperparams : Type := {
  wu : vec;
  target_state : vec
}.

(** The tuple [l, lx, lu, lxx, luu, lux] both methods return. *)
Record Expansion : Type := {
  l : nat -> R;
  lx : nat -> nat -> R;
  lu : nat -> nat -> R;
  lxx : nat -> nat -> nat -> R;
  luu : nat -> nat -> nat -> R;
  lux : nat -> nat -> nat -> R
}.

(** [np.diag(v)] of a one-dimensional array. *)
Definition np_diag (v : vec) : mat :=
  fun i j => if Nat.eqb i j then v i else 0.

Definition eval (hp : Hyperparams) (sample : Sample) : Expansion :=
  let sample_u t i := get_U sample t i - target_state hp i in
  let Du := dU sample in
  {| l := fun t => 1 / 2 * rsum Du (fun i => wu hp i * (sample_u t i * sample_u t i));
     lu := fun t i => wu hp i * sample_u t i;
     lx := fun _ _ => 0;
     luu := fun _ => np_diag (wu hp);
     lxx := fun _ _ _ => 0;
     lux := fun _ _ _ => 0 |}.

Definition eval_mu (hp : Hyperparams) (mu : nat -> nat -> R) (T Du Dx : nat)
  : Expansion :=
  let sample_u t i := mu t (Dx + i)%nat in
  {| l := fun t => 1 / 2 * rsum Du (fun i => wu hp i * (sample_u t i * sample_u t i));
     lu := fun t i => wu hp i * sample_u t i;
     lx := fun _ _ => 0;
     luu := fun _ => np_diag (wu hp);
     lxx := fun _ _ _ => 0;
     lux := fun _ _ _ => 0 |}.

End CostAction.

(** ** init_policy.py *)

Module InitPolicy.
Import LinAlg.

(** numpy's LAPACK routines branch on properties of a real matrix (is it
    singular, is it positive definite) that no program decides on exact
    reals: the branch is taken classically. *)
Definition decide_prop (P : Prop) : {P} + {~ P} :=
  match
    constructive_indefinite_description (fun b : bool => if b then P else ~ P)
      match classic P with
      | or_introl p => ex_intro (fun b : bool => if b then P else ~ P) true p
      | or_intror np => ex_intro (fun b : bool => if b then P else ~ P) false np
      end
  with
  | exist _ true p => left p
  | exist _ false np => right np
  end.

(** [np.linalg.inv(a)] for [a] of shape (n, n): the solution of
    [a.dot(x) = I]; LinAlgError on a singular [a]. *)
Definition inv (n : nat) (a : mat) : result mat :=
  if decide_prop (invertible n a) then Ok (solve n n a identity)
  else Raise (LinAlgError "Singular matrix").

(** [L] is the factor [np.linalg.cholesky(a)] returns: lower triangular
    with a positive diagonal and [L.dot(L.T) = a]; numpy reads only the
    diagonal and the lower triangle of [a]. *)
Definition cholesky_factor (n : nat) (a L : mat) : Prop :=
  (forall i j, (i < j)%nat -> (j < n)%nat -> L i j = 0) /\
  (forall i, (i < n)%nat -> 0 < L i i) /\
  (forall i j, (j <= i)%nat -> (i < n)%nat ->
     dot n L (transpose L) i j = a i j).

(** [np.linalg.cholesky(a)]; LinAlgError when there is no such factor. *)
Definition cholesky (n : nat) (a : mat) : result mat :=
  if decide_prop (exists L, cholesky_factor n a L)
  then Ok (epsilon (inhabits a) (cholesky_factor n a))
  else Raise (LinAlgError "Matrix is not positive definite").

Record Hyperparams : Type := {
  dU : nat;
  dX : nat;
  T : nat;
  init_const : vec;       (* (dU,) *)
  init_var : mat          (* (dU, dU) *)
}.

(** [LinearGaussianPolicy(K, k, pol_covar, chol_pol_covar, inv_pol_covar)]
    for arrays of shapes (T, dU, dX), (T, dU) and (T, dU, dU). *)
Definition policy (T dU dX : nat) (K : nat -> mat) (k : nat -> vec)
    (PSig cholPSig inv_pol_covar : nat -> mat) : MDGPS.LinearGaussianPolicy :=
  {| MDGPS.T := T; MDGPS.dU := dU; MDGPS.dX := dX;
     MDGPS.K := K; MDGPS.k := k;
     MDGPS.pol_covar := PSig;
     MDGPS.chol_pol_covar := cholPSig;
     MDGPS.inv_pol_covar := inv_pol_covar |}.

(** [np.empty] arrays; every row inside the shape is assigned before it is
    read. *)
Definition empty_mats : nat -> mat := fun _ _ _ => 0.
Definition empty_vecs : nat -> vec := fun _ _ => 0.

(** [for t in ts: A[t] = body(t)]: the rows are assigned in order, and an
    exception leaves the loop. *)
Fixpoint fill {X : Type} (ts : list nat) (body : nat -> result X)
    (A : nat -> X) : result (nat -> X) :=
  match ts with
  | [] => Ok A
  | t :: rest =>
      v ← body t;
      fill rest body (fun t' => if Nat.eqb t' t then v else A t')
  end.

(** The rows [(k[t], PSig[t], cholPSig[t], inv_pol_covar[t])] are assigned
    together in the loop of lines 19-23. *)
Definition init_pol (hp : Hyperparams) : result MDGPS.LinearGaussianPolicy :=
  let '(dU, dX, T) := (dU hp, dX hp, T hp) in
  let K : nat -> mat := fun _ _ _ => 0 in
  rows ← fill (seq 0 T)
            (fun t =>
               let k_t := init_const hp in
               let PSig_t := init_var hp in
               cholPSig_t ← cholesky dU PSig_t;
               inv_pol_covar_t ← inv dU PSig_t;
               Ok (k_t, PSig_t, cholPSig_t, inv_pol_covar_t))
            (fun t => (empty_vecs t, empty_mats t, empty_mats t, empty_mats t));
  Ok (policy T dU dX K
        (fun t => (rows t).1.1.1) (fun t => (rows t).1.1.2)
        (fun t => (rows t).1.2) (fun t => (rows t).2)).

(** An array loaded from the controller file, with the length of its first
    axis. *)
Record Loaded (X : Type) : Type := {
  rows : nat;
  row : nat -> X
}.
Arguments rows {X} _.
Arguments row {X} _ _.

(** [data['K'][0]], [data['k'][0]] and [data['prc'][0]]. *)
Record ControllerFile : Type := {
  file_K : Loaded mat;
  file_k : Loaded vec;
  file_prc : Loaded mat
}.

(** [A[:-1] = value] on an array [A] with [T] rows: the slice has T-1 rows
    (none when T = 0) and [value] must have as many, or one row that is
    repeated. *)
Definition assign_head {X : Type} (A : nat -> X) (T : nat) (value : Loaded X)
  : result (nat -> X) :=
  if Nat.eqb (rows value) (T - 1) || Nat.eqb (rows value) 1 then
    Ok (fun t => if (t <? T - 1)%nat
                 then row value (if Nat.eqb (rows value) 1 then 0%nat else t)
                 else A t)
  else Raise (ValueError "could not broadcast input array").

(** [A[-1] = v] on an array [A] with [T] rows. *)
Definition assign_last {X : Type} (A : nat -> X) (T : nat) (v : X)
  : result (nat -> X) :=
  match T with
  | O => Raise NdArray.out_of_bounds
  | S n => Ok (fun t => if Nat.eqb t n then v else A t)
  end.

Definition init_pol_ctr (hp : Hyperparams) (data : ControllerFile)
  : result MDGPS.LinearGaussianPolicy :=
  let '(dU, dX, T) := (dU hp, dX hp, T hp) in
  K ← assign_head empty_mats T (file_K data);
  K ← assign_last K T (fun _ _ => 0);
  k ← assign_head empty_vecs T (file_k data);
  k ← assign_last k T (fun _ => 0);
  prc ← assign_head empty_mats T (file_prc data);
  prc ← assign_last prc T identity;
  covs ← fill (seq 0 T)
            (fun t =>
               PSig_t ← inv dU (prc t);
               cholPSig_t ← cholesky dU PSig_t;
               inv_pol_covar_t ← inv dU PSig_t;
               Ok (PSig_t, cholPSig_t, inv_pol_covar_t))
            (fun t => (empty_mats t, empty_mats t, empty_mats t));
  Ok (policy T dU dX K k
        (fun t => (covs t).1.1) (fun t => (covs t).1.2)
        (fun t => (covs t).2)).

End InitPolicy.

(** ** algorithm_mdgps.py: the training set of [_update_policy] *)

Module PolicyUpdate.
Import LinAlg.

(** [sample.get_X()], an array of shape (T, dO). *)
Definition Sample : Type := nat -> vec.

(** [l[i]] on a Python list or a SampleList. *)
Definition getitem {X : Type} (l : list X) (i : nat) : result X :=
  match l !! i with
  | Some x => Ok x
  | None => Raise (IndexError "list index out of range")
  end.

(** [for i in indices: out.append(body(i))]. *)
Fixpoint collect {B : Type} (indices : list nat) (body : nat -> result B)
  : result (list B) :=
  match indices with
  | [] => Ok []
  | i :: rest => b ← body i; bs ← collect rest body; Ok (b :: bs)
  end.

(** The slices [X[m]], [mu[m]], [K[m]], [k[m]], [prc[m]] of the arrays
    handed to [policy_opt.update]. *)
Record ConditionData : Type := {
  X : list Sample;                    (* (N, T, dO) *)
  mu : list (nat -> vec);             (* (N, T, dU) *)
  K : nat -> mat;
  k : nat -> vec;
  prc : nat -> mat
}.

(** Lines 83-110 of [_update_policy], with [cur] the sample lists
    [self.cur[m].sample_list] and [M = len(cur)]. *)
Definition training_set (dO : nat) (cur : list (list Sample))
    (new_traj_distr : list MDGPS.LinearGaussianPolicy)
  : result (list ConditionData) :=
  first ← getitem cur 0;
  let N := length first in
  collect (seq 0 (length cur)) (fun m =>
    samples ← getitem cur m;
    traj ← getitem new_traj_distr m;
    rows ← collect (seq 0 N) (fun n =>
      s ← getitem samples n;
      Ok (s, fun t i => dotv dO (MDGPS.K traj t) (s t) i + MDGPS.k traj t i));
    Ok {| X := map fst rows; mu := map snd rows;
          K := MDGPS.K traj; k := MDGPS.k traj;
          prc := MDGPS.inv_pol_covar traj |}).

End PolicyUpdate.

(** ** gps_policy.py and mu_policy.py: the numeric parts *)

Module PolicyOpt.
Import LinAlg.

(** [np.diag(v)] of a vector and [np.trace] of a (dU, dU) matrix. *)
Definition np_diag : vec -> mat := CostAction.np_diag.
Definition trace (dU : nat) (P : mat) : R := rsum dU (fun i => P i i).

(** [prob]: the covariance, precision and determinant it reports for every
    sample and timestep ([np.tile] repeats one value), next to the network
    output; the network is a collaborator that maps each state row to an
    action row. *)
Definition prob (dU : nat) (action_out : vec -> vec) (var : vec)
    (X : nat -> nat -> vec)
  : (nat -> nat -> vec) * (nat -> nat -> mat) * (nat -> nat -> mat) *
    (nat -> nat -> R) :=
  let action n t := action_out (X n t) in
  let pol_sigma (_ _ : nat) := np_diag var in
  let pol_prec (_ _ : nat) := np_diag (fun i => 1 / var i) in
  let pol_det_sigma (_ _ : nat) :=
    fold_right Rmult 1 (map var (seq 0 dU)) in
  (action, pol_sigma, pol_prec, pol_det_sigma).



(** [np.reshape(np.repeat(prc[:, None, :-1], N, axis=1), (N_train, dU, dU))]
    for [prc] of shape (M, T, dU, dU): row r = (m*N + n)*(T-1) + t holds
    [prc[m, t]]. *)
Definition repeat_flat (N T : nat) (prc : nat -> nat -> mat) : nat -> mat :=
  fun r => prc (r / (N * (T - 1)))%nat (r mod (T - 1))%nat.

(** [prc * (target / np.mean(np.trace(prc, axis1=-2, axis2=-1)))] for [prc]
    of shape (n, dU, dU). *)
Definition mean_trace (n dU : nat) (prc : nat -> mat) : R :=
  rsum n (fun r => trace dU (prc r)) / INR n.
Definition normalize (target : R) (n dU : nat) (prc : nat -> mat)
  : nat -> mat :=
  fun r i j => prc r i j * (target / mean_trace n dU prc).

(** [int(n / batch_size)] and the assertion that follows it; the quotient
    of the two integers is exact below 2^53. *)
Inductive BatchCheck : Type :=
| Batches (per_epoch : Z)
| ZeroDivisionError
| AssertionError.

Definition batches_per_epoch (n batch_size : Z) : BatchCheck :=
  if (batch_size =? 0)%Z then ZeroDivisionError
  else
    let per_epoch := (n ÷ batch_size)%Z in
    if (per_epoch * batch_size =? n)%Z then Batches per_epoch
    else AssertionError.

Module GPS.

(** [N_train = M * N * (T - 1)]. *)
Definition N_train (M N T : Z) : Z := (M * N * (T - 1))%Z.

Definition normalized (M N T dU : nat) (prc : nat -> nat -> mat) : nat -> mat :=
  normalize (INR dU) (M * N * (T - 1)) dU (repeat_flat N T prc).

(** Lines 148-151: the new [var] and [chol_pol_covar], from the normalized
    precisions [prc] of shape (N_train, dU, dU). *)
Definition optimize_variance (N_train N T : nat) (ent_reg : R)
    (prc : nat -> mat) : vec * mat :=
  let A : mat := fun i j =>
    (rsum N_train (fun r => prc r i j) + 2 * INR N * INR T * ent_reg * 1) /
    INR N_train in
  let var : vec := fun i => 1 / A i i in
  (var, np_diag (fun i => sqrt (var i))).

End GPS.

Module MU.

(** [N_ctr = M * (T - 1)]. *)
Definition N_ctr (M T : Z) : Z := (M * (T - 1))%Z.

(** [prc[:, :-1].reshape(N_ctr, dU, dU)]: row r = m*(T-1) + t. *)
Definition flat (T : nat) (prc : nat -> nat -> mat) : nat -> mat :=
  fun r => prc (r / (T - 1))%nat (r mod (T - 1))%nat.

Definition normalized (M T dU : nat) (prc : nat -> nat -> mat) : nat -> mat :=
  normalize (10 * INR dU) (M * (T - 1)) dU (flat T prc).

(** Lines 271-274. *)
Definition optimize_variance (N_ctr N T : nat) (ent_reg : R)
    (prc : nat -> mat) : vec * mat :=
  let A : mat := fun i j =>
    rsum N_ctr (fun r => prc r i j) / INR N_ctr +
    2 * INR N * INR T * ent_reg * 1 in
  let var : vec := fun i => 1 / A i i in
  (var, np_diag (fun i => sqrt (var i))).

Section Latent.
Context {A : Type} `{Arith A}.
Local Open Scope np_scope.

(** [tf.reduce_mean] over an axis of length [n]. *)
Definition reduce_mean (n : nat) (f : nat -> A) : A :=
  np_sum n f / lit (INR n).

(** [tf_cov(x)] for [x] of shape (n, d). *)
Definition tf_cov (n : nat) (x : nat -> nat -> A) : nat -> nat -> A :=
  let mean_x j := reduce_mean n (fun r => x r j) in
  let mx i j := mean_x i * mean_x j in
  let vx i j := np_sum n (fun r => x r i * x r j) / lit (INR n) in
  fun i j => vx i j - mx i j.

(** Lines 168-171: [loss_latent] of a latent batch of shape (n, dZ). *)
Definition loss_latent (n dZ : nat) (latent : nat -> nat -> A) : A :=
  let latent_std j := np_sqrt (tf_cov n latent j j) in
  reduce_mean dZ (fun j =>
    latent_std j + pow2 (reduce_mean n (fun r => latent r j)) - lit 1 -
    np_log (latent_std j)) / lit 2.

End Latent.

End MU.

End PolicyOpt.

(** * Properties *)

(** ** The ramp schedule *)

Section RampFacts.
Import NdArray CostUtils.

Lemma norm_index_last (n : nat) :
  (1 <= n)%nat -> norm_index n (-1) = Some (n - 1)%nat.
Proof.
  intros Hn. unfold norm_index.
  replace (- Z.of_nat n <=? -1)%Z with true by (symmetry; apply Z.leb_le; lia).
  replace (-1 <? Z.of_nat n)%Z with true by (symmetry; apply Z.ltb_lt; lia).
  simpl. f_equal. lia.
Qed.

Lemma norm_index_pred (n : nat) :
  (1 <= n)%nat -> norm_index n (Z.of_nat n - 1) = Some (n - 1)%nat.
Proof.
  intros Hn. unfold norm_index.
  replace (- Z.of_nat n <=? Z.of_nat n - 1)%Z with true
    by (symmetry; apply Z.leb_le; lia).
  replace (Z.of_nat n - 1 <? Z.of_nat n)%Z with true
    by (symmetry; apply Z.ltb_lt; lia).
  replace (Z.of_nat n - 1 <? 0)%Z with false
    by (symmetry; apply Z.ltb_ge; lia).
  simpl. f_equal. lia.
Qed.

Lemma norm_index_empty (i : Z) : norm_index 0 i = None.
Proof. destruct i; reflexivity. Qed.

(** Line 34 on a non-empty array rescales its last entry and nothing else. *)
Lemma scale_last_nonempty (wpm : list R) (w x : R) :
  wpm !! (length wpm - 1)%nat = Some x ->
  scale_last wpm w = Ok (<[(length wpm - 1)%nat := x * w]> wpm).
Proof.
  intros Hx. pose proof (lookup_lt_Some _ _ _ Hx) as Hlen.
  unfold scale_last, getitem, setitem.
  rewrite norm_index_last by lia. rewrite Hx. reflexivity.
Qed.

(** Line 34 on an empty array raises. *)
Lemma scale_last_empty (w : R) : scale_last [] w = Raise out_of_bounds.
Proof. reflexivity. Qed.

Lemma length_arange (T : nat) : length (arange T) = T.
Proof. unfold arange. rewrite length_map, length_seq. reflexivity. Qed.

Lemma lookup_arange (T t : nat) :
  (t < T)%nat -> arange T !! t = Some (INR t).
Proof.
  intros Ht. unfold arange. rewrite list_lookup_fmap.
  rewrite lookup_seq_lt by assumption. reflexivity.
Qed.

(** The array of lines 23-33 has one entry per step. *)
Lemma ramp_base_known (ramp_option : Z) (T : nat) :
  known_ramp ramp_option -> (1 <= T)%nat ->
  exists base, ramp_base ramp_option T = Ok base /\ length base = T.
Proof.
  intros [-> | [-> | [-> | ->]]] HT; unfold ramp_base; simpl.
  - exists (ones T). split; [reflexivity | apply length_replicate].
  - eexists. split; [reflexivity |]. rewrite length_map. apply length_arange.
  - eexists. split; [reflexivity |]. rewrite length_map. apply length_arange.
  - unfold setitem, zeros. rewrite length_replicate, norm_index_pred by lia.
    eexists. split; [reflexivity |].
    rewrite length_insert. apply length_replicate.
Qed.

Lemma ramp_base_unknown (ramp_option : Z) (T : nat) :
  ~ known_ramp ramp_option ->
  ramp_base ramp_option T = Raise (ValueError "Unknown cost ramp requested!").
Proof.
  intros Hk. unfold ramp_base.
  destruct (Z.eqb_spec ramp_option RAMP_CONSTANT) as [E | _];
    [exfalso; apply Hk; left; exact E |].
  destruct (Z.eqb_spec ramp_option RAMP_LINEAR) as [E | _];
    [exfalso; apply Hk; right; left; exact E |].
  destruct (Z.eqb_spec ramp_option RAMP_QUADRATIC) as [E | _];
    [exfalso; apply Hk; right; right; left; exact E |].
  destruct (Z.eqb_spec ramp_option RAMP_FINAL_ONLY) as [E | _];
    [exfalso; apply Hk; right; right; right; exact E |].
  reflexivity.
Qed.

Lemma known_ramp_7 : ~ known_ramp 7.
Proof. intros [H | [H | [H | H]]]; discriminate H. Qed.

(** C9.  A ramp option other than the four defined modes makes
    [get_ramp_multiplier] raise ValueError ('Unknown cost ramp requested!'),
    whatever the horizon and the final multiplier; for each of the four
    defined modes and every horizon of at least one step it returns an
    array with one weight per step. *)
Theorem get_ramp_multiplier_dispatch :
  (forall (ramp_option : Z) (T : nat) (w : R),
      ~ known_ramp ramp_option ->
      get_ramp_multiplier ramp_option T w =
      Raise (ValueError "Unknown cost ramp requested!")) /\
  (forall (ramp_option : Z) (T : nat) (w : R),
      known_ramp ramp_option -> (1 <= T)%nat ->
      exists wpm, get_ramp_multiplier ramp_option T w = Ok wpm /\
                  length wpm = T).
Proof.
  split.
  - intros ramp_option T w Hk. unfold get_ramp_multiplier.
    rewrite ramp_base_unknown by assumption. reflexivity.
  - intros ramp_option T w Hk HT.
    destruct (ramp_base_known ramp_option T Hk HT) as (base & Hbase & Hlen).
    unfold get_ramp_multiplier. rewrite Hbase. simpl.
    destruct (lookup_lt_is_Some_2 base (length base - 1)%nat) as [x Hx];
      [lia |].
    rewrite (scale_last_nonempty base w x Hx).
    eexists. split; [reflexivity |]. rewrite length_insert. exact Hlen.
Qed.

Lemma get_ramp_multiplier_dispatch_witness :
  get_ramp_multiplier 7 3 2 =
    Raise (ValueError "Unknown cost ramp requested!") /\
  exists wpm, get_ramp_multiplier RAMP_LINEAR 3 2 = Ok wpm /\
              length wpm = 3%nat.
Proof.
  destruct get_ramp_multiplier_dispatch as [Hunknown Hknown]. split.
  - apply Hunknown. exact known_ramp_7.
  - apply Hknown; [right; left; reflexivity | lia].
Defined.

(** With a final multiplier other than 1 the constant ramp is not uniform:
    for T = 2 and wp_final_multiplier = 3 the weights are [1; 3]. *)
Lemma ramp_constant_not_uniform :
  exists wpm, get_ramp_multiplier RAMP_CONSTANT 2 3 = Ok wpm /\
              wpm !! 1%nat = Some 3 /\ wpm <> [1; 1].
Proof.
  exists [1; 1 * 3]. split; [reflexivity |]. split.
  - simpl. f_equal. lra.
  - intros E. injection E as E. lra.
Qed.

Lemma linear_last (T : nat) :
  (1 <= T)%nat -> (INR (T - 1) + 1) / INR T = 1.
Proof.
  intros HT. rewrite minus_INR by lia. simpl.
  assert (INR T <> 0) by (apply not_0_INR; lia). field. assumption.
Qed.

(** C3 (amended).  For every horizon T >= 1 and every wp_final_multiplier:
    RAMP_CONSTANT gives weight 1 to every step but the last, and
    RAMP_FINAL_ONLY gives weight 0 to every step but the last; in both the
    last weight equals wp_final_multiplier (so the constant ramp is uniform
    exactly when the multiplier is 1); with RAMP_LINEAR the weight of step
    T-1 is 1 before the final multiplier is applied and wp_final_multiplier
    after. *)
Theorem ramp_weights (T : nat) (w : R) :
  (1 <= T)%nat ->
  (exists wpm, get_ramp_multiplier RAMP_CONSTANT T w = Ok wpm /\
     length wpm = T /\
     (forall t, (t < T - 1)%nat -> wpm !! t = Some 1) /\
     wpm !! (T - 1)%nat = Some w /\
     (w = 1 -> wpm = replicate T 1)) /\
  (exists wpm, get_ramp_multiplier RAMP_FINAL_ONLY T w = Ok wpm /\
     length wpm = T /\
     (forall t, (t < T - 1)%nat -> wpm !! t = Some 0) /\
     wpm !! (T - 1)%nat = Some w) /\
  (exists base wpm, ramp_base RAMP_LINEAR T = Ok base /\
     base !! (T - 1)%nat = Some 1 /\
     get_ramp_multiplier RAMP_LINEAR T w = Ok wpm /\
     wpm !! (T - 1)%nat = Some w).
Proof.
  intros HT. repeat split.
  - assert (Hx : ones T !! (length (ones T) - 1)%nat = Some 1).
    { unfold ones. rewrite length_replicate. apply lookup_replicate_2. lia. }
    exists (<[(T - 1)%nat := 1 * w]> (ones T)).
    unfold get_ramp_multiplier. simpl.
    rewrite (scale_last_nonempty _ w 1 Hx).
    unfold ones in *. rewrite length_replicate. repeat split.
    + rewrite length_insert. apply length_replicate.
    + intros t Ht. rewrite list_lookup_insert_ne by lia.
      apply lookup_replicate_2. lia.
    + rewrite list_lookup_insert_eq by (rewrite length_replicate; lia).
      f_equal. lra.
    + intros ->. replace (1 * 1) with 1 by lra.
      apply list_insert_id. apply lookup_replicate_2. lia.
  - set (base := <[(T - 1)%nat := 1]> (zeros T)).
    assert (Hbase : ramp_base RAMP_FINAL_ONLY T = Ok base).
    { unfold ramp_base, setitem, zeros. simpl.
      rewrite length_replicate, norm_index_pred by lia. reflexivity. }
    assert (Hlen : length base = T).
    { unfold base, zeros. rewrite length_insert. apply length_replicate. }
    assert (Hx : base !! (length base - 1)%nat = Some 1).
    { rewrite Hlen. unfold base, zeros. apply list_lookup_insert_eq.
      rewrite length_replicate. lia. }
    exists (<[(T - 1)%nat := 1 * w]> base).
    unfold get_ramp_multiplier. rewrite Hbase. simpl.
    rewrite (scale_last_nonempty _ w 1 Hx), Hlen. repeat split.
    + rewrite length_insert. exact Hlen.
    + intros t Ht. rewrite list_lookup_insert_ne by lia.
      unfold base, zeros. rewrite list_lookup_insert_ne by lia.
      apply lookup_replicate_2. lia.
    + rewrite list_lookup_insert_eq by lia. f_equal. lra.
  - set (base := map (fun x => (x + 1) / INR T) (arange T)).
    assert (Hlen : length base = T).
    { unfold base. rewrite length_map. apply length_arange. }
    assert (Hlast : base !! (T - 1)%nat = Some 1).
    { unfold base. rewrite list_lookup_fmap, lookup_arange by lia.
      simpl. f_equal. apply linear_last. exact HT. }
    exists base, (<[(T - 1)%nat := 1 * w]> base).
    assert (Hx : base !! (length base - 1)%nat = Some 1)
      by (rewrite Hlen; exact Hlast).
    unfold get_ramp_multiplier.
    change (ramp_base RAMP_LINEAR T) with (Ok base). simpl.
    rewrite (scale_last_nonempty _ w 1 Hx), Hlen. repeat split.
    + exact Hlast.
    + rewrite list_lookup_insert_eq by lia. f_equal. lra.
Qed.

Lemma ramp_weights_witness :
  exists wpm, get_ramp_multiplier RAMP_FINAL_ONLY 4 5 = Ok wpm /\
    wpm !! 0%nat = Some 0 /\ wpm !! 3%nat = Some 5.
Proof.
  destruct (ramp_weights 4 5) as (_ & (wpm & Hrun & _ & Hzero & Hlast) & _);
    [lia |].
  exists wpm. split; [exact Hrun |]. split; [apply Hzero; lia | exact Hlast].
Defined.

End RampFacts.

(** ** Sums in exact arithmetic *)

Section SumFacts.
Import LinAlg.

Lemma rsum_S (n : nat) (f : nat -> R) : rsum (S n) f = rsum n f + f n.
Proof. reflexivity. Qed.

Lemma rsum_ext (n : nat) (f g : nat -> R) :
  (forall i, (i < n)%nat -> f i = g i) -> rsum n f = rsum n g.
Proof.
  induction n as [| n IH]; intros Hfg; [reflexivity |].
  rewrite !rsum_S, IH, (Hfg n) by (intros; try apply Hfg; lia).
  reflexivity.
Qed.

Lemma rsum_zero (n : nat) (f : nat -> R) :
  (forall i, (i < n)%nat -> f i = 0) -> rsum n f = 0.
Proof.
  induction n as [| n IH]; intros Hf; [reflexivity |].
  rewrite rsum_S, IH, (Hf n) by (intros; try apply Hf; lia). lra.
Qed.

Lemma rsum_plus (n : nat) (f g : nat -> R) :
  rsum n (fun i => f i + g i) = rsum n f + rsum n g.
Proof.
  induction n as [| n IH]; [simpl; unfold rsum; simpl; lra |].
  rewrite !rsum_S, IH. lra.
Qed.

Lemma rsum_scal_l (n : nat) (c : R) (f : nat -> R) :
  rsum n (fun i => c * f i) = c * rsum n f.
Proof.
  induction n as [| n IH]; [unfold rsum; simpl; lra |].
  rewrite !rsum_S, IH. lra.
Qed.

Lemma rsum_scal_r (n : nat) (c : R) (f : nat -> R) :
  rsum n (fun i => f i * c) = rsum n f * c.
Proof.
  induction n as [| n IH]; [unfold rsum; simpl; lra |].
  rewrite !rsum_S, IH. lra.
Qed.

(** The two orders of a double sum. *)
Lemma rsum_swap (n m : nat) (f : nat -> nat -> R) :
  rsum n (fun j => rsum m (fun i => f i j)) =
  rsum m (fun i => rsum n (fun j => f i j)).
Proof.
  induction n as [| n IH].
  - symmetry. apply rsum_zero. reflexivity.
  - rewrite rsum_S, IH, <- rsum_plus. apply rsum_ext. intros i _.
    rewrite rsum_S. reflexivity.
Qed.

(** A sum against the identity matrix picks one term. *)
Lemma rsum_eye_l (n i : nat) (f : nat -> R) :
  (i < n)%nat -> rsum n (fun k => identity i k * f k) = f i.
Proof.
  induction n as [| n IH]; intros Hi; [lia |].
  rewrite rsum_S. unfold identity, eye in *.
  destruct (Nat.eq_dec i n) as [-> | Hne].
  - rewrite Nat.eqb_refl. rewrite rsum_zero.
    + simpl. lra.
    + intros k Hk. replace (n =? k)%nat with false
        by (symmetry; apply Nat.eqb_neq; lia). simpl. lra.
  - rewrite IH by lia.
    replace (i =? n)%nat with false by (symmetry; apply Nat.eqb_neq; lia).
    simpl. lra.
Qed.

Lemma rsum_eye_r (n j : nat) (f : nat -> R) :
  (j < n)%nat -> rsum n (fun k => f k * identity k j) = f j.
Proof.
  intros Hj. rewrite <- (rsum_eye_l n j f Hj). apply rsum_ext.
  intros k _. unfold identity, eye. rewrite (Nat.eqb_sym k j). simpl. lra.
Qed.

End SumFacts.

(** ** The Hessians of the penalty shapes *)

Section HessianFacts.
Import LinAlg CostUtils.

Variable D : nat.

Lemma eye_sym (i j : nat) : eye (A := R) i j = eye j i.
Proof. unfold eye. rewrite Nat.eqb_sym. reflexivity. Qed.

End HessianFacts.

(** ** Checked arithmetic *)

Section CheckedFacts.
Import LinAlg.

Implicit Types x y : option R.

Lemma ck_add x y a b :
  x = Some a -> y = Some b -> (x + y)%np = Some (a + b).
Proof. intros -> ->. reflexivity. Qed.

Lemma ck_sub x y a b :
  x = Some a -> y = Some b -> (x - y)%np = Some (a - b).
Proof. intros -> ->. reflexivity. Qed.

Lemma ck_mul x y a b :
  x = Some a -> y = Some b -> (x * y)%np = Some (a * b).
Proof. intros -> ->. reflexivity. Qed.

Lemma ck_neg x a : x = Some a -> (- x)%np = Some (- a).
Proof. intros ->. reflexivity. Qed.

Lemma ck_div x y a b :
  x = Some a -> y = Some b -> b <> 0 -> (x / y)%np = Some (a / b).
Proof.
  intros -> -> Hb. simpl. destruct (Req_dec_T b 0); [contradiction | reflexivity].
Qed.

Lemma ck_sqrt x a : x = Some a -> 0 <= a -> np_sqrt x = Some (sqrt a).
Proof. intros -> Ha. simpl. destruct (Rlt_dec a 0); [lra | reflexivity]. Qed.

Lemma ck_log x a : x = Some a -> 0 < a -> np_log x = Some (ln a).
Proof. intros -> Ha. simpl. destruct (Rlt_dec 0 a); [reflexivity | lra]. Qed.

Lemma ck_exp x a : x = Some a -> np_exp x = Some (exp a).
Proof. intros ->. reflexivity. Qed.

Lemma ck_sign x a : x = Some a -> np_sign x = Some (Rsign a).
Proof. intros ->. reflexivity. Qed.

Lemma ck_clip x a lo hi : x = Some a -> np_clip x lo hi = Some (Rclip a lo hi).
Proof. intros ->. reflexivity. Qed.

Lemma ck_pow2 x a : x = Some a -> pow2 x = Some (a * a).
Proof. intros ->. reflexivity. Qed.

Lemma ck_sum (n : nat) (f : nat -> option R) (g : nat -> R) :
  (forall i, (i < n)%nat -> f i = Some (g i)) ->
  np_sum n f = Some (rsum n g).
Proof.
  induction n as [| n IH]; intros Hfg; [reflexivity |].
  simpl. rewrite IH, (Hfg n) by (intros; try apply Hfg; lia). reflexivity.
Qed.


End CheckedFacts.


(** ** The Hessians of the penalty shapes are symmetric *)

Section CheckedAlgebra.
Import LinAlg.

Implicit Types x y z w : option R.









End CheckedAlgebra.

Section HessianSymmetry.
Import LinAlg CostUtils.

Variable D : nat.




End HessianSymmetry.


Section ZeroResidual.
Import LinAlg CostUtils.

Variable D : nat.

Lemma Rclip_inactive (x : R) : 0 <= x <= 1 -> Rclip x 0 1 = x.
Proof.
  intros [H0 H1]. unfold Rclip. rewrite Rmax_left, Rmin_left; lra.
Qed.

Lemma rsum_const (n : nat) (c : R) : rsum n (fun _ => c) = INR n * c.
Proof.
  induction n as [| n IH]; [unfold rsum; simpl; lra |].
  rewrite rsum_S, IH, S_INR. lra.
Qed.






End ZeroResidual.



(** ** The two arithmetics agree

    Whatever finite value the checked arithmetic returns is the value of the
    exact arithmetic. *)

Section Agreement.
Import LinAlg CostUtils.

Implicit Types x y : option R.

Lemma ag_finite (r : R) : agrees (Some r) r.
Proof. intros v E. injection E as <-. reflexivity. Qed.

Lemma ag_lit (r : R) : agrees (lit r) (lit r).
Proof. apply ag_finite. Qed.

Lemma ag_lift1 (f : R -> R) x r : agrees x r -> agrees (lift1 f x) (f r).
Proof.
  intros Hx v. destruct x as [a |]; simpl; [| discriminate].
  intros E. injection E as <-. rewrite (Hx a eq_refl). reflexivity.
Qed.

Lemma ag_lift2 (f : R -> R -> R) x y r1 r2 :
  agrees x r1 -> agrees y r2 -> agrees (lift2 f x y) (f r1 r2).
Proof.
  intros Hx Hy v. destruct x as [a |], y as [b |]; simpl; try discriminate.
  intros E. injection E as <-.
  rewrite (Hx a eq_refl), (Hy b eq_refl). reflexivity.
Qed.

Lemma ag_add x y r1 r2 :
  agrees x r1 -> agrees y r2 -> agrees (x + y)%np (r1 + r2)%np.
Proof. apply (ag_lift2 Rplus). Qed.

Lemma ag_sub x y r1 r2 :
  agrees x r1 -> agrees y r2 -> agrees (x - y)%np (r1 - r2)%np.
Proof. apply (ag_lift2 Rminus). Qed.

Lemma ag_mul x y r1 r2 :
  agrees x r1 -> agrees y r2 -> agrees (x * y)%np (r1 * r2)%np.
Proof. apply (ag_lift2 Rmult). Qed.

Lemma ag_neg x r : agrees x r -> agrees (- x)%np (- r)%np.
Proof. apply (ag_lift1 Ropp). Qed.

Lemma ag_div x y r1 r2 :
  agrees x r1 -> agrees y r2 -> agrees (x / y)%np (r1 / r2)%np.
Proof.
  intros Hx Hy v. destruct x as [a |], y as [b |]; simpl; try discriminate.
  destruct (Req_dec_T b 0); [discriminate |].
  intros E. injection E as <-.
  rewrite (Hx a eq_refl), (Hy b eq_refl). reflexivity.
Qed.

Lemma ag_sqrt x r : agrees x r -> agrees (np_sqrt x) (np_sqrt r).
Proof.
  intros Hx v. destruct x as [a |]; simpl; [| discriminate].
  destruct (Rlt_dec a 0); [discriminate |].
  intros E. injection E as <-. rewrite (Hx a eq_refl). reflexivity.
Qed.

Lemma ag_log x r : agrees x r -> agrees (np_log x) (np_log r).
Proof.
  intros Hx v. destruct x as [a |]; simpl; [| discriminate].
  destruct (Rlt_dec 0 a); [| discriminate].
  intros E. injection E as <-. rewrite (Hx a eq_refl). reflexivity.
Qed.

Lemma ag_exp x r : agrees x r -> agrees (np_exp x) (np_exp r).
Proof. apply (ag_lift1 exp). Qed.

Lemma ag_sign x r : agrees x r -> agrees (np_sign x) (np_sign r).
Proof. apply (ag_lift1 Rsign). Qed.

Lemma ag_clip x r (lo hi : R) :
  agrees x r -> agrees (np_clip x lo hi) (np_clip r lo hi).
Proof. apply (ag_lift1 (fun a => Rclip a lo hi)). Qed.

Lemma ag_pow2 x r : agrees x r -> agrees (pow2 x) (pow2 r).
Proof. intros Hx. apply ag_mul; exact Hx. Qed.

Lemma ag_pow3 x r : agrees x r -> agrees (pow3 x) (pow3 r).
Proof. intros Hx. repeat apply ag_mul; exact Hx. Qed.

Lemma ag_eye (i j : nat) : agrees (eye i j) (eye i j).
Proof. unfold eye. destruct (Nat.eqb i j); apply ag_finite. Qed.

Lemma ag_sum (n : nat) (f : nat -> option R) (g : nat -> R) :
  (forall i, agrees (f i) (g i)) -> agrees (np_sum n f) (np_sum n g).
Proof.
  intros Hfg. induction n as [| n IH]; [apply ag_finite |].
  simpl. apply ag_lift2; [exact IH | apply Hfg].
Qed.

End Agreement.

Ltac agree :=
  lazymatch goal with
  | |- agrees (Some _) _ => apply ag_finite
  | |- agrees (@lit _ checked _) _ => apply ag_lit
  | |- agrees (@eye _ checked _ _) _ => apply ag_eye
  | |- agrees (@add _ checked _ _) _ => apply ag_add; agree
  | |- agrees (@sub _ checked _ _) _ => apply ag_sub; agree
  | |- agrees (@mul _ checked _ _) _ => apply ag_mul; agree
  | |- agrees (@div _ checked _ _) _ => apply ag_div; agree
  | |- agrees (@neg _ checked _) _ => apply ag_neg; agree
  | |- agrees (@np_sqrt _ checked _) _ => apply ag_sqrt; agree
  | |- agrees (@np_log _ checked _) _ => apply ag_log; agree
  | |- agrees (@np_exp _ checked _) _ => apply ag_exp; agree
  | |- agrees (@np_sign _ checked _) _ => apply ag_sign; agree
  | |- agrees (@np_clip _ checked _ _ _) _ => apply ag_clip; agree
  | |- agrees (@pow2 _ checked _) _ => apply ag_pow2; agree
  | |- agrees (@pow3 _ checked _) _ => apply ag_pow3; agree
  | |- agrees (@np_sum _ checked _ _) _ => apply ag_sum; intros ?; agree
  end.

Section ShapesAgree.
Import LinAlg CostUtils.

Variable D : nat.
Variables (wp d : nat -> nat -> R) (Jd : nat -> nat -> nat -> R)
  (Jdd : nat -> nat -> nat -> nat -> R).

(** On finite inputs every finite entry the penalty shapes return in checked
    arithmetic is the entry they return in exact arithmetic. *)
Lemma checked_refines_exact (l1 l2 alpha : R) :
  agree3 (evall1l2term D (finite2 wp) (finite2 d) (finite3 Jd) (finite4 Jdd)
            (Some l1) (Some l2) (Some alpha))
         (evall1l2term D wp d Jd Jdd l1 l2 alpha) /\
  agree3 (evallogl2term D (finite2 wp) (finite2 d) (finite3 Jd) (finite4 Jdd)
            (Some l1) (Some l2) (Some alpha))
         (evallogl2term D wp d Jd Jdd l1 l2 alpha) /\
  agree3 (evalasymetric D (finite2 wp) (finite2 d) (finite3 Jd) (finite4 Jdd)
            (Some alpha))
         (evalasymetric D wp d Jd Jdd alpha) /\
  agree3 (evalexp D (finite2 wp) (finite2 d) (finite3 Jd) (finite4 Jdd))
         (evalexp D wp d Jd Jdd).
Proof.
  repeat split;
    cbv beta iota zeta delta [evall1l2term evallogl2term evalasymetric
      evalexp second_order finite2 finite3 finite4]; agree.
Qed.

End ShapesAgree.

(** ** The gradient of the exponential penalty *)

Section ExpGradient.
Import LinAlg CostUtils.

(** C8.  Where the clip is inactive (exp(d*wp) < 1 for every dimension of
    the timestep) the gradient [evalexp] returns is the negative of the
    chain-rule derivative of the documented loss e^(wp*d):
    lx[t] = - sum over i of Jd[t,i,:] * wp[t,i] * exp(d[t,i]*wp[t,i]). *)
Theorem evalexp_gradient_negated (D : nat) (wp d : arr2 R) (Jd : arr3 R)
    (Jdd : arr4 R) (t a : nat) :
  (forall i, (i < D)%nat -> exp (d t i * wp t i) < 1) ->
  let '(_, lx, _) := evalexp D wp d Jd Jdd in
  lx t a = - rsum D (fun i => Jd t i a * wp t i * exp (d t i * wp t i)).
Proof.
  intros Hclip. cbv beta iota zeta delta [evalexp]. simpl.
  change (@np_sum R exact) with rsum.
  replace (- rsum D (fun i => Jd t i a * wp t i * exp (d t i * wp t i)))
    with (-1 * rsum D (fun i => Jd t i a * wp t i * exp (d t i * wp t i)))
    by lra.
  rewrite <- rsum_scal_l. apply rsum_ext. intros i Hi.
  rewrite Rclip_inactive.
  - ring.
  - pose proof (exp_pos (d t i * wp t i)). pose proof (Hclip i Hi). lra.
Qed.

(** T = D = Dx = 1, wp = 1, d = -1, Jd = 1: the clip is inactive, the
    derivative of e^(wp*d) through Jd is exp(-1) > 0, and the returned
    gradient is -exp(-1). *)
Lemma evalexp_gradient_negated_witness :
  let '(_, lx, _) :=
    evalexp 1 (fun _ _ => 1) (fun _ _ => -1) (fun _ _ _ => 1)
      (fun _ _ _ _ => 0) in
  exp (-1 * 1) < 1 /\
  lx 0%nat 0%nat = - rsum 1 (fun _ => 1 * 1 * exp (-1 * 1)) /\
  lx 0%nat 0%nat <> 1 * 1 * exp (-1 * 1).
Proof.
  assert (Hlt : exp (-1 * 1) < 1).
  { pose proof (exp_increasing (-1 * 1) 0 ltac:(lra)) as Hinc.
    rewrite exp_0 in Hinc. exact Hinc. }
  pose proof (evalexp_gradient_negated 1 (fun _ _ => 1) (fun _ _ => -1)
                (fun _ _ _ => 1) (fun _ _ _ _ => 0) 0%nat 0%nat
                (fun _ _ => Hlt)) as Hlx.
  cbv beta iota zeta delta [evalexp] in *.
  split; [exact Hlt |]. split; [exact Hlx |].
  rewrite Hlx. unfold rsum. simpl.
  generalize (exp_pos (-1 * 1)). generalize (exp (-1 * 1)).
  intros e He. lra.
Defined.

End ExpGradient.

(** ** Matrix products, inverses and [solve] *)

Section MatrixFacts.
Import LinAlg.

Lemma mat_eq_refl (r c : nat) (X : mat) : mat_eq r c X X.
Proof. intros i j _ _. reflexivity. Qed.

Lemma mat_eq_sym (r c : nat) (X Y : mat) : mat_eq r c X Y -> mat_eq r c Y X.
Proof. intros H i j Hi Hj. symmetry. apply H; assumption. Qed.

Lemma mat_eq_trans (r c : nat) (X Y Z : mat) :
  mat_eq r c X Y -> mat_eq r c Y Z -> mat_eq r c X Z.
Proof. intros H1 H2 i j Hi Hj. rewrite H1, H2 by assumption. reflexivity. Qed.

Lemma dot_ext (r n c : nat) (X X' Y Y' : mat) :
  mat_eq r n X X' -> mat_eq n c Y Y' ->
  mat_eq r c (dot n X Y) (dot n X' Y').
Proof.
  intros HX HY i j Hi Hj. unfold dot. apply rsum_ext. intros k Hk.
  rewrite HX, HY by assumption. reflexivity.
Qed.

Lemma dotv_ext (r n : nat) (X X' : mat) (v v' : vec) :
  mat_eq r n X X' -> vec_eq n v v' ->
  vec_eq r (dotv n X v) (dotv n X' v').
Proof.
  intros HX Hv i Hi. unfold dotv. apply rsum_ext. intros k Hk.
  rewrite HX, Hv by assumption. reflexivity.
Qed.

Lemma dot_assoc (m n : nat) (X Y Z : mat) (i j : nat) :
  dot n (dot m X Y) Z i j = dot m X (dot n Y Z) i j.
Proof.
  unfold dot.
  rewrite (rsum_ext n _ (fun k => rsum m (fun l => X i l * Y l k * Z k j)))
    by (intros; rewrite <- rsum_scal_r; reflexivity).
  rewrite (rsum_swap n m (fun l k => X i l * Y l k * Z k j)).
  apply rsum_ext. intros l _. rewrite <- rsum_scal_l.
  apply rsum_ext. intros k _. ring.
Qed.

Lemma dot_identity_l (n c : nat) (X : mat) :
  mat_eq n c (dot n identity X) X.
Proof.
  intros i j Hi _. unfold dot. apply (rsum_eye_l n i (fun k => X k j)).
  exact Hi.
Qed.

Lemma dot_identity_r (r n : nat) (X : mat) :
  mat_eq r n (dot n X identity) X.
Proof.
  intros i j _ Hj. unfold dot. apply (rsum_eye_r n j (fun k => X i k)).
  exact Hj.
Qed.

Lemma transpose_dot (n : nat) (X Y : mat) (i j : nat) :
  transpose (dot n X Y) i j = dot n (transpose Y) (transpose X) i j.
Proof. unfold transpose, dot. apply rsum_ext. intros k _. ring. Qed.

Lemma transpose_identity (i j : nat) : transpose identity i j = identity i j.
Proof. unfold transpose, identity. apply eye_sym. Qed.

Lemma identity_inverse (n : nat) : inverse_of n identity identity.
Proof. split; apply dot_identity_l. Qed.

(** Cancelling an invertible factor on the left. *)
Lemma left_cancel (n m : nat) (X Xi Y Z : mat) :
  inverse_of n X Xi -> mat_eq n m (dot n X Y) Z ->
  mat_eq n m Y (dot n Xi Z).
Proof.
  intros [_ HiX] HXY i j Hi Hj.
  rewrite <- (dot_ext n n m Xi Xi _ _ (mat_eq_refl _ _ _) HXY i j Hi Hj).
  rewrite <- dot_assoc.
  rewrite (dot_ext n n m _ _ Y Y HiX (mat_eq_refl _ _ _) i j Hi Hj).
  symmetry. apply (dot_identity_l n m Y i j Hi Hj).
Qed.

Lemma inverse_unique (n : nat) (X Y Z : mat) :
  inverse_of n X Y -> inverse_of n X Z -> mat_eq n n Y Z.
Proof.
  intros HY [HZ _]. apply mat_eq_sym.
  apply (mat_eq_trans n n Z (dot n Y identity) Y).
  - exact (left_cancel n n X Y Z identity HY HZ).
  - apply dot_identity_r.
Qed.

Lemma transpose_inverse (n : nat) (X Xi : mat) :
  inverse_of n X Xi -> inverse_of n (transpose X) (transpose Xi).
Proof.
  intros [H1 H2]. split; intros i j Hi Hj;
    rewrite <- transpose_dot, <- transpose_identity; unfold transpose;
    [apply (H2 j i Hj Hi) | apply (H1 j i Hj Hi)].
Qed.

(** On an invertible matrix [solve] returns the product with the
    inverse. *)
Lemma solve_invertible (n m : nat) (a ai b : mat) :
  inverse_of n a ai -> mat_eq n m (solve n m a b) (dot n ai b).
Proof.
  intros Hinv. apply (left_cancel n m a ai); [exact Hinv |].
  unfold solve. apply epsilon_spec. exists (dot n ai b).
  intros i j Hi Hj. rewrite <- dot_assoc.
  destruct Hinv as [Hai _].
  rewrite (dot_ext n n m _ _ b b Hai (mat_eq_refl _ _ _) i j Hi Hj).
  apply (dot_identity_l n m b i j Hi Hj).
Qed.

(** Lines 248-250 compute the inverse of [chol.T.dot(chol)]. *)
Lemma inv_pol_S_inverse (du : nat) (chol S : mat) :
  invertible du chol ->
  mat_eq du du (dot du (transpose chol) chol) S ->
  inverse_of du S (MDGPS.inv_pol_S du chol).
Proof.
  intros [Li HLi] HS.
  pose proof (transpose_inverse du chol Li HLi) as HLti.
  assert (HX : mat_eq du du (MDGPS.inv_pol_S du chol)
                 (dot du Li (transpose Li))).
  { unfold MDGPS.inv_pol_S.
    eapply mat_eq_trans; [apply (solve_invertible du du chol Li); exact HLi |].
    apply dot_ext; [apply mat_eq_refl |].
    eapply mat_eq_trans;
      [apply (solve_invertible du du (transpose chol) (transpose Li));
       exact HLti |].
    apply dot_identity_r. }
  destruct HLi as [HLLi HLiL]. destruct HLti as [HLtLti HLtiLt].
  split.
  - eapply mat_eq_trans;
      [apply dot_ext; [apply mat_eq_sym; exact HS | exact HX] |].
    intros i j Hi Hj.
    rewrite dot_assoc.
    rewrite (dot_ext du du du _ _ _ (transpose Li)
               (mat_eq_refl _ _ (transpose chol))
               (fun i j Hi Hj =>
                  eq_trans (eq_sym (dot_assoc du du chol Li (transpose Li) i j))
                    (eq_trans
                       (dot_ext du du du _ _ _ _ HLLi (mat_eq_refl _ _ _) i j Hi Hj)
                       (dot_identity_l du du _ i j Hi Hj))) i j Hi Hj).
    apply (HLtLti i j Hi Hj).
  - eapply mat_eq_trans;
      [apply dot_ext; [exact HX | apply mat_eq_sym; exact HS] |].
    intros i j Hi Hj.
    rewrite dot_assoc.
    rewrite (dot_ext du du du _ _ _ chol
               (mat_eq_refl _ _ Li)
               (fun i j Hi Hj =>
                  eq_trans (eq_sym (dot_assoc du du (transpose Li) (transpose chol) chol i j))
                    (eq_trans
                       (dot_ext du du du _ _ _ _ HLtiLt (mat_eq_refl _ _ _) i j Hi Hj)
                       (dot_identity_l du du _ i j Hi Hj))) i j Hi Hj).
    apply (HLiL i j Hi Hj).
Qed.

End MatrixFacts.

(** ** Cost fusion *)

Section CostFusion.
Import LinAlg MDGPS Algorithm Scenarios.

Context {Dynamics : Type}.
Implicit Types (self : AlgorithmMDGPS Dynamics) (it : IterationData Dynamics).

Lemma PKLm_of_ext (dx du : nat) (KB X Y : mat) :
  mat_eq du du X Y ->
  mat_eq (dx + du) (dx + du) (PKLm_of dx du KB X) (PKLm_of dx du KB Y).
Proof.
  intros HXY i j Hi Hj. unfold PKLm_of, vstack, hstack, mopp.
  destruct (Nat.ltb_spec i dx), (Nat.ltb_spec j dx).
  - unfold dot. apply rsum_ext. intros k' Hk'. f_equal.
    apply rsum_ext. intros l Hl. rewrite HXY by assumption. reflexivity.
  - f_equal. unfold dot. apply rsum_ext. intros l Hl.
    rewrite HXY by (assumption || lia). reflexivity.
  - f_equal. unfold dot. apply rsum_ext. intros l Hl.
    rewrite HXY by (assumption || lia). reflexivity.
  - apply HXY; lia.
Qed.

Lemma PKLv_of_ext (dx du : nat) (KB X Y : mat) (kB : vec) :
  mat_eq du du X Y ->
  vec_eq (dx + du) (PKLv_of dx du KB X kB) (PKLv_of dx du KB Y kB).
Proof.
  intros HXY i Hi. unfold PKLv_of, concatenate, vopp, dotv.
  destruct (Nat.ltb_spec i dx).
  - apply rsum_ext. intros k' Hk'. f_equal. unfold dot.
    apply rsum_ext. intros l Hl. rewrite HXY by assumption. reflexivity.
  - f_equal. apply rsum_ext. intros l Hl.
    rewrite HXY by (assumption || lia). reflexivity.
Qed.

(** The block matrix and the stacked vector the code builds with
    [np.vstack], [np.hstack] and [np.concatenate] are the stated ones. *)
Lemma PKLm_of_stated (dx du : nat) (KB S : mat) :
  mat_eq (dx + du) (dx + du) (PKLm_of dx du KB S)
    (Stated.KL_matrix dx du KB S).
Proof.
  intros i j Hi Hj. unfold PKLm_of, Stated.KL_matrix, vstack, hstack, mopp.
  destruct (Nat.ltb_spec i dx), (Nat.ltb_spec j dx).
  - unfold dot, transpose.
    rewrite (rsum_ext du _
               (fun k => rsum du (fun l => KB l i * S l k * KB k j)))
      by (intros; rewrite <- rsum_scal_r; reflexivity).
    apply (rsum_swap du du (fun a b => KB a i * S a b * KB b j)).
  - reflexivity.
  - reflexivity.
  - reflexivity.
Qed.

Lemma PKLv_of_stated (dx du : nat) (KB S : mat) (kB : vec) :
  vec_eq (dx + du) (PKLv_of dx du KB S kB) (Stated.KL_vector dx du KB S kB).
Proof.
  intros i Hi. unfold PKLv_of, Stated.KL_vector, concatenate, vopp, dotv.
  destruct (Nat.ltb_spec i dx).
  - unfold dot, transpose.
    rewrite (rsum_ext du _
               (fun k => rsum du (fun l => KB l i * S l k * kB k)))
      by (intros; rewrite <- rsum_scal_r; reflexivity).
    apply (rsum_swap du du (fun a b => KB a i * S a b * kB b)).
  - reflexivity.
Qed.

(** C1.  For a condition m of [self.cur], a timestep t < T, eta > 0 and an
    invertible factor chol_pol_S[t] with chol_pol_S[t]^T * chol_pol_S[t] =
    pol_S[t], [compute_costs] returns
    fCm[t] = (Cm[t] + K_regularization * |K[t]|_inf * I + eta * PKLm[t]) / eta
    and fcv[t] = (cv[t] + eta * PKLv[t]) / eta, where PKLm[t] is the block
    matrix [[KB^T Sinv KB, -KB^T Sinv], [-Sinv KB, Sinv]] and PKLv[t] the
    stacked vector [KB^T Sinv kB, -Sinv kB], written out entry by entry in
    [Stated.KL_matrix] and [Stated.KL_vector], with KB = pol_K[t],
    kB = pol_k[t] and [Sinv] the inverse of pol_S[t]. *)
Theorem compute_costs_formula self (m : nat) (eta : R) it (t : nat)
    (Sinv : mat) :
  let pol := traj_distr it in
  let info := pol_info it in
  cur self !! m = Some it ->
  0 < eta ->
  (t < T pol)%nat ->
  invertible (dU pol) (chol_pol_S info t) ->
  mat_eq (dU pol) (dU pol)
    (dot (dU pol) (transpose (chol_pol_S info t)) (chol_pol_S info t))
    (pol_S info t) ->
  inverse_of (dU pol) (pol_S info t) Sinv ->
  exists fCm fcv,
    compute_costs self m eta = Ok (fCm, fcv) /\
    mat_eq (dX pol + dU pol) (dX pol + dU pol) (fCm t)
      (fun i j =>
         (Cm (traj_info it) t i j +
          K_regularization self * norm_inf (dU pol) (dX pol) (K pol t) *
          identity i j +
          eta * Stated.KL_matrix (dX pol) (dU pol) (pol_K info t) Sinv i j) /
         eta) /\
    vec_eq (dX pol + dU pol) (fcv t)
      (fun i =>
         (cv (traj_info it) t i +
          eta * Stated.KL_vector (dX pol) (dU pol) (pol_K info t) Sinv
                  (pol_k info t) i) / eta).
Proof.
  intros pol info Hm Heta Ht Hinv Hchol HSinv.
  assert (HX : mat_eq (dU pol) (dU pol)
                 (inv_pol_S (dU pol) (chol_pol_S info t)) Sinv).
  { apply (inverse_unique _ (pol_S info t)); [| exact HSinv].
    apply inv_pol_S_inverse; assumption. }
  unfold compute_costs, cur_at. rewrite Hm. simpl.
  eexists _, _. split; [reflexivity |].
  fold pol info.
  split.
  - intros i j Hi Hj.
    rewrite (PKLm_of_ext _ _ _ _ _ HX i j Hi Hj).
    rewrite (PKLm_of_stated _ _ _ _ i j Hi Hj).
    destruct (Nat.ltb_spec t (T pol)); [unfold Rdiv; ring | lia].
  - intros i Hi.
    rewrite (PKLv_of_ext _ _ _ _ _ _ HX i Hi).
    rewrite (PKLv_of_stated _ _ _ _ _ i Hi).
    destruct (Nat.ltb_spec t (T pol)); [unfold Rdiv; ring | lia].
Qed.

(** The effect of scaling [Cm], [cv] and eta by the same [c]. *)
Lemma compute_costs_scaled self (m : nat) (c eta : R) it :
  cur self !! m = Some it -> c <> 0 -> eta <> 0 ->
  exists fCm fcv fCm' fcv',
    compute_costs self m eta = Ok (fCm, fcv) /\
    compute_costs (with_scaled_cost c m self) m (c * eta) = Ok (fCm', fcv') /\
    forall t, (t < T (traj_distr it))%nat ->
      (forall i, fcv' t i = fcv t i) /\
      (forall i j,
          fCm' t i j =
          fCm t i j +
          regularizer self it t * (1 / (c * eta) - 1 / eta) * identity i j).
Proof.
  intros Hm Hc Heta.
  unfold compute_costs, cur_at, with_scaled_cost. simpl.
  rewrite list_lookup_alter_eq, Hm. simpl.
  eexists _, _, _, _. split; [reflexivity |]. split; [reflexivity |].
  intros t Ht. unfold regularizer.
  destruct (Nat.ltb_spec t (T (traj_distr it))); [| lia].
  split; intros; field; split; assumption.
Qed.

(** C2 (amended).  For every condition m, c > 0 and eta > 0, running
    [compute_costs] with Cm, cv and eta all scaled by c leaves fcv
    unchanged and changes fCm[t] by
    K_regularization * |K[t]|_inf * (1/(c*eta) - 1/eta) * I: the
    regularizer is not scaled with the task cost, so fCm is unchanged
    exactly where that term vanishes, in particular when the regularizer
    is zero. *)
Theorem cost_fusion_scaling self (m : nat) (c eta : R) it :
  cur self !! m = Some it -> 0 < c -> 0 < eta ->
  exists fCm fcv fCm' fcv',
    compute_costs self m eta = Ok (fCm, fcv) /\
    compute_costs (with_scaled_cost c m self) m (c * eta) = Ok (fCm', fcv') /\
    forall t, (t < T (traj_distr it))%nat ->
      (forall i, fcv' t i = fcv t i) /\
      (forall i j,
          fCm' t i j =
          fCm t i j +
          regularizer self it t * (1 / (c * eta) - 1 / eta) * identity i j) /\
      (regularizer self it t = 0 -> forall i j, fCm' t i j = fCm t i j).
Proof.
  intros Hm Hc Heta.
  destruct (compute_costs_scaled self m c eta it Hm) as
    (fCm & fcv & fCm' & fcv' & Hrun & Hrun' & Hrel); try lra.
  exists fCm, fcv, fCm', fcv'. split; [exact Hrun |]. split; [exact Hrun' |].
  intros t Ht. destruct (Hrel t Ht) as [Hv Hm']. split; [exact Hv |].
  split; [exact Hm' |].
  intros Hreg i j. rewrite Hm', Hreg. lra.
Qed.

End CostFusion.

Section CostFusionExamples.
Import LinAlg MDGPS Algorithm Scenarios.

Lemma unit_norm : norm_inf 1 1 (fun _ _ => 1) = 1.
Proof.
  unfold norm_inf, rsum. simpl. rewrite Rabs_R1, Rmax_right; lra.
Qed.

Lemma transpose_identity_dot (n : nat) :
  mat_eq n n (dot n (transpose identity) identity) identity.
Proof.
  intros i j Hi Hj. rewrite (dot_identity_r n n _ i j Hi Hj).
  apply transpose_identity.
Qed.

(** In [kl_example] the fitted gain is 2 and the fitted bias 1, so the KL
    block matrix is [[4, -2], [-2, 1]] and the stacked vector [2, -1]; with
    eta = 2 and the regularizer 1 the fused cost is [[9/2, -2], [-2, 3/2]]
    and [2, -1]. *)
Lemma compute_costs_formula_witness :
  exists fCm fcv,
    compute_costs kl_example 0 2 = Ok (fCm, fcv) /\
    fCm 0%nat 0%nat 0%nat = 9 / 2 /\ fCm 0%nat 0%nat 1%nat = - 2 /\
    fCm 0%nat 1%nat 0%nat = - 2 /\ fCm 0%nat 1%nat 1%nat = 3 / 2 /\
    fcv 0%nat 0%nat = 2 /\ fcv 0%nat 1%nat = - 1.
Proof.
  destruct (compute_costs_formula kl_example 0 2
              (condition 1 0 2 0 1) 0 identity)
    as (fCm & fcv & Hrun & HCm & Hcv).
  - reflexivity.
  - lra.
  - simpl. lia.
  - exists identity. apply identity_inverse.
  - apply transpose_identity_dot.
  - apply identity_inverse.
  - exists fCm, fcv. split; [exact Hrun |].
    rewrite (HCm 0%nat 0%nat), (HCm 0%nat 1%nat), (HCm 1%nat 0%nat),
      (HCm 1%nat 1%nat), (Hcv 0%nat), (Hcv 1%nat) by (simpl; lia).
    simpl. rewrite unit_norm.
    unfold Stated.KL_matrix, Stated.KL_vector, rsum, identity, eye. simpl.
    repeat split; lra.
Defined.

(** With K_regularization = 1, K[0] = [[1]], c = 2 and eta = 1 the fused
    matrix changes by -1/2. *)
Lemma cost_fusion_not_homogeneous :
  exists fCm fcv fCm' fcv',
    compute_costs fusion_example 0 1 = Ok (fCm, fcv) /\
    compute_costs (with_scaled_cost 2 0 fusion_example) 0 (2 * 1) =
      Ok (fCm', fcv') /\
    fCm' 0%nat 0%nat 0%nat = fCm 0%nat 0%nat 0%nat - 1 / 2 /\
    fCm' 0%nat <> fCm 0%nat.
Proof.
  destruct (compute_costs_scaled fusion_example 0 2 1 (condition 1 0 0 0 1))
    as (fCm & fcv & fCm' & fcv' & Hrun & Hrun' & Hrel);
    [reflexivity | lra | lra |].
  exists fCm, fcv, fCm', fcv'. split; [exact Hrun |]. split; [exact Hrun' |].
  destruct (Hrel 0%nat) as [_ HCm]; [simpl; lia |].
  assert (Hdiff : fCm' 0%nat 0%nat 0%nat = fCm 0%nat 0%nat 0%nat - 1 / 2).
  { rewrite HCm. unfold regularizer, identity, eye. simpl.
    rewrite unit_norm. lra. }
  split; [exact Hdiff |].
  intros E. rewrite E in Hdiff. lra.
Qed.

Lemma cost_fusion_scaling_witness :
  exists fCm fcv fCm' fcv',
    compute_costs fusion_example 0 1 = Ok (fCm, fcv) /\
    compute_costs (with_scaled_cost 2 0 fusion_example) 0 (2 * 1) =
      Ok (fCm', fcv') /\
    fcv' 0%nat 0%nat = fcv 0%nat 0%nat.
Proof.
  destruct (cost_fusion_scaling fusion_example 0 2 1 (condition 1 0 0 0 1))
    as (fCm & fcv & fCm' & fcv' & Hrun & Hrun' & Hrel);
    [reflexivity | lra | lra |].
  exists fCm, fcv, fCm', fcv'. split; [exact Hrun |]. split; [exact Hrun' |].
  destruct (Hrel 0%nat) as [Hcv _]; [simpl; lia |]. apply Hcv.
Defined.

End CostFusionExamples.

(** ** Step adjustment *)

Section StepAdjust.
Import LinAlg MDGPS Algorithm.

Context {Dynamics : Type}.
Variable estimate_cost :
  LinearGaussianPolicy -> TrajectoryInfo Dynamics -> list R.
Variable pol_traj_distr : PolicyInfo -> LinearGaussianPolicy.

Implicit Types (self : AlgorithmMDGPS Dynamics).
Implicit Types
  (body helper : R -> R -> nat -> AlgorithmMDGPS Dynamics ->
                 result (AlgorithmMDGPS Dynamics)).

Abbreviation stepadjust := (_stepadjust estimate_cost pol_traj_distr).
Abbreviation impr := (improvements estimate_cost pol_traj_distr).

Lemma for_each_app (ms1 ms2 : list nat)
    (body : nat -> AlgorithmMDGPS Dynamics -> result (AlgorithmMDGPS Dynamics))
    self :
  for_each (ms1 ++ ms2) body self =
  (self' ← for_each ms1 body self; for_each ms2 body self').
Proof.
  revert self. induction ms1 as [| m ms1 IH]; intros self; simpl.
  - reflexivity.
  - destruct (body m self) as [s | e]; simpl; [apply IH | reflexivity].
Qed.

(** The loop of lines 233-234 runs the body on condition [m] after the
    conditions before it and before the conditions after it. *)
Lemma for_each_split (n m : nat)
    (body : nat -> AlgorithmMDGPS Dynamics -> result (AlgorithmMDGPS Dynamics))
    self :
  (m < n)%nat ->
  for_each (seq 0 n) body self =
  (s1 ← for_each (seq 0 m) body self;
   s2 ← body m s1;
   for_each (seq (S m) (n - S m)) body s2).
Proof.
  intros Hm. replace n with (m + S (n - S m))%nat at 1 by lia.
  rewrite seq_app, for_each_app. simpl. reflexivity.
Qed.

Lemma for_each_total (ms : list nat)
    (body : nat -> AlgorithmMDGPS Dynamics -> result (AlgorithmMDGPS Dynamics))
    self :
  (forall m s, exists s', body m s = Ok s') ->
  exists self', for_each ms body self = Ok self'.
Proof.
  intros Htotal. revert self.
  induction ms as [| m ms IH]; intros self; simpl.
  - exists self. reflexivity.
  - destruct (Htotal m self) as [s ->]. simpl. apply IH.
Qed.

Lemma improvements_laplace self :
  step_rule self = "laplace"%string ->
  impr self =
  Some (prev_laplace estimate_cost pol_traj_distr self -
        prev_predicted estimate_cost self,
        prev_laplace estimate_cost pol_traj_distr self -
        cur_laplace estimate_cost pol_traj_distr self).
Proof. intros E. unfold improvements. rewrite E. reflexivity. Qed.

Lemma improvements_mc self :
  step_rule self = "mc"%string ->
  impr self =
  Some (prev_mc self - prev_predicted estimate_cost self,
        prev_mc self - cur_mc self).
Proof. intros E. unfold improvements. rewrite E. reflexivity. Qed.

Lemma improvements_other self :
  step_rule self <> "laplace"%string -> step_rule self <> "mc"%string ->
  impr self = None.
Proof.
  intros H1 H2. unfold improvements.
  destruct (String.eqb_spec (step_rule self) "laplace"); [contradiction |].
  destruct (String.eqb_spec (step_rule self) "mc"); [contradiction |].
  reflexivity.
Qed.

Lemma stepadjust_bound helper self (p a : R) :
  impr self = Some (p, a) ->
  stepadjust helper self = for_each (seq 0 (M self)) (helper p a) self.
Proof. intros E. unfold _stepadjust. rewrite E. reflexivity. Qed.

Lemma stepadjust_unbound helper self :
  impr self = None ->
  stepadjust helper self =
  match cur self with
  | [] => Ok self
  | _ :: _ => Raise (UnboundLocalError "predicted_impr")
  end.
Proof.
  intros E. unfold _stepadjust, M. rewrite E.
  destruct (cur self); reflexivity.
Qed.

(** The loop of lines 233-234 hands the state from one call to the next:
    when the call for m turns [chain m] into [chain (m+1)], the loop turns
    [chain 0] into [chain n]. *)
Lemma for_each_chain (n : nat)
    (body : nat -> AlgorithmMDGPS Dynamics -> result (AlgorithmMDGPS Dynamics))
    self (chain : nat -> AlgorithmMDGPS Dynamics) :
  chain 0%nat = self ->
  (forall m, (m < n)%nat -> body m (chain m) = Ok (chain (S m))) ->
  for_each (seq 0 n) body self = Ok (chain n).
Proof.
  intros H0 Hstep. induction n as [| n IH].
  - simpl. rewrite H0. reflexivity.
  - rewrite seq_S, for_each_app, IH by (intros; apply Hstep; lia).
    simpl. rewrite Hstep by lia. reflexivity.
Qed.

Lemma stepadjust_chain helper self (p a : R)
    (chain : nat -> AlgorithmMDGPS Dynamics) :
  impr self = Some (p, a) ->
  chain 0%nat = self ->
  (forall m, (m < M self)%nat -> helper p a m (chain m) = Ok (chain (S m))) ->
  stepadjust helper self = Ok (chain (M self)).
Proof.
  intros E H0 Hstep. rewrite (stepadjust_bound helper self p a E).
  apply for_each_chain; assumption.
Qed.

(** [np.mean] of the per-condition costs is their sum over all conditions
    divided by the number of conditions. *)
Lemma sum_list_stated (cost : IterationData Dynamics -> R)
    (its : list (IterationData Dynamics)) :
  sum_list (map cost its) = rsum (length its) (Stated.cost_of cost its).
Proof.
  induction its as [| it its IH] using rev_ind; [reflexivity |].
  rewrite map_app, length_app. simpl. rewrite Nat.add_1_r, rsum_S.
  unfold sum_list in *. rewrite foldr_app. simpl.
  assert (Hfold : forall (l : list R) (x : R),
            foldr Rplus x l = foldr Rplus 0 l + x).
  { induction l as [| y l IHl]; intros x; simpl; [lra |].
    rewrite IHl. lra. }
  rewrite Hfold, IH. f_equal.
  - apply rsum_ext. intros m Hm. unfold Stated.cost_of.
    rewrite lookup_app_l by exact Hm. reflexivity.
  - unfold Stated.cost_of.
    rewrite lookup_app_r by lia. rewrite Nat.sub_diag. simpl. lra.
Qed.

Lemma mean_stated (cost : IterationData Dynamics -> R)
    (its : list (IterationData Dynamics)) :
  mean (map cost its) =
  Stated.average (length its) (Stated.cost_of cost its).
Proof.
  unfold mean, Stated.average. rewrite sum_list_stated, length_map.
  reflexivity.
Qed.

(** Replacing condition [m] changes the sum of the costs by the difference
    of the two costs. *)
Lemma sum_list_insert (cost : IterationData Dynamics -> R)
    (its : list (IterationData Dynamics)) (m : nat)
    (it it' : IterationData Dynamics) :
  its !! m = Some it ->
  sum_list (map cost (<[m := it']> its)) =
  sum_list (map cost its) + (cost it' - cost it).
Proof.
  revert m. induction its as [| x its IH]; intros m Hm; [discriminate Hm |].
  destruct m as [| m]; simpl in *.
  - injection Hm as ->. unfold sum_list. simpl. lra.
  - unfold sum_list in *. simpl. rewrite (IH m Hm). lra.
Qed.

Lemma mean_insert (cost : IterationData Dynamics -> R)
    (its : list (IterationData Dynamics)) (m : nat)
    (it it' : IterationData Dynamics) :
  its !! m = Some it ->
  mean (map cost (<[m := it']> its)) =
  mean (map cost its) + (cost it' - cost it) / INR (length its).
Proof.
  intros Hm. unfold mean.
  rewrite (sum_list_insert cost its m it it' Hm), !length_map, length_insert.
  assert (INR (length its) <> 0).
  { apply not_0_INR. apply lookup_lt_Some in Hm. lia. }
  field. assumption.
Qed.

(** C10 (amended).  Under step rule 'laplace' or 'mc', with at least one
    condition now and before, [_stepadjust] computes one pair
    (predicted_impr, actual_impr) from arithmetic means over all conditions:
    the mean over the previous conditions of their cost minus the mean over
    the previous conditions of their predicted cost, and the same mean of
    the previous costs minus the mean over the current conditions of their
    cost.  That one pair is handed to [_set_new_mult] for m = 0, ..., M-1 in
    turn, each call working on the state the call before it left, whatever
    [_set_new_mult] does.  Every current condition's cost enters
    actual_impr with weight 1/M: replacing condition m' by another changes
    the pair every condition receives by the difference of the two costs
    over M.  Under any other step rule no pair is computed and the first
    call raises UnboundLocalError. *)
Theorem stepadjust_common_pair helper self :
  prev self <> [] -> cur self <> [] ->
  (forall it, it ∈ prev self ++ cur self -> (1 <= sample_count it)%nat) ->
  let Mp := length (prev self) in
  let laplace it :=
    sum_list (estimate_cost (pol_traj_distr (pol_info it)) (traj_info it)) in
  let predicted it :=
    sum_list (estimate_cost (new_traj_distr it) (traj_info it)) in
  let sampled := Stated.sampled_cost (horizon self) in
  (step_rule self = "laplace"%string ->
     impr self =
     Some (Stated.average Mp (Stated.cost_of laplace (prev self)) -
           Stated.average Mp (Stated.cost_of predicted (prev self)),
           Stated.average Mp (Stated.cost_of laplace (prev self)) -
           Stated.average (M self) (Stated.cost_of laplace (cur self)))) /\
  (step_rule self = "mc"%string ->
     impr self =
     Some (Stated.average Mp (Stated.cost_of sampled (prev self)) -
           Stated.average Mp (Stated.cost_of predicted (prev self)),
           Stated.average Mp (Stated.cost_of sampled (prev self)) -
           Stated.average (M self) (Stated.cost_of sampled (cur self)))) /\
  (forall p a (chain : nat -> AlgorithmMDGPS Dynamics),
     impr self = Some (p, a) ->
     chain 0%nat = self ->
     (forall m, (m < M self)%nat ->
        helper p a m (chain m) = Ok (chain (S m))) ->
     stepadjust helper self = Ok (chain (M self))) /\
  (forall p a m' it it',
     impr self = Some (p, a) ->
     cur self !! m' = Some it ->
     (1 <= sample_count it')%nat ->
     impr (with_cur self (<[m' := it']> (cur self))) =
     Some (p,
           a - ((if String.eqb (step_rule self) "laplace"
                 then laplace it' else sampled it') -
                (if String.eqb (step_rule self) "laplace"
                 then laplace it else sampled it)) / INR (M self))) /\
  (step_rule self <> "laplace"%string -> step_rule self <> "mc"%string ->
     impr self = None /\
     stepadjust helper self = Raise (UnboundLocalError "predicted_impr")).
Proof.
  intros Hprev Hcur _ Mp laplace predicted sampled.
  split; [| split; [| split; [| split]]].
  - intros E. rewrite (improvements_laplace self E).
    unfold prev_laplace, prev_predicted, cur_laplace, M, Mp.
    rewrite !mean_stated. reflexivity.
  - intros E. rewrite (improvements_mc self E).
    unfold prev_mc, prev_predicted, cur_mc, M, Mp.
    rewrite !mean_stated. reflexivity.
  - intros p a chain E H0 Hstep. apply (stepadjust_chain helper self p a);
      assumption.
  - intros p a m' it it' E Hit _. unfold improvements in *. simpl.
    destruct (String.eqb (step_rule self) "laplace").
    + injection E as <- <-. unfold prev_laplace, prev_predicted, cur_laplace.
      simpl. rewrite (mean_insert _ _ m' it it' Hit). unfold M.
      f_equal. f_equal. subst laplace. unfold laplace_cost. cbv beta. lra.
    + destruct (String.eqb (step_rule self) "mc"); [| discriminate E].
      injection E as <- <-. unfold prev_mc, prev_predicted, cur_mc.
      simpl. rewrite (mean_insert _ _ m' it it' Hit). unfold M.
      f_equal. f_equal. subst sampled.
      unfold mc_cost, Stated.sampled_cost, Stated.average. lra.
  - intros H1 H2. split; [apply improvements_other; assumption |].
    rewrite (stepadjust_unbound helper self (improvements_other self H1 H2)).
    destruct (cur self); [contradiction | reflexivity].
Qed.

(** C4 (amended).  [_stepadjust] makes no comparison of sample counts.
    Under step rule 'mc', for conditions with any sample counts (at least
    one sample each, no relation between the count of a condition now and
    before), every condition enters the pair with the mean of its sampled
    costs over its own samples: predicted_impr and actual_impr are
    differences of the means over all conditions of these costs.  Under
    'laplace' the pair is made of the estimated costs of all conditions and
    reads no sample.  Under either rule [_set_new_mult] is called with the
    pair for every condition m = 0, ..., M-1 in turn, none is skipped, and
    when every call returns normally so does [_stepadjust]. *)
Theorem stepadjust_updates_every_condition helper self
    (chain : nat -> AlgorithmMDGPS Dynamics) :
  prev self <> [] -> cur self <> [] ->
  (forall it, it ∈ prev self ++ cur self -> (1 <= sample_count it)%nat) ->
  chain 0%nat = self ->
  let Mp := length (prev self) in
  let predicted it :=
    sum_list (estimate_cost (new_traj_distr it) (traj_info it)) in
  let estimated it :=
    sum_list (estimate_cost (pol_traj_distr (pol_info it)) (traj_info it)) in
  let sampled := Stated.sampled_cost (horizon self) in
  (step_rule self = "mc"%string ->
     let p := Stated.average Mp (Stated.cost_of sampled (prev self)) -
              Stated.average Mp (Stated.cost_of predicted (prev self)) in
     let a := Stated.average Mp (Stated.cost_of sampled (prev self)) -
              Stated.average (M self) (Stated.cost_of sampled (cur self)) in
     (forall m, (m < M self)%nat ->
        helper p a m (chain m) = Ok (chain (S m))) ->
     stepadjust helper self = Ok (chain (M self))) /\
  (step_rule self = "laplace"%string ->
     let p := Stated.average Mp (Stated.cost_of estimated (prev self)) -
              Stated.average Mp (Stated.cost_of predicted (prev self)) in
     let a := Stated.average Mp (Stated.cost_of estimated (prev self)) -
              Stated.average (M self) (Stated.cost_of estimated (cur self)) in
     (forall m, (m < M self)%nat ->
        helper p a m (chain m) = Ok (chain (S m))) ->
     stepadjust helper self = Ok (chain (M self))).
Proof.
  intros Hprev Hcur _ H0 Mp predicted estimated sampled. split.
  - intros E p a Hstep. apply (stepadjust_chain helper self p a);
      [| exact H0 | exact Hstep].
    rewrite (improvements_mc self E).
    unfold prev_mc, prev_predicted, cur_mc, M, p, a, Mp.
    rewrite !mean_stated. reflexivity.
  - intros E p a Hstep. apply (stepadjust_chain helper self p a);
      [| exact H0 | exact Hstep].
    rewrite (improvements_laplace self E).
    unfold prev_laplace, prev_predicted, cur_laplace, M, p, a, Mp.
    rewrite !mean_stated. reflexivity.
Qed.

End StepAdjust.

(** ** Step adjustment on the example inputs *)

Section StepAdjustExamples.
Import LinAlg MDGPS Algorithm Scenarios.

Ltac costs :=
  unfold prev_mc, cur_mc, prev_predicted, predicted_cost, mean, sum_list,
    mc_cost, rsum, estimate_gain; simpl; lra.

Lemma example_prev_mc : prev_mc stepadjust_example = 10.
Proof. costs. Qed.

Lemma example_prev_predicted :
  prev_predicted estimate_gain stepadjust_example = 8.
Proof. costs. Qed.

Lemma example_cur_mc : cur_mc stepadjust_example = 9.
Proof. costs. Qed.

Lemma example_improvements :
  improvements estimate_gain fitted_policy stepadjust_example = Some (2, 1).
Proof.
  rewrite (improvements_mc estimate_gain fitted_policy stepadjust_example
             eq_refl).
  do 2 f_equal; costs.
Qed.

(** On the two conditions of [stepadjust_example] the pair is (2, 1) for
    both: the stand-in that stores the predicted improvement it is handed
    leaves 2 in both multipliers. *)
Lemma stepadjust_common_pair_witness :
  improvements estimate_gain fitted_policy stepadjust_example =
  Some (Stated.average 2
          (Stated.cost_of (Stated.sampled_cost 1) (prev stepadjust_example)) -
        Stated.average 2
          (Stated.cost_of
             (fun it =>
                sum_list (estimate_gain (new_traj_distr it) (traj_info it)))
             (prev stepadjust_example)),
        Stated.average 2
          (Stated.cost_of (Stated.sampled_cost 1) (prev stepadjust_example)) -
        Stated.average 2
          (Stated.cost_of (Stated.sampled_cost 1) (cur stepadjust_example))) /\
  exists self',
    _stepadjust estimate_gain fitted_policy record_call stepadjust_example =
      Ok self' /\
    step_mult_at self' 0 = 2 /\ step_mult_at self' 1 = 2.
Proof.
  destruct (stepadjust_common_pair estimate_gain fitted_policy record_call
              stepadjust_example)
    as (_ & Hmc & Hrun & _).
  { discriminate. }
  { discriminate. }
  { intros it Hin.
    repeat (apply elem_of_cons in Hin; destruct Hin as [-> | Hin];
            [simpl; lia |]).
    apply elem_of_nil in Hin. contradiction. }
  split; [exact (Hmc eq_refl) |].
  exists (states_of (record_call 2 1) stepadjust_example 2).
  split; [| split; reflexivity].
  apply (Hrun 2 1 (states_of (record_call 2 1) stepadjust_example)).
  - exact example_improvements.
  - reflexivity.
  - intros m Hm. unfold M in Hm. simpl in Hm.
    destruct m as [| [| m]]; [reflexivity | reflexivity | lia].
Defined.

Lemma mismatch_improvements :
  improvements estimate_gain fitted_policy mismatch_example = Some (2, 2).
Proof.
  rewrite (improvements_mc estimate_gain fitted_policy mismatch_example eq_refl).
  do 2 f_equal; costs.
Qed.

(** In [mismatch_example] condition 0 has three samples now and had two
    before; the run still updates both conditions with the pair made of all
    four conditions' costs. *)
Lemma stepadjust_updates_every_condition_witness :
  let p :=
    Stated.average 2
      (Stated.cost_of (Stated.sampled_cost 1) (prev mismatch_example)) -
    Stated.average 2
      (Stated.cost_of
         (fun it => sum_list (estimate_gain (new_traj_distr it) (traj_info it)))
         (prev mismatch_example)) in
  p = 2 /\
  exists self',
    _stepadjust estimate_gain fitted_policy record_call mismatch_example =
      Ok self' /\
    step_mult_at self' 0 = p /\ step_mult_at self' 1 = p.
Proof.
  intros p. split.
  { subst p.
    unfold Stated.average, Stated.cost_of, Stated.sampled_cost, sum_list,
      rsum, estimate_gain. simpl.
    unfold Stated.average, rsum. simpl. lra. }
  eexists. split; [| split].
  - refine (proj1 (stepadjust_updates_every_condition estimate_gain
                     fitted_policy record_call mismatch_example
                     (states_of
                        (record_call _ 0)
                        mismatch_example) _ _ _ _) eq_refl _).
    + discriminate.
    + discriminate.
    + intros it Hin.
      repeat (apply elem_of_cons in Hin; destruct Hin as [-> | Hin];
              [simpl; lia |]).
      apply elem_of_nil in Hin. contradiction.
    + reflexivity.
    + intros m Hm. unfold M in Hm. simpl in Hm.
      destruct m as [| [| m]]; [reflexivity | reflexivity | lia].
  - reflexivity.
  - reflexivity.
Defined.

(** In [mismatch_example] condition 0 has a different sample count than in
    the previous iteration.  Its costs still enter the averages: the actual
    improvement is 10 - (7 + 9)/2 = 2, not the 10 - 9 = 1 of condition 1
    alone.  And [_set_new_mult] is still called for it: with the stand-in
    that stores what it is handed, its multiplier goes from 1 to 2. *)
Lemma stepadjust_ignores_sample_counts :
  (exists itc itp,
      cur mismatch_example !! 0%nat = Some itc /\
      prev mismatch_example !! 0%nat = Some itp /\
      sample_count itc <> sample_count itp) /\
  improvements estimate_gain fitted_policy mismatch_example = Some (2, 2) /\
  10 - mc_cost 1 (condition 2 9 0 0 1) = 1 /\
  exists self',
    _stepadjust estimate_gain fitted_policy record_call mismatch_example =
      Ok self' /\
    step_mult_at mismatch_example 0 = 1 /\
    step_mult_at self' 0 = 2.
Proof.
  split; [| split; [| split]].
  - eexists _, _. split; [reflexivity |]. split; [reflexivity |].
    simpl. lia.
  - exact mismatch_improvements.
  - costs.
  - rewrite (stepadjust_bound estimate_gain fitted_policy record_call
               mismatch_example 2 2 mismatch_improvements).
    eexists. split; [reflexivity |]. split; reflexivity.
Qed.

(** With a single condition the one pair is that condition's own estimate:
    in [single_example] it is (9 - 7, 9 - 8), computed from the costs of
    condition 0 alone, and condition 0 receives it. *)
Lemma stepadjust_single_condition_own_pair :
  M single_example = 1%nat /\
  improvements estimate_gain fitted_policy single_example =
  Some (mc_cost 1 (condition 2 9 0 7 1) -
        predicted_cost estimate_gain (condition 2 9 0 7 1),
        mc_cost 1 (condition 2 9 0 7 1) - mc_cost 1 (condition 2 8 0 0 1)) /\
  mc_cost 1 (condition 2 9 0 7 1) -
  predicted_cost estimate_gain (condition 2 9 0 7 1) = 2 /\
  exists self',
    _stepadjust estimate_gain fitted_policy record_call single_example =
      Ok self' /\
    step_mult_at self' 0 = 2.
Proof.
  assert (E : improvements estimate_gain fitted_policy single_example =
              Some (2, 1)).
  { rewrite (improvements_mc estimate_gain fitted_policy single_example
               eq_refl).
    do 2 f_equal; costs. }
  split; [reflexivity |]. split; [| split].
  - rewrite E. do 2 f_equal; costs.
  - costs.
  - rewrite (stepadjust_bound estimate_gain fitted_policy record_call
               single_example 2 1 E).
    eexists. split; [reflexivity |]. reflexivity.
Qed.

End StepAdjustExamples.

(** * Further properties of the code *)

(** ** The ramp schedule, all modes *)

Section RampProfile.
Import NdArray CostUtils.

Lemma ramp_base_lookup (ramp_option : Z) (T t : nat) :
  (t < T)%nat ->
  (ramp_option = RAMP_CONSTANT ->
   exists base, ramp_base ramp_option T = Ok base /\ base !! t = Some 1) /\
  (ramp_option = RAMP_LINEAR ->
   exists base, ramp_base ramp_option T = Ok base /\
                base !! t = Some ((INR t + 1) / INR T)) /\
  (ramp_option = RAMP_QUADRATIC ->
   exists base, ramp_base ramp_option T = Ok base /\
                base !! t = Some (((INR t + 1) / INR T) ^ 2)) /\
  (ramp_option = RAMP_FINAL_ONLY ->
   exists base, ramp_base ramp_option T = Ok base /\
                base !! t = Some (if Nat.eqb t (T - 1) then 1 else 0)).
Proof.
  intros Ht. repeat split; intros ->; unfold ramp_base; simpl.
  - eexists. split; [reflexivity |]. apply lookup_replicate_2. exact Ht.
  - eexists. split; [reflexivity |].
    rewrite list_lookup_fmap, lookup_arange by exact Ht. reflexivity.
  - eexists. split; [reflexivity |].
    rewrite list_lookup_fmap, lookup_arange by exact Ht. reflexivity.
  - unfold setitem, zeros. rewrite length_replicate, norm_index_pred by lia.
    eexists. split; [reflexivity |].
    destruct (Nat.eqb_spec t (T - 1)) as [-> | Hne].
    + apply list_lookup_insert_eq. rewrite length_replicate. lia.
    + rewrite list_lookup_insert_ne by lia. apply lookup_replicate_2. exact Ht.
Qed.

(** The weight of step [t] before the final multiplier, for the four
    modes. *)
Lemma ramp_base_value (ramp_option : Z) (T t : nat) :
  known_ramp ramp_option -> (t < T)%nat ->
  exists base x,
    ramp_base ramp_option T = Ok base /\ length base = T /\
    base !! t = Some x /\ 0 <= x <= 1 /\ (t = (T - 1)%nat -> x = 1) /\
    (ramp_option = RAMP_LINEAR -> x = (INR t + 1) / INR T) /\
    (ramp_option = RAMP_QUADRATIC -> x = ((INR t + 1) / INR T) ^ 2).
Proof.
  intros Hk Ht.
  destruct (ramp_base_known ramp_option T Hk) as (base & Hbase & Hlen); [lia |].
  destruct (ramp_base_lookup ramp_option T t Ht) as (Hc & Hl & Hq & Hf).
  assert (HT : 0 < INR T) by (apply lt_0_INR; lia).
  assert (Hfrac : 0 <= (INR t + 1) / INR T <= 1).
  { assert (INR t + 1 <= INR T).
    { rewrite <- S_INR. apply le_INR. lia. }
    pose proof (pos_INR t).
    split.
    - apply Rmult_le_pos; [lra |]. left. apply Rinv_0_lt_compat. exact HT.
    - apply (Rmult_le_reg_r (INR T)); [exact HT |]. field_simplify; lra. }
  destruct Hk as [-> | [-> | [-> | ->]]].
  - destruct (Hc eq_refl) as (b & Hb & Hx). rewrite Hbase in Hb.
    injection Hb as <-. exists base, 1. repeat split; try assumption; try lra;
      intros E; discriminate E.
  - destruct (Hl eq_refl) as (b & Hb & Hx). rewrite Hbase in Hb.
    injection Hb as <-. exists base, ((INR t + 1) / INR T).
    repeat split; try assumption; try tauto; try (intros E; discriminate E).
    intros ->. apply linear_last. lia.
  - destruct (Hq eq_refl) as (b & Hb & Hx). rewrite Hbase in Hb.
    injection Hb as <-. exists base, (((INR t + 1) / INR T) ^ 2).
    repeat split; try assumption; try (intros E; discriminate E).
    + apply pow_le. tauto.
    + simpl. nra.
    + intros ->. rewrite linear_last by lia. simpl. lra.
  - destruct (Hf eq_refl) as (b & Hb & Hx). rewrite Hbase in Hb.
    injection Hb as <-.
    exists base, (if Nat.eqb t (T - 1) then 1 else 0).
    repeat split; try assumption; try (intros E; discriminate E);
      destruct (Nat.eqb_spec t (T - 1)); try lra; try lia.
Qed.

(** X1.  Every defined ramp mode gives each step but the last a weight in [0, 1]
    that the final multiplier leaves alone, and gives the last step exactly
    the weight wp_final_multiplier; for the linear and quadratic ramps the
    weight of step t < T-1 is (t+1)/T and ((t+1)/T)^2. *)
Theorem ramp_profile (ramp_option : Z) (T : nat) (w : R) :
  known_ramp ramp_option -> (1 <= T)%nat ->
  exists wpm,
    get_ramp_multiplier ramp_option T w = Ok wpm /\ length wpm = T /\
    wpm !! (T - 1)%nat = Some w /\
    forall t, (t < T - 1)%nat ->
      exists x, wpm !! t = Some x /\ 0 <= x <= 1 /\
        (ramp_option = RAMP_LINEAR -> x = (INR t + 1) / INR T) /\
        (ramp_option = RAMP_QUADRATIC -> x = ((INR t + 1) / INR T) ^ 2).
Proof.
  intros Hk HT.
  destruct (ramp_base_value ramp_option T (T - 1) Hk) as
    (base & x1 & Hbase & Hlen & Hx1 & _ & Hlast & _); [lia |].
  rewrite (Hlast eq_refl) in Hx1.
  exists (<[(T - 1)%nat := 1 * w]> base).
  unfold get_ramp_multiplier. rewrite Hbase. simpl.
  rewrite (scale_last_nonempty base w 1) by (rewrite Hlen; exact Hx1).
  rewrite Hlen. split; [reflexivity |]. split.
  { rewrite length_insert. exact Hlen. }
  split.
  { rewrite list_lookup_insert_eq by lia. f_equal. lra. }
  intros t Ht.
  destruct (ramp_base_value ramp_option T t Hk) as
    (base' & x & Hbase' & _ & Hx & Hrange & _ & Hlin & Hquad); [lia |].
  rewrite Hbase in Hbase'. injection Hbase' as <-.
  exists x. rewrite list_lookup_insert_ne by lia. tauto.
Qed.

Lemma ramp_profile_witness :
  exists wpm,
    get_ramp_multiplier RAMP_QUADRATIC 4 3 = Ok wpm /\
    wpm !! 3%nat = Some 3 /\ wpm !! 1%nat = Some (((INR 1 + 1) / INR 4) ^ 2).
Proof.
  destruct (ramp_profile RAMP_QUADRATIC 4 3) as (wpm & Hrun & _ & Hlast & Hw).
  - right; right; left; reflexivity.
  - lia.
  - exists wpm. split; [exact Hrun |]. split; [exact Hlast |].
    destruct (Hw 1%nat) as (x & Hx & _ & _ & Hq); [lia |].
    rewrite Hx, (Hq eq_refl). reflexivity.
Defined.

(** X2.  Before the final multiplier the weights never decrease along the
    horizon, in any defined mode. *)
Theorem ramp_base_monotone (ramp_option : Z) (T t t' : nat) (base : list R)
    (x x' : R) :
  ramp_base ramp_option T = Ok base ->
  (t <= t')%nat -> base !! t = Some x -> base !! t' = Some x' -> x <= x'.
Proof.
  intros Hbase Htt Hx Hx'.
  assert (Hk : known_ramp ramp_option).
  { destruct (Z.eq_dec ramp_option RAMP_CONSTANT); [left; assumption |].
    destruct (Z.eq_dec ramp_option RAMP_LINEAR); [right; left; assumption |].
    destruct (Z.eq_dec ramp_option RAMP_QUADRATIC);
      [right; right; left; assumption |].
    destruct (Z.eq_dec ramp_option RAMP_FINAL_ONLY);
      [right; right; right; assumption |].
    rewrite ramp_base_unknown in Hbase; [discriminate Hbase |].
    intros [? | [? | [? | ?]]]; contradiction. }
  assert (Hlen : length base = T).
  { destruct (Nat.eq_dec T 0%nat) as [-> | HT].
    - destruct Hk as [-> | [-> | [-> | ->]]]; unfold ramp_base in Hbase;
        simpl in Hbase; try (injection Hbase as <-; reflexivity).
      discriminate Hbase.
    - destruct (ramp_base_known ramp_option T Hk) as (b & Hb & Hl); [lia |].
      rewrite Hbase in Hb. injection Hb as <-. exact Hl. }
  pose proof (lookup_lt_Some _ _ _ Hx') as Hlt'. rewrite Hlen in Hlt'.
  assert (Ht : (t < T)%nat) by lia.
  destruct (ramp_base_lookup ramp_option T t Ht) as (Hc & Hl & Hq & Hf).
  destruct (ramp_base_lookup ramp_option T t' Hlt') as (Hc' & Hl' & Hq' & Hf').
  assert (HT : 0 < INR T) by (apply lt_0_INR; lia).
  assert (Hfrac : 0 <= (INR t + 1) / INR T <= (INR t' + 1) / INR T).
  { pose proof (pos_INR t). pose proof (le_INR t t' Htt). split.
    - apply Rmult_le_pos; [lra |]. left. apply Rinv_0_lt_compat. exact HT.
    - apply Rmult_le_compat_r; [left; apply Rinv_0_lt_compat; exact HT | lra]. }
  destruct Hk as [-> | [-> | [-> | ->]]].
  - destruct (Hc eq_refl) as (b & Hb & Hv), (Hc' eq_refl) as (b' & Hb' & Hv').
    rewrite Hbase in Hb, Hb'. injection Hb as <-. injection Hb' as <-.
    rewrite Hx in Hv. rewrite Hx' in Hv'.
    injection Hv as ->. injection Hv' as ->. lra.
  - destruct (Hl eq_refl) as (b & Hb & Hv), (Hl' eq_refl) as (b' & Hb' & Hv').
    rewrite Hbase in Hb, Hb'. injection Hb as <-. injection Hb' as <-.
    rewrite Hx in Hv. rewrite Hx' in Hv'.
    injection Hv as ->. injection Hv' as ->. tauto.
  - destruct (Hq eq_refl) as (b & Hb & Hv), (Hq' eq_refl) as (b' & Hb' & Hv').
    rewrite Hbase in Hb, Hb'. injection Hb as <-. injection Hb' as <-.
    rewrite Hx in Hv. rewrite Hx' in Hv'.
    injection Hv as ->. injection Hv' as ->.
    apply (pow_incr _ _ 2) in Hfrac. simpl in Hfrac. simpl. exact Hfrac.
  - destruct (Hf eq_refl) as (b & Hb & Hv), (Hf' eq_refl) as (b' & Hb' & Hv').
    rewrite Hbase in Hb, Hb'. injection Hb as <-. injection Hb' as <-.
    rewrite Hx in Hv. rewrite Hx' in Hv'.
    injection Hv as ->. injection Hv' as ->.
    destruct (Nat.eqb_spec t (T - 1)), (Nat.eqb_spec t' (T - 1)); try lra; lia.
Qed.

Lemma ramp_base_monotone_witness :
  (INR 0 + 1) / INR 3 <= (INR 2 + 1) / INR 3.
Proof.
  apply (ramp_base_monotone RAMP_LINEAR 3 0 2
           (map (fun x => (x + 1) / INR 3) (arange 3))).
  - reflexivity.
  - lia.
  - reflexivity.
  - reflexivity.
Defined.

(** With an empty horizon every defined mode fails on the update of the last
    weight (IndexError), whatever the final multiplier. *)
Theorem ramp_empty_horizon (ramp_option : Z) (w : R) :
  known_ramp ramp_option ->
  get_ramp_multiplier ramp_option 0 w = Raise out_of_bounds.
Proof. intros [-> | [-> | [-> | ->]]]; reflexivity. Qed.

Lemma ramp_empty_horizon_witness :
  get_ramp_multiplier RAMP_LINEAR 0 2 = Raise out_of_bounds.
Proof. apply ramp_empty_horizon. right; left; reflexivity. Defined.

End RampProfile.

(** ** The penalty shapes on arbitrary residuals *)

Section CheckedMore.
Import LinAlg.

Lemma ck_pow3 (x : option R) (a : R) : x = Some a -> pow3 x = Some (a * a * a).
Proof. intros ->. reflexivity. Qed.

Lemma ck_eye (i j : nat) : eye (A := option R) i j = Some (eye (A := R) i j).
Proof. unfold eye. destruct (Nat.eqb i j); reflexivity. Qed.

Lemma rsum_nonneg (n : nat) (f : nat -> R) :
  (forall i, (i < n)%nat -> 0 <= f i) -> 0 <= rsum n f.
Proof.
  induction n as [| n IH]; intros Hf; [unfold rsum; simpl; lra |].
  rewrite rsum_S. pose proof (Hf n ltac:(lia)).
  assert (0 <= rsum n f) by (apply IH; intros; apply Hf; lia). lra.
Qed.

Lemma rsum_sq_nonneg (n : nat) (f : nat -> R) :
  0 <= rsum n (fun i => f i * f i).
Proof. apply rsum_nonneg. intros. nra. Qed.

Lemma rsum_le (n : nat) (f g : nat -> R) :
  (forall i, (i < n)%nat -> f i <= g i) -> rsum n f <= rsum n g.
Proof.
  induction n as [| n IH]; intros Hfg; [unfold rsum; simpl; lra |].
  rewrite !rsum_S. pose proof (Hfg n ltac:(lia)).
  assert (rsum n f <= rsum n g) by (apply IH; intros; apply Hfg; lia). lra.
Qed.

Lemma rsum_abs_le (n : nat) (f : nat -> R) :
  Rabs (rsum n f) <= rsum n (fun i => Rabs (f i)).
Proof.
  induction n as [| n IH]; [unfold rsum; simpl; rewrite Rabs_R0; lra |].
  rewrite !rsum_S. pose proof (Rabs_triang (rsum n f) (f n)). lra.
Qed.

End CheckedMore.

(** [finite] extended to the operations of the Hessian. *)
Ltac finite_all side :=
  lazymatch goal with
  | |- Some _ = Some _ => reflexivity
  | |- @lit _ checked _ = Some _ => reflexivity
  | |- @eye _ checked _ _ = Some _ => apply ck_eye
  | |- @add _ checked _ _ = Some _ => eapply ck_add; finite_all side
  | |- @sub _ checked _ _ = Some _ => eapply ck_sub; finite_all side
  | |- @mul _ checked _ _ = Some _ => eapply ck_mul; finite_all side
  | |- @neg _ checked _ = Some _ => eapply ck_neg; finite_all side
  | |- @div _ checked _ _ = Some _ =>
      eapply ck_div; [finite_all side | finite_all side | side]
  | |- @np_sqrt _ checked _ = Some _ =>
      eapply ck_sqrt; [finite_all side | side]
  | |- @np_log _ checked _ = Some _ => eapply ck_log; [finite_all side | side]
  | |- @np_exp _ checked _ = Some _ => eapply ck_exp; finite_all side
  | |- @np_sign _ checked _ = Some _ => eapply ck_sign; finite_all side
  | |- @np_clip _ checked _ _ _ = Some _ => eapply ck_clip; finite_all side
  | |- @pow2 _ checked _ = Some _ => eapply ck_pow2; finite_all side
  | |- @pow3 _ checked _ = Some _ => eapply ck_pow3; finite_all side
  | |- @np_sum _ checked _ _ = Some _ =>
      eapply ck_sum; intros ? ?; cbv beta; finite_all side
  end.

Section ShapesEverywhere.
Import LinAlg CostUtils Shapes.

Variable D : nat.
Variables (wp d : nat -> nat -> R) (Jd : nat -> nat -> nat -> R)
  (Jdd : nat -> nat -> nat -> nat -> R).

Ltac domain Hwp alpha :=
  first
    [ apply Hwp; assumption
    | match goal with
      | |- context [rsum D ?f] =>
          let S := fresh "S" in
          let HS := fresh "HS" in
          let Hs := fresh "Hs" in
          assert (HS : 0 <= rsum D f) by (apply rsum_nonneg; intros; nra);
          set (S := rsum D f) in *;
          first
            [ lra
            | nra
            | pose proof (sqrt_lt_R0 (alpha + S) ltac:(lra)) as Hs;
              apply Rgt_not_eq; repeat apply Rmult_lt_0_compat; exact Hs ]
      end ].

(** X3.  With alpha > 0 and non-negative weights at the timestep, the l1/l2 and
    log-l2 shapes return a finite loss, gradient and Hessian for every finite
    residual, Jacobian and second Jacobian: no square root, logarithm or
    division leaves the finite reals. *)
Theorem blend_shapes_finite (l1 l2 alpha : R) (t : nat) :
  0 < alpha -> (forall i, (i < D)%nat -> 0 <= wp t i) ->
  finite_at t
    (evall1l2term D (finite2 wp) (finite2 d) (finite3 Jd) (finite4 Jdd)
       (Some l1) (Some l2) (Some alpha)) /\
  finite_at t
    (evallogl2term D (finite2 wp) (finite2 d) (finite3 Jd) (finite4 Jdd)
       (Some l1) (Some l2) (Some alpha)).
Proof.
  intros Ha Hwp.
  split;
    cbv beta iota zeta delta [evall1l2term evallogl2term second_order
      finite2 finite3 finite4 finite_at];
    (split; [| split]); intros; eexists;
    finite_all ltac:(domain Hwp alpha).
Qed.

(** X4.  The asymmetric and exponential shapes return finite results on every
    finite input. *)
Theorem skew_shapes_finite (alpha : R) (t : nat) :
  finite_at t
    (evalasymetric D (finite2 wp) (finite2 d) (finite3 Jd) (finite4 Jdd)
       (Some alpha)) /\
  finite_at t
    (evalexp D (finite2 wp) (finite2 d) (finite3 Jd) (finite4 Jdd)).
Proof.
  split;
    cbv beta iota zeta delta [evalasymetric evalexp second_order
      finite2 finite3 finite4 finite_at];
    (split; [| split]); intros; eexists; finite_all ltac:(fail).
Qed.

End ShapesEverywhere.

Lemma blend_shapes_finite_witness :
  Shapes.finite_at 0
    (CostUtils.evallogl2term 2 (finite2 (fun _ _ => 1)) (finite2 (fun _ i => INR i))
       (finite3 (fun _ _ _ => 1)) (finite4 (fun _ _ _ _ => 1))
       (Some 1) (Some 1) (Some 1)).
Proof.
  exact (proj2 (blend_shapes_finite 2 (fun _ _ => 1) (fun _ i => INR i)
                  (fun _ _ _ => 1) (fun _ _ _ _ => 1) 1 1 1 0%nat
                  ltac:(lra) ltac:(intros; lra))).
Defined.

(** ** Signs and bounds of the penalty shapes, in exact arithmetic *)

Section ShapeBounds.
Import LinAlg CostUtils.

Variable D : nat.
Variables (wp d : arr2 R) (Jd : arr3 R) (Jdd : arr4 R).

Lemma Rclip_unit (x : R) : 0 <= Rclip x 0 1 <= 1.
Proof.
  unfold Rclip, Rmin, Rmax.
  destruct (Rle_dec x 0); destruct (Rle_dec _ 1); lra.
Qed.

(** X5.  For non-negative weights wp[t] and alpha >= 0 (so that no square root
    is taken of a negative number) the l1/l2 loss is non-negative for
    non-negative blend weights l1, l2; the asymmetric loss is non-negative;
    the exponential loss lies between 0 and the number D of residual
    dimensions. *)
Theorem losses_bounded (l1 l2 alpha : R) (t : nat) :
  0 <= l1 -> 0 <= l2 -> 0 <= alpha ->
  (forall i, (i < D)%nat -> 0 <= wp t i) ->
  (let '(l, _, _) := evall1l2term D wp d Jd Jdd l1 l2 alpha in 0 <= l t) /\
  (let '(l, _, _) := evalasymetric D wp d Jd Jdd alpha in 0 <= l t) /\
  (let '(l, _, _) := evalexp D wp d Jd Jdd in 0 <= l t <= INR D).
Proof.
  intros Hl1 Hl2 _ _.
  cbv beta iota zeta delta [evall1l2term evalasymetric evalexp]. simpl.
  change (@np_sum R exact) with rsum. unfold pow2. simpl.
  repeat split.
  - pose proof (rsum_sq_nonneg D (fun i => d t i * sqrt (wp t i))).
    pose proof (sqrt_pos
      (alpha + rsum D (fun i => d t i * wp t i * (d t i * wp t i)))).
    nra.
  - assert (0 <= rsum D (fun i =>
      d t i * d t i *
      (wp t i * wp t i * ((Rsign (d t i) + alpha) * (Rsign (d t i) + alpha))))).
    { apply rsum_nonneg. intros i _.
      pose proof (Rle_0_sqr (d t i)). pose proof (Rle_0_sqr (wp t i)).
      pose proof (Rle_0_sqr (Rsign (d t i) + alpha)). unfold Rsqr in *.
      apply Rmult_le_pos; [assumption |].
      apply Rmult_le_pos; assumption. }
    lra.
  - apply rsum_nonneg. intros. apply Rclip_unit.
  - rewrite <- (Rmult_1_r (INR D)), <- rsum_const.
    apply rsum_le. intros. apply Rclip_unit.
Qed.

(** X6.  The gradient of the exponential shape is bounded whatever the residual:
    |lx[t,a]| <= sum over i of |Jd[t,i,a]| * |wp[t,i]|. *)
Theorem evalexp_gradient_capped (t a : nat) :
  let '(_, lx, _) := evalexp D wp d Jd Jdd in
  Rabs (lx t a) <= rsum D (fun i => Rabs (Jd t i a) * Rabs (wp t i)).
Proof.
  cbv beta iota zeta delta [evalexp]. simpl.
  change (@np_sum R exact) with rsum.
  eapply Rle_trans; [apply rsum_abs_le |].
  apply rsum_le. intros i _. cbv beta.
  rewrite !Rabs_mult, Rabs_Ropp.
  pose proof (Rclip_unit (exp (d t i * wp t i))) as Hc.
  rewrite (Rabs_pos_eq (Rclip _ 0 1)) by tauto.
  pose proof (Rabs_pos (Jd t i a)). pose proof (Rabs_pos (wp t i)).
  assert (Rabs (wp t i) * Rclip (exp (d t i * wp t i)) 0 1 <= Rabs (wp t i))
    by nra.
  nra.
Qed.

(** X7.  The asymmetric shape with alpha = 1 charges nothing for residuals that
    are all non-positive, and with alpha = -1 nothing for residuals that are
    all non-negative: loss and gradient are zero there. *)
Theorem evalasymetric_one_sided (t a : nat) :
  ((forall i, (i < D)%nat -> d t i <= 0) ->
   let '(l, lx, _) := evalasymetric D wp d Jd Jdd 1 in
   l t = 0 /\ lx t a = 0) /\
  ((forall i, (i < D)%nat -> 0 <= d t i) ->
   let '(l, lx, _) := evalasymetric D wp d Jd Jdd (-1) in
   l t = 0 /\ lx t a = 0).
Proof.
  cbv beta iota zeta delta [evalasymetric]. simpl.
  change (@np_sum R exact) with rsum. unfold pow2. simpl.
  split; intros Hd.
  - assert (Hz : forall i, (i < D)%nat ->
              d t i * (Rsign (d t i) + 1) = 0).
    { intros i Hi. pose proof (Hd i Hi). unfold Rsign.
      destruct (Rlt_dec 0 (d t i)); [lra |].
      destruct (Rlt_dec (d t i) 0); [lra |].
      assert (d t i = 0) by lra. nra. }
    split.
    + rewrite rsum_zero; [lra |]. intros i Hi. cbv beta.
      transitivity (d t i * (Rsign (d t i) + 1) *
                    (d t i * (Rsign (d t i) + 1)) * (wp t i * wp t i));
        [ring | rewrite (Hz i Hi); ring].
    + apply rsum_zero. intros i Hi. cbv beta.
      transitivity (Jd t i a * (d t i * (Rsign (d t i) + 1)) *
                    (wp t i * wp t i * (Rsign (d t i) + 1)));
        [ring | rewrite (Hz i Hi); ring].
  - assert (Hz : forall i, (i < D)%nat ->
              d t i * (Rsign (d t i) + -1) = 0).
    { intros i Hi. pose proof (Hd i Hi). unfold Rsign.
      destruct (Rlt_dec 0 (d t i)); [lra |].
      destruct (Rlt_dec (d t i) 0); [lra |].
      assert (d t i = 0) by lra. nra. }
    split.
    + rewrite rsum_zero; [lra |]. intros i Hi. cbv beta.
      transitivity (d t i * (Rsign (d t i) + -1) *
                    (d t i * (Rsign (d t i) + -1)) * (wp t i * wp t i));
        [ring | rewrite (Hz i Hi); ring].
    + apply rsum_zero. intros i Hi. cbv beta.
      transitivity (Jd t i a * (d t i * (Rsign (d t i) + -1)) *
                    (wp t i * wp t i * (Rsign (d t i) + -1)));
        [ring | rewrite (Hz i Hi); ring].
Qed.

End ShapeBounds.

Lemma losses_bounded_witness :
  let '(l, _, _) :=
    CostUtils.evalexp 3 (fun _ _ => 1) (fun _ _ => 2) (fun _ _ _ => 1)
      (fun _ _ _ _ => 0) in
  0 <= l 0%nat <= INR 3.
Proof.
  exact (proj2 (proj2 (losses_bounded 3 (fun _ _ => 1) (fun _ _ => 2)
                         (fun _ _ _ => 1) (fun _ _ _ _ => 0) 1 1 1 0%nat
                         ltac:(lra) ltac:(lra) ltac:(lra)
                         ltac:(intros; lra)))).
Defined.

Lemma evalasymetric_one_sided_witness :
  let '(l, lx, _) :=
    CostUtils.evalasymetric 2 (fun _ _ => 1) (fun _ _ => -3) (fun _ _ _ => 1)
      (fun _ _ _ _ => 0) 1 in
  l 0%nat = 0 /\ lx 0%nat 0%nat = 0.
Proof.
  exact (proj1 (evalasymetric_one_sided 2 (fun _ _ => 1) (fun _ _ => -3)
                  (fun _ _ _ => 1) (fun _ _ _ _ => 0) 0%nat 0%nat)
           ltac:(intros; lra)).
Defined.

(** ** The gradients of the blend shapes are derivatives of their losses *)

Section BlendGradients.
Import LinAlg CostUtils Shapes.

Lemma rsum_split_at (n a : nat) (f : nat -> R) :
  (a < n)%nat ->
  rsum n f = rsum n (fun i => if Nat.eqb i a then 0 else f i) + f a.
Proof.
  induction n as [| n IH]; intros Ha; [lia |].
  rewrite !rsum_S. destruct (Nat.eqb_spec n a) as [-> | Hne].
  - rewrite (rsum_ext a (fun i => if Nat.eqb i a then 0 else f i) f).
    + lra.
    + intros i Hi. destruct (Nat.eqb_spec i a); [lia | reflexivity].
  - rewrite IH by lia. lra.
Qed.

Lemma rsum_eye_col (n a : nat) (f : nat -> R) :
  (a < n)%nat -> rsum n (fun i => eye i a * f i) = f a.
Proof.
  intros Ha. rewrite <- (rsum_eye_l n a f Ha). apply rsum_ext.
  intros i _. unfold identity. rewrite (eye_sym i a). reflexivity.
Qed.

Lemma quadratic_derivative (K c x0 : R) :
  derivable_pt_lim (fun x => K + x * c * (x * c)) x0 (2 * x0 * (c * c)).
Proof.
  apply (derivable_pt_lim_ext
           (fct_cte K + mult_real_fct (c * c) (id * id))%F).
  { intros z. unfold plus_fct, fct_cte, mult_real_fct, mult_fct, id. ring. }
  replace (2 * x0 * (c * c)) with (0 + c * c * (1 * id x0 + id x0 * 1))
    by (unfold id; ring).
  apply derivable_pt_lim_plus; [apply derivable_pt_lim_const |].
  apply derivable_pt_lim_scal.
  apply derivable_pt_lim_mult; apply derivable_pt_lim_id.
Qed.

(** A sum of squares of scaled residuals as a function of one residual. *)
Lemma square_sum_derivative (n a : nat) (c d0 : nat -> R) (x0 : R) :
  (a < n)%nat ->
  derivable_pt_lim
    (fun x => rsum n (fun i => (if Nat.eqb i a then x else d0 i) * c i *
                               ((if Nat.eqb i a then x else d0 i) * c i)))
    x0 (2 * x0 * (c a * c a)).
Proof.
  intros Ha.
  apply (derivable_pt_lim_ext
           (fun x => rsum n (fun i => if Nat.eqb i a then 0
                                      else d0 i * c i * (d0 i * c i)) +
                     x * c a * (x * c a))).
  - intros z. symmetry.
    rewrite (rsum_split_at n a _ Ha). rewrite Nat.eqb_refl. f_equal.
    apply rsum_ext. intros i _. destruct (Nat.eqb i a); reflexivity.
  - apply quadratic_derivative.
Qed.

Variable D : nat.
Variables (wp d : arr2 R) (Jdd : arr4 R).

Let sq (c : nat -> R) (t a : nat) (x : R) : R :=
  rsum D (fun i => (if Nat.eqb i a then x else d t i) * c i *
                   ((if Nat.eqb i a then x else d t i) * c i)).

Lemma sq_at (c : nat -> R) (t a : nat) :
  sq c t a (d t a) = rsum D (fun i => d t i * c i * (d t i * c i)).
Proof.
  unfold sq. apply rsum_ext. intros i _.
  destruct (Nat.eqb_spec i a) as [-> | _]; reflexivity.
Qed.

Lemma with_residual_row (t a i : nat) (x : R) :
  with_residual d t a x t i = if Nat.eqb i a then x else d t i.
Proof. unfold with_residual. rewrite Nat.eqb_refl. reflexivity. Qed.

(** X8.  Take the residual to be the state (Jd[t] the identity), alpha > 0 and
    non-negative weights wp[t].  Then the gradient entry lx[t,a] returned by
    the l1/l2 shape, and by the log-l2 shape, is the derivative of the
    returned loss l[t] with respect to the residual entry d[t,a]. *)
Theorem blend_gradient_is_derivative (l1 l2 alpha : R) (t a : nat) :
  0 < alpha -> (forall i, (i < D)%nat -> 0 <= wp t i) -> (a < D)%nat ->
  derivable_pt_lim
    (fun x =>
       let '(l, _, _) :=
         evall1l2term D wp (with_residual d t a x) identity_jacobian Jdd
           l1 l2 alpha in l t)
    (d t a)
    (let '(_, lx, _) :=
       evall1l2term D wp d identity_jacobian Jdd l1 l2 alpha in lx t a) /\
  derivable_pt_lim
    (fun x =>
       let '(l, _, _) :=
         evallogl2term D wp (with_residual d t a x) identity_jacobian Jdd
           l1 l2 alpha in l t)
    (d t a)
    (let '(_, lx, _) :=
       evallogl2term D wp d identity_jacobian Jdd l1 l2 alpha in lx t a).
Proof.
  intros Halpha Hwps Ha. pose proof (Hwps a Ha) as Hwp.
  set (x0 := d t a).
  set (s := fun i => sqrt (wp t i)). set (w := fun i => wp t i).
  assert (Hss : s a * s a = wp t a) by (apply sqrt_sqrt; exact Hwp).
  assert (Hq1 := square_sum_derivative D a s (d t) x0 Ha).
  assert (Hq2 := square_sum_derivative D a w (d t) x0 Ha).
  fold (sq s t a) in Hq1. fold (sq w t a) in Hq2.
  assert (Hpos : 0 < alpha + sq w t a x0).
  { unfold sq. pose proof (rsum_sq_nonneg D
      (fun i => (if Nat.eqb i a then x0 else d t i) * w i)). simpl in *. lra. }
  assert (Hat : sq w t a x0 =
                rsum D (fun i => d t i * wp t i * (d t i * wp t i)))
    by apply sq_at.
  assert (Hshift : derivable_pt_lim (fct_cte alpha + sq w t a)%F x0
                     (0 + 2 * x0 * (w a * w a))).
  { apply derivable_pt_lim_plus; [apply derivable_pt_lim_const | exact Hq2]. }
  split.
  - apply (derivable_pt_lim_ext
             (mult_real_fct (1 / 2 * l2) (sq s t a) +
              mult_real_fct l1 (comp sqrt (fct_cte alpha + sq w t a)))%F).
    { intros z. cbv beta iota zeta delta [evall1l2term]. simpl.
      change (@np_sum R exact) with rsum. unfold pow2. simpl.
      unfold plus_fct, mult_real_fct, comp, fct_cte, sq, s, w.
      rewrite (rsum_ext D _ _
                 (fun i _ => f_equal2 Rmult
                    (f_equal2 Rmult (with_residual_row t a i z) eq_refl)
                    (f_equal2 Rmult (with_residual_row t a i z) eq_refl))).
      rewrite (rsum_ext D
                 (fun i => with_residual d t a z t i * wp t i *
                           (with_residual d t a z t i * wp t i)) _
                 (fun i _ => f_equal2 Rmult
                    (f_equal2 Rmult (with_residual_row t a i z) eq_refl)
                    (f_equal2 Rmult (with_residual_row t a i z) eq_refl))).
      ring. }
    replace (let '(_, lx, _) :=
               evall1l2term D wp d identity_jacobian Jdd l1 l2 alpha in lx t a)
      with (1 / 2 * l2 * (2 * x0 * (s a * s a)) +
            l1 * (/ (2 * sqrt ((fct_cte alpha + sq w t a)%F x0)) *
                  (0 + 2 * x0 * (w a * w a)))).
    { apply derivable_pt_lim_plus.
      - apply derivable_pt_lim_scal. exact Hq1.
      - apply derivable_pt_lim_scal.
        apply derivable_pt_lim_comp; [exact Hshift |].
        apply derivable_pt_lim_sqrt. exact Hpos. }
    cbv beta iota zeta delta [evall1l2term identity_jacobian]. simpl.
    change (@np_sum R exact) with rsum. unfold pow2. simpl.
    rewrite (rsum_eye_col D a
               (fun i => d t i * wp t i * l2 +
                         d t i * (wp t i * wp t i) /
                         sqrt (alpha + rsum D (fun i' =>
                                 d t i' * wp t i' * (d t i' * wp t i'))) * l1))
      by exact Ha.
    unfold plus_fct, fct_cte. rewrite Hss, Hat. unfold w, x0.
    pose proof (sqrt_lt_R0 _ Hpos) as Hsq. rewrite Hat in Hsq.
    field. lra.
  - apply (derivable_pt_lim_ext
             (mult_real_fct (1 / 2 * l2) (sq s t a) +
              mult_real_fct (1 / 2 * l1) (comp ln (fct_cte alpha + sq w t a)))%F).
    { intros z. cbv beta iota zeta delta [evallogl2term]. simpl.
      change (@np_sum R exact) with rsum. unfold pow2. simpl.
      unfold plus_fct, mult_real_fct, comp, fct_cte, sq, s, w.
      rewrite (rsum_ext D _ _
                 (fun i _ => f_equal2 Rmult
                    (f_equal2 Rmult (with_residual_row t a i z) eq_refl)
                    (f_equal2 Rmult (with_residual_row t a i z) eq_refl))).
      rewrite (rsum_ext D
                 (fun i => with_residual d t a z t i * wp t i *
                           (with_residual d t a z t i * wp t i)) _
                 (fun i _ => f_equal2 Rmult
                    (f_equal2 Rmult (with_residual_row t a i z) eq_refl)
                    (f_equal2 Rmult (with_residual_row t a i z) eq_refl))).
      ring. }
    replace (let '(_, lx, _) :=
               evallogl2term D wp d identity_jacobian Jdd l1 l2 alpha in lx t a)
      with (1 / 2 * l2 * (2 * x0 * (s a * s a)) +
            1 / 2 * l1 * (/ ((fct_cte alpha + sq w t a)%F x0) *
                          (0 + 2 * x0 * (w a * w a)))).
    { apply derivable_pt_lim_plus.
      - apply derivable_pt_lim_scal. exact Hq1.
      - apply derivable_pt_lim_scal.
        apply derivable_pt_lim_comp; [exact Hshift |].
        apply derivable_pt_lim_ln. exact Hpos. }
    cbv beta iota zeta delta [evallogl2term identity_jacobian]. simpl.
    change (@np_sum R exact) with rsum. unfold pow2. simpl.
    rewrite (rsum_eye_col D a
               (fun i => d t i * wp t i * l2 +
                         d t i * (wp t i * wp t i) /
                         (alpha + rsum D (fun i' =>
                                 d t i' * wp t i' * (d t i' * wp t i'))) * l1))
      by exact Ha.
    unfold plus_fct, fct_cte. rewrite Hss, Hat. unfold w, x0.
    rewrite Hat in Hpos. field. lra.
Qed.

End BlendGradients.

Lemma blend_gradient_is_derivative_witness :
  derivable_pt_lim
    (fun x =>
       let '(l, _, _) :=
         CostUtils.evall1l2term 1 (fun _ _ => 1)
           (Shapes.with_residual (fun _ _ => 2) 0 0 x)
           Shapes.identity_jacobian (fun _ _ _ _ => 0) 1 1 1 in l 0%nat)
    2
    (let '(_, lx, _) :=
       CostUtils.evall1l2term 1 (fun _ _ => 1) (fun _ _ => 2)
         Shapes.identity_jacobian (fun _ _ _ _ => 0) 1 1 1 in lx 0%nat 0%nat).
Proof.
  exact (proj1 (blend_gradient_is_derivative 1 (fun _ _ => 1) (fun _ _ => 2)
                  (fun _ _ _ _ => 0) 1 1 1 0%nat 0%nat
                  ltac:(lra) ltac:(intros; lra) ltac:(lia))).
Defined.

(** ** The action cost *)

Section ActionCost.
Import LinAlg CostAction.

(** X9.  The expansion [CostAction.eval] returns is exact: moving the actions of
    a sample by any [h] changes the loss by the first-order term lu.h plus
    the second-order term h.luu.h / 2, with nothing left over. *)
Theorem action_cost_expansion_exact (hp : Hyperparams) (s s' : Sample)
    (h : nat -> nat -> R) (t : nat) :
  dU s' = dU s ->
  (forall i, (i < dU s)%nat -> get_U s' t i = get_U s t i + h t i) ->
  l (eval hp s') t =
  l (eval hp s) t +
  rsum (dU s) (fun i => lu (eval hp s) t i * h t i) +
  1 / 2 * rsum (dU s) (fun i =>
            h t i * rsum (dU s) (fun j => luu (eval hp s) t i j * h t j)).
Proof.
  intros HdU Hh. simpl. rewrite HdU.
  set (u := fun i => get_U s t i - target_state hp i).
  assert (Hdiag : forall i, (i < dU s)%nat ->
            rsum (dU s) (fun j => np_diag (wu hp) i j * h t j) =
            wu hp i * h t i).
  { intros i Hi.
    rewrite (rsum_ext _ _ (fun j => identity i j * (wu hp i * h t j))).
    - apply (rsum_eye_l (dU s) i (fun j => wu hp i * h t j)). exact Hi.
    - intros j _. unfold np_diag, identity, eye.
      destruct (Nat.eqb i j); simpl; ring. }
  rewrite (rsum_ext (dU s) _
             (fun i => wu hp i * (u i * u i) +
                       (2 * (wu hp i * u i * h t i) +
                        h t i * (wu hp i * h t i)))).
  - rewrite (rsum_ext (dU s)
               (fun i => h t i *
                         rsum (dU s) (fun j => np_diag (wu hp) i j * h t j))
               (fun i => h t i * (wu hp i * h t i)))
      by (intros i Hi; rewrite (Hdiag i Hi); reflexivity).
    rewrite !rsum_plus, rsum_scal_l. unfold u. lra.
  - intros i Hi. rewrite (Hh i Hi). unfold u. ring.
Qed.

(** X10.  With non-negative weights the action loss is non-negative, and at the
    target action both the loss and the action gradient vanish. *)
Theorem action_cost_minimum (hp : Hyperparams) (s : Sample) (t : nat) :
  ((forall i, (i < dU s)%nat -> 0 <= wu hp i) -> 0 <= l (eval hp s) t) /\
  ((forall i, (i < dU s)%nat -> get_U s t i = target_state hp i) ->
   l (eval hp s) t = 0 /\
   forall i, (i < dU s)%nat -> lu (eval hp s) t i = 0).
Proof.
  split.
  - intros Hw. simpl.
    assert (0 <= rsum (dU s) (fun i =>
              wu hp i * ((get_U s t i - target_state hp i) *
                         (get_U s t i - target_state hp i)))).
    { apply rsum_nonneg. intros i Hi. pose proof (Hw i Hi).
      pose proof (Rle_0_sqr (get_U s t i - target_state hp i)).
      unfold Rsqr in *. apply Rmult_le_pos; assumption. }
    lra.
  - intros Hu. simpl. split.
    + rewrite rsum_zero; [lra |]. intros i Hi. rewrite (Hu i Hi). ring.
    + intros i Hi. rewrite (Hu i Hi). ring.
Qed.

(** X11.  [eval_mu] never subtracts the target action.  On the action
    columns of [mu] it returns the loss, the action gradient and the action
    Hessian that [eval] returns for a sample with those actions when
    target_state is replaced by zeros, whatever target_state is configured;
    so against [eval] with the configured target on the same actions its
    gradient is larger by wu[i] * target_state[i] in every coordinate. *)
Theorem eval_mu_ignores_target (hp : Hyperparams) (s : Sample)
    (mu : nat -> nat -> R) (t : nat) :
  (forall i, (i < dU s)%nat -> get_U s t i = mu t (dX s + i)%nat) ->
  let zero_target := {| wu := wu hp; target_state := fun _ => 0 |} in
  l (eval_mu hp mu (T s) (dU s) (dX s)) t = l (eval zero_target s) t /\
  (forall i, (i < dU s)%nat ->
     lu (eval_mu hp mu (T s) (dU s) (dX s)) t i = lu (eval zero_target s) t i /\
     lu (eval_mu hp mu (T s) (dU s) (dX s)) t i =
     lu (eval hp s) t i + wu hp i * target_state hp i) /\
  luu (eval_mu hp mu (T s) (dU s) (dX s)) t = luu (eval zero_target s) t.
Proof.
  intros Hmu. simpl. split; [| split].
  - f_equal. apply rsum_ext. intros i Hi. rewrite (Hmu i Hi). ring.
  - intros i Hi. rewrite (Hmu i Hi). split; ring.
  - reflexivity.
Qed.

Lemma action_cost_expansion_exact_witness :
  let hp := {| wu := fun _ => 2; target_state := fun _ => 1 |} in
  let s := {| T := 1; dU := 2; dX := 1; get_U := fun _ _ => 3 |} in
  let s' := {| T := 1; dU := 2; dX := 1; get_U := fun _ _ => 4 |} in
  l (eval hp s') 0 =
  l (eval hp s) 0 + rsum 2 (fun i => lu (eval hp s) 0 i * 1) +
  1 / 2 * rsum 2 (fun i => 1 * rsum 2 (fun j => luu (eval hp s) 0 i j * 1)).
Proof.
  apply (action_cost_expansion_exact
           {| wu := fun _ => 2; target_state := fun _ => 1 |}
           {| T := 1; dU := 2; dX := 1; get_U := fun _ _ => 3 |}
           {| T := 1; dU := 2; dX := 1; get_U := fun _ _ => 4 |}
           (fun _ _ => 1) 0).
  - reflexivity.
  - intros i _. simpl. lra.
Defined.

Lemma action_cost_minimum_witness :
  0 <= l (eval {| wu := fun _ => 2; target_state := fun _ => 1 |}
            {| T := 1; dU := 2; dX := 1; get_U := fun _ _ => 3 |}) 0.
Proof.
  apply (proj1 (action_cost_minimum
                  {| wu := fun _ => 2; target_state := fun _ => 1 |}
                  {| T := 1; dU := 2; dX := 1; get_U := fun _ _ => 3 |} 0)).
  intros i _. simpl. lra.
Defined.

Lemma eval_mu_ignores_target_witness :
  lu (eval_mu {| wu := fun _ => 2; target_state := fun _ => 1 |}
        (fun _ _ => 3) 1 2 1) 0 0 =
  lu (eval {| wu := fun _ => 2; target_state := fun _ => 1 |}
        {| T := 1; dU := 2; dX := 1; get_U := fun _ _ => 3 |}) 0 0 + 2 * 1.
Proof.
  refine (proj2 (proj1 (proj2 (eval_mu_ignores_target
                   {| wu := fun _ => 2; target_state := fun _ => 1 |}
                   {| T := 1; dU := 2; dX := 1; get_U := fun _ _ => 3 |}
                   (fun _ _ => 3) 0 _)) 0%nat _)).
  - intros i _. reflexivity.
  - simpl. lia.
Defined.

End ActionCost.

(** ** Initial controllers *)

Section InitialPolicies.
Import LinAlg InitPolicy.

Lemma inv_spec (n : nat) (a ai : mat) :
  inv n a = Ok ai -> inverse_of n a ai.
Proof.
  unfold inv. destruct (decide_prop (invertible n a)) as [[b Hb] | _];
    [| discriminate].
  intros [= <-].
  assert (Heq : mat_eq n n (solve n n a identity) b).
  { eapply mat_eq_trans; [apply (solve_invertible n n a b identity Hb) |].
    apply dot_identity_r. }
  destruct Hb as [H1 H2]. split.
  - eapply mat_eq_trans; [apply dot_ext; [apply mat_eq_refl | exact Heq] |].
    exact H1.
  - eapply mat_eq_trans; [apply dot_ext; [exact Heq | apply mat_eq_refl] |].
    exact H2.
Qed.

Lemma inv_ok (n : nat) (a : mat) :
  invertible n a -> exists ai, inv n a = Ok ai.
Proof.
  intros Ha. unfold inv.
  destruct (decide_prop (invertible n a)); [eexists; reflexivity |].
  contradiction.
Qed.

Lemma inv_singular (n : nat) (a : mat) :
  ~ invertible n a -> inv n a = Raise (LinAlgError "Singular matrix").
Proof.
  intros Ha. unfold inv.
  destruct (decide_prop (invertible n a)); [contradiction | reflexivity].
Qed.

Lemma cholesky_spec (n : nat) (a L : mat) :
  cholesky n a = Ok L -> cholesky_factor n a L.
Proof.
  unfold cholesky.
  destruct (decide_prop (exists L', cholesky_factor n a L')) as [HL | _];
    [| discriminate].
  intros [= <-]. apply epsilon_spec. exact HL.
Qed.

Lemma cholesky_ok (n : nat) (a : mat) :
  (exists L, cholesky_factor n a L) -> exists L, cholesky n a = Ok L.
Proof.
  intros Ha. unfold cholesky.
  destruct (decide_prop (exists L', cholesky_factor n a L'));
    [eexists; reflexivity | contradiction].
Qed.

Lemma cholesky_fails (n : nat) (a : mat) :
  ~ (exists L, cholesky_factor n a L) ->
  cholesky n a = Raise (LinAlgError "Matrix is not positive definite").
Proof.
  intros Ha. unfold cholesky.
  destruct (decide_prop (exists L', cholesky_factor n a L'));
    [contradiction | reflexivity].
Qed.

Lemma cholesky_factor_ext (n : nat) (a a' L : mat) :
  mat_eq n n a a' -> cholesky_factor n a L -> cholesky_factor n a' L.
Proof.
  intros Ha (Hlow & Hdiag & Hprod). split; [exact Hlow |].
  split; [exact Hdiag |]. intros i j Hji Hi.
  rewrite (Hprod i j Hji Hi). apply Ha; lia.
Qed.

Lemma cholesky_factor_identity (n : nat) : cholesky_factor n identity identity.
Proof.
  split; [| split].
  - intros i j Hij _. unfold identity, eye.
    destruct (Nat.eqb_spec i j); [lia | reflexivity].
  - intros i _. unfold identity, eye. rewrite Nat.eqb_refl. simpl. lra.
  - intros i j Hji Hi.
    rewrite (dot_identity_l n n (transpose identity) i j) by lia.
    apply transpose_identity.
Qed.

Lemma inverse_of_sym (n : nat) (X Y : mat) :
  inverse_of n X Y -> inverse_of n Y X.
Proof. intros [H1 H2]. split; assumption. Qed.

Lemma inverse_of_ext_l (n : nat) (X X' Y : mat) :
  mat_eq n n X X' -> inverse_of n X Y -> inverse_of n X' Y.
Proof.
  intros HX [H1 H2]. split.
  - eapply mat_eq_trans; [| exact H1].
    apply dot_ext; [apply mat_eq_sym; exact HX | apply mat_eq_refl].
  - eapply mat_eq_trans; [| exact H2].
    apply dot_ext; [apply mat_eq_refl | apply mat_eq_sym; exact HX].
Qed.

(** A loop whose body returns on every row fills every row with what the
    body returned for it. *)
Lemma fill_ok {X : Type} (ts : list nat) (body : nat -> result X)
    (A : nat -> X) :
  (forall t, t ∈ ts -> exists v, body t = Ok v) ->
  exists rows,
    fill ts body A = Ok rows /\
    (forall t, t ∈ ts -> body t = Ok (rows t)) /\
    (forall t, t ∉ ts -> rows t = A t).
Proof.
  revert A. induction ts as [| t0 ts IH]; intros A Hbody.
  - exists A. split; [reflexivity |]. split.
    + intros t Ht. apply elem_of_nil in Ht. contradiction.
    + reflexivity.
  - destruct (Hbody t0) as [v Hv]; [apply elem_of_cons; left; reflexivity |].
    destruct (IH (fun t' => if Nat.eqb t' t0 then v else A t'))
      as (rows & Hrun & Hin & Hout).
    { intros t Ht. apply Hbody. apply elem_of_cons. right. exact Ht. }
    exists rows. split; [simpl; rewrite Hv; exact Hrun |]. split.
    + intros t Ht.
      destruct (decide_prop (t ∈ ts)) as [Hts | Hts]; [apply Hin, Hts |].
      apply elem_of_cons in Ht. destruct Ht as [-> | Ht]; [| contradiction].
      rewrite (Hout t0 Hts), Nat.eqb_refl. exact Hv.
    + intros t Ht. rewrite Hout.
      * destruct (Nat.eqb_spec t t0) as [-> | _]; [| reflexivity].
        exfalso. apply Ht. apply elem_of_cons. left. reflexivity.
      * intros Hts. apply Ht. apply elem_of_cons. right. exact Hts.
Qed.

(** A loop with a row on which the body raises raises. *)
Lemma fill_raises {X : Type} (ts : list nat) (body : nat -> result X)
    (A : nat -> X) (t : nat) (e : exn) :
  t ∈ ts -> body t = Raise e -> exists e', fill ts body A = Raise e'.
Proof.
  revert A. induction ts as [| t0 ts IH]; intros A Ht He.
  - apply elem_of_nil in Ht. contradiction.
  - simpl. destruct (body t0) as [v | e0] eqn:E0; [| exists e0; reflexivity].
    simpl. apply IH; [| exact He].
    apply elem_of_cons in Ht. destruct Ht as [-> | Ht]; [| exact Ht].
    rewrite E0 in He. discriminate He.
Qed.

(** What a loop raises was raised by its body on one of the rows. *)
Lemma fill_raise_from {X : Type} (ts : list nat) (body : nat -> result X)
    (A : nat -> X) (e : exn) :
  fill ts body A = Raise e -> exists t, t ∈ ts /\ body t = Raise e.
Proof.
  revert A. induction ts as [| t0 ts IH]; intros A; simpl; [discriminate |].
  destruct (body t0) as [v | e0] eqn:E0; simpl.
  - intros H. destruct (IH _ H) as (t & Ht & Hb). exists t.
    split; [apply elem_of_cons; right; exact Ht | exact Hb].
  - intros [= <-]. exists t0.
    split; [apply elem_of_cons; left; reflexivity | exact E0].
Qed.

(** X12.  [init_pol] returns a controller when init_var has a Cholesky
    factor and an inverse: at every step t < T the mean action
    K[t].x + k[t] is init_const whatever the state x, pol_covar[t] is
    init_var, chol_pol_covar[t] is its Cholesky factor and inv_pol_covar[t]
    its inverse.  With T >= 1 it raises LinAlgError when init_var has no
    Cholesky factor, and when it has one but is singular. *)
Theorem init_pol_constant_actions (hp : Hyperparams) :
  ((exists L, cholesky_factor (dU hp) (init_var hp) L) ->
   invertible (dU hp) (init_var hp) ->
   exists pol,
     init_pol hp = Ok pol /\ MDGPS.T pol = T hp /\
     forall t, (t < T hp)%nat ->
       (forall x, vec_eq (dU hp)
          (fun i => dotv (dX hp) (MDGPS.K pol t) x i + MDGPS.k pol t i)
          (init_const hp)) /\
       MDGPS.pol_covar pol t = init_var hp /\
       cholesky_factor (dU hp) (init_var hp) (MDGPS.chol_pol_covar pol t) /\
       inverse_of (dU hp) (init_var hp) (MDGPS.inv_pol_covar pol t)) /\
  ((1 <= T hp)%nat ->
   ~ (exists L, cholesky_factor (dU hp) (init_var hp) L) ->
   init_pol hp = Raise (LinAlgError "Matrix is not positive definite")) /\
  ((1 <= T hp)%nat ->
   (exists L, cholesky_factor (dU hp) (init_var hp) L) ->
   ~ invertible (dU hp) (init_var hp) ->
   init_pol hp = Raise (LinAlgError "Singular matrix")).
Proof.
  split; [| split].
  - intros Hchol Hinv. unfold init_pol.
    destruct (cholesky_ok _ _ Hchol) as [L HL].
    destruct (inv_ok _ _ Hinv) as [ai Hai].
    match goal with
    | |- context [fill ?ts ?body ?A] =>
        destruct (fill_ok ts body A) as (rows & Hrun & Hin & _)
    end.
    { intros t _. rewrite HL, Hai. eexists. reflexivity. }
    rewrite Hrun. simpl. eexists. split; [reflexivity |].
    split; [reflexivity |]. intros t Ht.
    assert (Hrow : rows t = (init_const hp, init_var hp, L, ai)).
    { specialize (Hin t ltac:(apply elem_of_seq; lia)).
      rewrite HL, Hai in Hin. simpl in Hin. injection Hin as <-.
      reflexivity. }
    simpl. rewrite Hrow. simpl. split; [| split; [| split]].
    + intros x i _. unfold dotv. rewrite rsum_zero; [lra |].
      intros j _. ring.
    + reflexivity.
    + apply cholesky_spec. exact HL.
    + apply inv_spec. exact Hai.
  - intros HT Hchol. unfold init_pol.
    destruct (T hp) as [| n]; [lia |].
    change (seq 0 (S n)) with (0%nat :: seq 1 n). simpl.
    rewrite (cholesky_fails _ _ Hchol). reflexivity.
  - intros HT Hchol Hinv. unfold init_pol.
    destruct (T hp) as [| n]; [lia |].
    change (seq 0 (S n)) with (0%nat :: seq 1 n). simpl.
    destruct (cholesky_ok _ _ Hchol) as [L ->]. simpl.
    rewrite (inv_singular _ _ Hinv). reflexivity.
Qed.

Lemma init_pol_constant_actions_witness :
  exists pol,
    init_pol {| dU := 2; dX := 3; T := 4; init_const := fun _ => 1;
                init_var := identity |} = Ok pol /\
    inverse_of 2 identity (MDGPS.inv_pol_covar pol 0).
Proof.
  destruct (proj1 (init_pol_constant_actions
                     {| dU := 2; dX := 3; T := 4; init_const := fun _ => 1;
                        init_var := identity |}))
    as (pol & Hrun & _ & Hrows).
  - exists identity. apply cholesky_factor_identity.
  - exists identity. apply identity_inverse.
  - exists pol. split; [exact Hrun |].
    destruct (Hrows 0%nat) as (_ & _ & _ & Hinv); [simpl; lia |].
    exact Hinv.
Defined.

Lemma assign_head_ok {X : Type} (A : nat -> X) (T : nat) (value : Loaded X) :
  rows value = (T - 1)%nat ->
  exists A', assign_head A T value = Ok A' /\
    (forall t, (t < T - 1)%nat -> A' t = row value t) /\
    (forall t, (T - 1 <= t)%nat -> A' t = A t).
Proof.
  intros Hrows. unfold assign_head. rewrite Hrows, Nat.eqb_refl. simpl.
  eexists. split; [reflexivity |]. split; intros t Ht.
  - destruct (Nat.ltb_spec t (T - 1)); [| lia].
    destruct (Nat.eqb_spec (T - 1) 1) as [E | _]; [| reflexivity].
    f_equal. lia.
  - destruct (Nat.ltb_spec t (T - 1)); [lia | reflexivity].
Qed.

(** The covariance rows of one step of the loop of lines 49-52. *)
Lemma covariance_rows_spec (n : nat) (P : mat) (r : mat * mat * mat) :
  (PSig_t ← inv n P;
   cholPSig_t ← cholesky n PSig_t;
   inv_pol_covar_t ← inv n PSig_t;
   Ok (PSig_t, cholPSig_t, inv_pol_covar_t)) = Ok r ->
  inverse_of n P r.1.1 /\ cholesky_factor n r.1.1 r.1.2 /\
  inverse_of n r.1.1 r.2.
Proof.
  destruct (inv n P) as [S |] eqn:ES; simpl; [| discriminate].
  destruct (cholesky n S) as [L |] eqn:EL; simpl; [| discriminate].
  destruct (inv n S) as [Si |] eqn:ESi; simpl; [| discriminate].
  intros [= <-]. simpl. split; [apply inv_spec; exact ES |].
  split; [apply cholesky_spec; exact EL | apply inv_spec; exact ESi].
Qed.

Lemma covariance_rows_ok (n : nat) (P : mat) :
  invertible n P ->
  (forall S, inverse_of n P S -> exists L, cholesky_factor n S L) ->
  exists r,
    (PSig_t ← inv n P;
     cholPSig_t ← cholesky n PSig_t;
     inv_pol_covar_t ← inv n PSig_t;
     Ok (PSig_t, cholPSig_t, inv_pol_covar_t)) = Ok r.
Proof.
  intros HP Hpd.
  destruct (inv_ok n P HP) as [S ES]. rewrite ES. simpl.
  pose proof (inv_spec n P S ES) as HS.
  destruct (cholesky_ok n S (Hpd S HS)) as [L ->]. simpl.
  destruct (inv_ok n S) as [Si ->];
    [exists P; apply inverse_of_sym; exact HS |].
  simpl. eexists. reflexivity.
Qed.

Lemma covariance_rows_raise (n : nat) (P : mat) (e : exn) :
  (PSig_t ← inv n P;
   cholPSig_t ← cholesky n PSig_t;
   inv_pol_covar_t ← inv n PSig_t;
   Ok (PSig_t, cholPSig_t, inv_pol_covar_t)) = Raise e ->
  exists msg, e = LinAlgError msg.
Proof.
  assert (Hinv : forall a e', inv n a = Raise e' ->
                   exists msg, e' = LinAlgError msg).
  { intros a e'. unfold inv. destruct (decide_prop (invertible n a));
      [discriminate |]. intros [= <-]. eexists. reflexivity. }
  assert (Hchol : forall a e', cholesky n a = Raise e' ->
                    exists msg, e' = LinAlgError msg).
  { intros a e'. unfold cholesky.
    destruct (decide_prop (exists L', cholesky_factor n a L'));
      [discriminate |]. intros [= <-]. eexists. reflexivity. }
  destruct (inv n P) as [S | e1] eqn:E1; simpl.
  - destruct (cholesky n S) as [L | e2] eqn:E2; simpl.
    + destruct (inv n S) as [Si | e3] eqn:E3; simpl; [discriminate |].
      intros [= <-]. apply (Hinv S). exact E3.
    + intros [= <-]. apply (Hchol S). exact E2.
  - intros [= <-]. apply (Hinv P). exact E1.
Qed.

(** X13.  [init_pol_ctr] on a file whose three arrays have T-1 rows,
    T >= 1.  When every loaded precision is invertible and its inverse has
    a Cholesky factor, a controller is returned: steps t < T-1 take gain and
    bias from the file, their covariance is the inverse of the loaded
    precision, chol_pol_covar[t] its Cholesky factor, and inv_pol_covar[t],
    computed by inverting twice, is the loaded precision again; the last
    step gets zero gain, zero bias and the identity as covariance and
    precision.  When some loaded precision is singular, [init_pol_ctr]
    raises LinAlgError. *)
Theorem init_pol_ctr_loaded (hp : Hyperparams) (data : ControllerFile) :
  (1 <= T hp)%nat ->
  rows (file_K data) = (T hp - 1)%nat ->
  rows (file_k data) = (T hp - 1)%nat ->
  rows (file_prc data) = (T hp - 1)%nat ->
  ((forall t, (t < T hp - 1)%nat ->
      invertible (dU hp) (row (file_prc data) t) /\
      forall S, inverse_of (dU hp) (row (file_prc data) t) S ->
                exists L, cholesky_factor (dU hp) S L) ->
   exists pol,
     init_pol_ctr hp data = Ok pol /\
     MDGPS.T pol = T hp /\
     (forall t, (t < T hp - 1)%nat ->
        MDGPS.K pol t = row (file_K data) t /\
        MDGPS.k pol t = row (file_k data) t /\
        inverse_of (dU hp) (row (file_prc data) t) (MDGPS.pol_covar pol t) /\
        cholesky_factor (dU hp) (MDGPS.pol_covar pol t)
          (MDGPS.chol_pol_covar pol t) /\
        mat_eq (dU hp) (dU hp) (MDGPS.inv_pol_covar pol t)
          (row (file_prc data) t)) /\
     MDGPS.K pol (T hp - 1) = (fun _ _ => 0) /\
     MDGPS.k pol (T hp - 1) = (fun _ => 0) /\
     mat_eq (dU hp) (dU hp) (MDGPS.inv_pol_covar pol (T hp - 1)) identity /\
     mat_eq (dU hp) (dU hp) (MDGPS.pol_covar pol (T hp - 1)) identity) /\
  ((exists t, (t < T hp - 1)%nat /\
      ~ invertible (dU hp) (row (file_prc data) t)) ->
   exists msg, init_pol_ctr hp data = Raise (LinAlgError msg)).
Proof.
  intros HT HK Hk Hprc. unfold init_pol_ctr.
  destruct (assign_head_ok empty_mats (T hp) (file_K data) HK)
    as (K1 & -> & HK1 & _).
  destruct (assign_head_ok empty_vecs (T hp) (file_k data) Hk)
    as (k1 & -> & Hk1 & _).
  destruct (assign_head_ok empty_mats (T hp) (file_prc data) Hprc)
    as (p1 & -> & Hp1 & _).
  destruct (T hp) as [| n] eqn:ET; [lia |].
  remember (seq 0 (S n)) as ts eqn:Ets. simpl. rewrite !Nat.sub_0_r.
  assert (Hts : forall t, t ∈ ts <-> (t <= n)%nat)
    by (intros t; rewrite Ets, elem_of_seq; lia).
  clear Ets.
  set (prc := fun t => if Nat.eqb t n then identity else p1 t).
  assert (Hprc_head : forall t, (t < n)%nat -> prc t = row (file_prc data) t).
  { intros t Ht. unfold prc. destruct (Nat.eqb_spec t n); [lia |].
    apply Hp1. lia. }
  assert (Hprc_last : prc n = identity)
    by (unfold prc; rewrite Nat.eqb_refl; reflexivity).
  split.
  - intros Hgood.
    match goal with
    | |- context [fill ?ts ?body ?A] =>
        destruct (fill_ok ts body A) as (covs & Hrun & Hin & _)
    end.
    { intros t Ht. apply Hts in Ht. cbv beta.
      change (if Nat.eqb t n then identity else p1 t) with (prc t).
      apply covariance_rows_ok.
      - destruct (Nat.eq_dec t n) as [-> | Hne].
        + rewrite Hprc_last. exists identity. apply identity_inverse.
        + rewrite Hprc_head by lia. apply Hgood. lia.
      - destruct (Nat.eq_dec t n) as [-> | Hne].
        + rewrite Hprc_last. intros S HS. exists identity.
          apply (cholesky_factor_ext _ identity); [| apply cholesky_factor_identity].
          apply (inverse_unique _ identity); [apply identity_inverse | exact HS].
        + rewrite Hprc_head by lia. apply Hgood. lia. }
    rewrite Hrun. simpl. eexists. split; [reflexivity |].
    split; [reflexivity |]. simpl.
    assert (Hrows : forall t, (t <= n)%nat ->
              inverse_of (dU hp) (prc t) (covs t).1.1 /\
              cholesky_factor (dU hp) (covs t).1.1 (covs t).1.2 /\
              inverse_of (dU hp) (covs t).1.1 (covs t).2).
    { intros t Ht. apply covariance_rows_spec.
      apply (Hin t). apply Hts. lia. }
    split; [| split; [| split; [| split]]].
    + intros t Ht. destruct (Nat.eqb_spec t n); [lia |].
      split; [apply HK1; lia |]. split; [apply Hk1; lia |].
      destruct (Hrows t ltac:(lia)) as (H1 & H2 & H3).
      rewrite Hprc_head in H1 by lia.
      split; [exact H1 |]. split; [exact H2 |].
      apply (inverse_unique _ (covs t).1.1); [exact H3 |].
      apply inverse_of_sym. exact H1.
    + rewrite Nat.eqb_refl. reflexivity.
    + rewrite Nat.eqb_refl. reflexivity.
    + destruct (Hrows n ltac:(lia)) as (H1 & _ & H3).
      rewrite Hprc_last in H1.
      apply (inverse_unique _ (covs n).1.1); [exact H3 |].
      apply inverse_of_sym. exact H1.
    + destruct (Hrows n ltac:(lia)) as (H1 & _ & _).
      rewrite Hprc_last in H1.
      apply (inverse_unique _ identity); [exact H1 | apply identity_inverse].
  - intros (t & Ht & Hsing).
    match goal with
    | |- context [fill ?ts ?body ?A] =>
        destruct (fill_raises ts body A t (LinAlgError "Singular matrix"))
          as [e He]
    end.
    + apply Hts. lia.
    + cbv beta.
      change (if Nat.eqb t n then identity else p1 t) with (prc t).
      rewrite Hprc_head by lia.
      rewrite (inv_singular _ _ Hsing). reflexivity.
    + destruct (fill_raise_from _ _ _ _ He) as (t' & _ & Hb).
      destruct (covariance_rows_raise _ _ _ Hb) as [msg ->].
      exists msg. rewrite He. reflexivity.
Qed.

(** X14.  [init_pol_ctr] raises when the horizon is empty, and when a loaded array
    has neither T-1 rows nor a single row. *)
Theorem init_pol_ctr_rejects (hp : Hyperparams) (data : ControllerFile) :
  (T hp = 0%nat -> exists e, init_pol_ctr hp data = Raise e) /\
  (rows (file_K data) <> (T hp - 1)%nat -> rows (file_K data) <> 1%nat ->
   init_pol_ctr hp data =
   Raise (ValueError "could not broadcast input array")).
Proof.
  unfold init_pol_ctr. split.
  - intros ->. simpl. unfold assign_head.
    destruct (_ || _); simpl; eexists; reflexivity.
  - intros H1 H2.
    assert (E : assign_head empty_mats (T hp) (file_K data) =
                Raise (ValueError "could not broadcast input array")).
    { unfold assign_head.
      destruct (Nat.eqb_spec (rows (file_K data)) (T hp - 1));
        [contradiction |].
      destruct (Nat.eqb_spec (rows (file_K data)) 1); [contradiction |].
      reflexivity. }
    rewrite E. reflexivity.
Qed.

Lemma init_pol_ctr_loaded_witness :
  let hp := {| dU := 2; dX := 3; T := 4; init_const := fun _ => 0;
               init_var := identity |} in
  let data := {| file_K := {| rows := 3; row := fun _ _ _ => 1 |};
                 file_k := {| rows := 3; row := fun _ _ => 1 |};
                 file_prc := {| rows := 3; row := fun _ => identity |} |} in
  exists pol,
    init_pol_ctr hp data = Ok pol /\
    MDGPS.K pol 0 = (fun _ _ => 1) /\
    MDGPS.K pol 3 = (fun _ _ => 0).
Proof.
  destruct (proj1 (init_pol_ctr_loaded
              {| dU := 2; dX := 3; T := 4; init_const := fun _ => 0;
                 init_var := identity |}
              {| file_K := {| rows := 3; row := fun _ _ _ => 1 |};
                 file_k := {| rows := 3; row := fun _ _ => 1 |};
                 file_prc := {| rows := 3; row := fun _ => identity |} |}
              ltac:(simpl; lia) eq_refl eq_refl eq_refl))
    as (pol & Hrun & _ & Hhead & Hlast & _).
  - intros t _. simpl. split.
    + exists identity. apply identity_inverse.
    + intros S HS. exists identity.
      apply (cholesky_factor_ext _ identity); [| apply cholesky_factor_identity].
      apply (inverse_unique _ identity); [apply identity_inverse | exact HS].
  - exists pol. split; [exact Hrun |]. split; [| exact Hlast].
    apply (Hhead 0%nat). simpl. lia.
Defined.

Lemma init_pol_ctr_rejects_witness :
  init_pol_ctr
    {| dU := 2; dX := 3; T := 4; init_const := fun _ => 0;
       init_var := identity |}
    {| file_K := {| rows := 2; row := fun _ _ _ => 1 |};
       file_k := {| rows := 3; row := fun _ _ => 1 |};
       file_prc := {| rows := 3; row := fun _ => identity |} |} =
  Raise (ValueError "could not broadcast input array").
Proof.
  apply (proj2 (init_pol_ctr_rejects
                  {| dU := 2; dX := 3; T := 4; init_const := fun _ => 0;
                     init_var := identity |}
                  {| file_K := {| rows := 2; row := fun _ _ _ => 1 |};
                     file_k := {| rows := 3; row := fun _ _ => 1 |};
                     file_prc := {| rows := 3; row := fun _ => identity |} |}));
    simpl; lia.
Defined.

End InitialPolicies.

(** ** The training set of the policy update *)

Section TrainingSet.
Import LinAlg PolicyUpdate.

Lemma collect_ok {B : Type} (indices : list nat) (body : nat -> result B)
    (f : nat -> B) :
  (forall i, i ∈ indices -> body i = Ok (f i)) ->
  collect indices body = Ok (map f indices).
Proof.
  induction indices as [| i rest IH]; intros Hbody; [reflexivity |].
  simpl. rewrite (Hbody i) by (left). simpl.
  rewrite IH by (intros j Hj; apply Hbody; right; exact Hj). reflexivity.
Qed.

Lemma collect_raise {B : Type} (indices : list nat) (body : nat -> result B)
    (i : nat) (e : exn) :
  i ∈ indices -> body i = Raise e ->
  exists e', collect indices body = Raise e'.
Proof.
  induction indices as [| j rest IH]; intros Hi Hbody.
  - inversion Hi.
  - simpl. destruct (body j) as [b | e0] eqn:Ej; [| exists e0; reflexivity].
    simpl. assert (Hin : i ∈ rest).
    { inversion Hi; subst; [rewrite Hbody in Ej; discriminate | assumption]. }
    destruct (IH Hin Hbody) as [e' ->]. exists e'. reflexivity.
Qed.

Lemma bind_ok {A B : Type} (a : A) (body : A -> result B) :
  (Ok a ≫= body) = body a.
Proof. reflexivity. Qed.

Lemma bind_raise {A B : Type} (r : result A) (body : A -> result B) :
  (exists e, r = Raise e) -> exists e, (r ≫= body) = Raise e.
Proof. intros [e ->]. exists e. reflexivity. Qed.

Lemma getitem_lt {X : Type} (l : list X) (i : nat) :
  (i < length l)%nat -> exists x, l !! i = Some x /\ getitem l i = Ok x.
Proof.
  intros Hi. destruct (lookup_lt_is_Some_2 l i Hi) as [x Hx].
  exists x. unfold getitem. rewrite Hx. split; reflexivity.
Qed.

(** X15.  The number of samples is read off condition 0 alone.  When every
    condition has at least that many samples and a controller, the training
    set has one entry per condition, made of the first N samples of the
    condition (further samples are left out) with the mean actions
    K[t].x[t] + k[t] of its controller as targets. *)
Theorem training_set_built (dO : nat) (cur : list (list Sample))
    (trajs : list MDGPS.LinearGaussianPolicy) (first : list Sample) :
  cur !! 0%nat = Some first ->
  (forall samples, samples ∈ cur -> (length first <= length samples)%nat) ->
  (length cur <= length trajs)%nat ->
  exists out,
    training_set dO cur trajs = Ok out /\ length out = length cur /\
    forall m samples traj c,
      cur !! m = Some samples -> trajs !! m = Some traj ->
      out !! m = Some c ->
      X c = take (length first) samples /\
      mu c = map (fun s t i =>
                    dotv dO (MDGPS.K traj t) (s t) i + MDGPS.k traj t i)
               (take (length first) samples) /\
      prc c = MDGPS.inv_pol_covar traj.
Proof.
  intros Hfirst Hlen Htrajs.
  set (N := length first).
  set (row := fun (traj : MDGPS.LinearGaussianPolicy) (s : Sample) =>
                (s, fun t i => dotv dO (MDGPS.K traj t) (s t) i +
                               MDGPS.k traj t i)).
  set (cond := fun m =>
         match cur !! m, trajs !! m with
         | Some samples, Some traj =>
             let rows := map (row traj) (take N samples) in
             {| X := map fst rows; mu := map snd rows;
                K := MDGPS.K traj; k := MDGPS.k traj;
                prc := MDGPS.inv_pol_covar traj |}
         | _, _ => {| X := []; mu := []; K := fun _ _ _ => 0;
                      k := fun _ _ => 0; prc := fun _ _ _ => 0 |}
         end).
  assert (Hrun : training_set dO cur trajs = Ok (map cond (seq 0 (length cur)))).
  { assert (H0 : getitem cur 0 = Ok first)
      by (unfold getitem; rewrite Hfirst; reflexivity).
    unfold training_set. rewrite H0. simpl. fold N.
    apply collect_ok. intros m Hm.
    apply elem_of_seq in Hm. destruct Hm as [_ Hm]. simpl in Hm.
    destruct (getitem_lt cur m Hm) as (samples & Hs & ->).
    destruct (getitem_lt trajs m ltac:(lia)) as (traj & Ht & ->). simpl.
    assert (HN : (N <= length samples)%nat).
    { apply Hlen. apply list_elem_of_lookup. exists m. exact Hs. }
    rewrite (collect_ok (seq 0 N) _
               (fun n => match samples !! n with
                         | Some s => row traj s
                         | None => row traj (fun _ _ => 0)
                         end)).
    - simpl. unfold cond. rewrite Hs, Ht.
      assert (Hrows : map (fun n => match samples !! n with
                                    | Some s => row traj s
                                    | None => row traj (fun _ _ => 0)
                                    end) (seq 0 N) =
                      map (row traj) (take N samples)).
      { apply list_eq. intros n. rewrite !list_lookup_fmap.
        destruct (Nat.lt_ge_cases n N) as [Hn | Hn].
        - rewrite lookup_seq_lt, lookup_take_lt by exact Hn. simpl.
          destruct (lookup_lt_is_Some_2 samples n ltac:(lia)) as [s ->].
          reflexivity.
        - rewrite lookup_seq_ge, lookup_take_ge by exact Hn. reflexivity. }
      rewrite Hrows. reflexivity.
    - intros n Hn. apply elem_of_seq in Hn. destruct Hn as [_ Hn].
      simpl in Hn.
      destruct (getitem_lt samples n ltac:(lia)) as (s & Hsn & ->).
      rewrite Hsn. reflexivity. }
  exists (map cond (seq 0 (length cur))). split; [exact Hrun |].
  split; [rewrite length_map, length_seq; reflexivity |].
  intros m samples traj c Hs Ht Hc.
  rewrite list_lookup_fmap, lookup_seq_lt in Hc
    by (eapply lookup_lt_Some; exact Hs).
  simpl in Hc. injection Hc as <-. unfold cond. rewrite Hs, Ht. simpl.
  rewrite <- !list_fmap_compose. split; [| split]; try reflexivity.
  apply list_fmap_id.
Qed.

(** X16.  [_update_policy] raises IndexError when there is no condition, and when
    some condition has fewer samples than condition 0. *)
Theorem training_set_raises (dO : nat) (cur : list (list Sample))
    (trajs : list MDGPS.LinearGaussianPolicy) :
  (cur = [] ->
   training_set dO cur trajs = Raise (IndexError "list index out of range")) /\
  (forall first samples,
     cur !! 0%nat = Some first -> samples ∈ cur ->
     (length samples < length first)%nat ->
     exists e, training_set dO cur trajs = Raise e).
Proof.
  split.
  - intros ->. reflexivity.
  - intros first samples Hfirst Hin Hshort.
    apply list_elem_of_lookup in Hin. destruct Hin as [m Hm].
    assert (H0 : getitem cur 0 = Ok first)
      by (unfold getitem; rewrite Hfirst; reflexivity).
    unfold training_set. rewrite H0. simpl.
    assert (Hbody : exists e,
      (samples0 ← getitem cur m;
       traj ← getitem trajs m;
       rows ← collect (seq 0 (length first)) (fun n =>
         s ← getitem samples0 n;
         Ok (s, fun t i => dotv dO (MDGPS.K traj t) (s t) i +
                           MDGPS.k traj t i));
       Ok {| X := map fst rows; mu := map snd rows;
             K := MDGPS.K traj; k := MDGPS.k traj;
             prc := MDGPS.inv_pol_covar traj |}) = Raise e).
    { assert (Hgm : getitem cur m = Ok samples)
        by (unfold getitem; rewrite Hm; reflexivity).
      rewrite Hgm, bind_ok.
      destruct (getitem trajs m) as [traj | e]; [| exists e; reflexivity].
      rewrite bind_ok. apply bind_raise.
      apply (collect_raise _ _ (length samples)
               (IndexError "list index out of range")).
      - apply elem_of_seq. simpl. lia.
      - cbv beta. unfold getitem, Sample in *.
        rewrite (lookup_ge_None_2 samples (length samples) (Nat.le_refl _)).
        reflexivity. }
    destruct Hbody as [e He].
    eapply collect_raise; [| exact He].
    apply elem_of_seq. simpl. split; [lia |].
    eapply lookup_lt_Some. exact Hm.
Qed.

Lemma training_set_built_witness :
  let s : Sample := fun _ _ => 1 in
  exists out,
    training_set 1 [[s; s]; [s; s; s]]
      [Scenarios.unit_policy 1; Scenarios.unit_policy 2] = Ok out /\
    length out = 2%nat.
Proof.
  destruct (training_set_built 1
              [[fun _ _ => 1; fun _ _ => 1];
               [fun _ _ => 1; fun _ _ => 1; fun _ _ => 1]]
              [Scenarios.unit_policy 1; Scenarios.unit_policy 2]
              [fun _ _ => 1; fun _ _ => 1])
    as (out & Hrun & Hlen & _).
  - reflexivity.
  - intros samples Hin.
    apply elem_of_cons in Hin. destruct Hin as [-> | Hin]; [simpl; lia |].
    apply elem_of_cons in Hin. destruct Hin as [-> | Hin]; [simpl; lia |].
    apply elem_of_nil in Hin. contradiction.
  - simpl. lia.
  - exists out. split; [exact Hrun | exact Hlen].
Defined.

Lemma training_set_raises_witness :
  exists e,
    training_set 1 [[fun _ _ => 1; fun _ _ => 1]; [fun _ _ => 1]]
      [Scenarios.unit_policy 1; Scenarios.unit_policy 2] = Raise e.
Proof.
  apply (proj2 (training_set_raises 1
                  [[fun _ _ => 1; fun _ _ => 1]; [fun _ _ => 1]]
                  [Scenarios.unit_policy 1; Scenarios.unit_policy 2])
           [fun _ _ => 1; fun _ _ => 1] [fun _ _ => 1]).
  - reflexivity.
  - apply elem_of_cons. right. apply elem_of_cons. left. reflexivity.
  - simpl. lia.
Defined.

End TrainingSet.

(** ** The policy optimizers: covariances *)

Section PolicyCovariances.
Import LinAlg PolicyOpt.

Lemma diag_dot (n : nat) (u v : vec) :
  mat_eq n n (dot n (np_diag u) (np_diag v)) (np_diag (fun i => u i * v i)).
Proof.
  intros i j Hi Hj. unfold dot, np_diag, CostAction.np_diag.
  rewrite (rsum_ext n _
             (fun k => identity i k * (u i * (if Nat.eqb k j then v k else 0)))).
  - rewrite (rsum_eye_l n i (fun k => u i * (if Nat.eqb k j then v k else 0)))
      by exact Hi.
    destruct (Nat.eqb i j); ring.
  - intros k _. unfold identity, eye. destruct (Nat.eqb i k); simpl; ring.
Qed.

Lemma diag_transpose (v : vec) (i j : nat) :
  transpose (np_diag v) i j = np_diag v i j.
Proof.
  unfold transpose, np_diag, CostAction.np_diag.
  destruct (Nat.eqb_spec j i) as [-> | Hne].
  - rewrite Nat.eqb_refl. reflexivity.
  - destruct (Nat.eqb_spec i j); [congruence | reflexivity].
Qed.

Lemma diag_ones (n : nat) (v : vec) :
  (forall i, (i < n)%nat -> v i = 1) -> mat_eq n n (np_diag v) identity.
Proof.
  intros Hv i j Hi _. unfold np_diag, CostAction.np_diag, identity, eye.
  destruct (Nat.eqb i j); [apply Hv; exact Hi | reflexivity].
Qed.

Lemma diag_inverse (n : nat) (v : vec) :
  (forall i, (i < n)%nat -> v i <> 0) ->
  inverse_of n (np_diag v) (np_diag (fun i => 1 / v i)).
Proof.
  intros Hv. split.
  - eapply mat_eq_trans; [apply diag_dot |]. apply diag_ones.
    intros i Hi. field. apply Hv. exact Hi.
  - eapply mat_eq_trans; [apply diag_dot |]. apply diag_ones.
    intros i Hi. field. apply Hv. exact Hi.
Qed.

(** X17.  The precision [prob] reports is the inverse of the covariance it
    reports, at every sample and timestep, as long as no entry of [var] is
    zero. *)
Theorem prob_precision_inverts_covariance (dU : nat) (action_out : vec -> vec)
    (var : vec) (X : nat -> nat -> vec) (n t : nat) :
  (forall i, (i < dU)%nat -> var i <> 0) ->
  let '(_, pol_sigma, pol_prec, _) := prob dU action_out var X in
  inverse_of dU (pol_sigma n t) (pol_prec n t).
Proof.
  intros Hvar. simpl. apply diag_inverse. exact Hvar.
Qed.

Lemma prob_precision_inverts_covariance_witness :
  let '(_, pol_sigma, pol_prec, _) :=
    prob 2 (fun x => x) (fun _ => 4) (fun _ _ _ => 0) in
  inverse_of 2 (pol_sigma 0%nat 0%nat) (pol_prec 0%nat 0%nat).
Proof.
  apply (prob_precision_inverts_covariance 2 (fun x => x) (fun _ => 4)
           (fun _ _ _ => 0) 0 0).
  intros; lra.
Defined.

Lemma chol_of_variance (dU : nat) (var : vec) :
  (forall i, (i < dU)%nat -> 0 <= var i) ->
  mat_eq dU dU
    (dot dU (transpose (np_diag (fun i => sqrt (var i))))
            (np_diag (fun i => sqrt (var i))))
    (np_diag var).
Proof.
  intros Hvar.
  eapply mat_eq_trans.
  { apply dot_ext; [| apply mat_eq_refl].
    intros i j _ _. apply diag_transpose. }
  eapply mat_eq_trans; [apply diag_dot |].
  intros i j Hi _. unfold np_diag, CostAction.np_diag.
  destruct (Nat.eqb i j); [apply sqrt_sqrt, Hvar; exact Hi | reflexivity].
Qed.

(** X18.  After [GPS_Policy.update], if the training set is not empty and every
    diagonal sum of the precisions plus the entropy term is positive, the new
    variances are positive and the noise factor [chol_pol_covar] that [act]
    uses squares to the covariance [prob] reports:
    chol_pol_covar.T.dot(chol_pol_covar) = diag(var). *)
Theorem gps_update_variance_consistent (N_train N T dU : nat) (ent_reg : R)
    (prc : nat -> mat) (action_out : vec -> vec) (X : nat -> nat -> vec)
    (n t : nat) :
  (1 <= N_train)%nat ->
  (forall i, (i < dU)%nat ->
     0 < rsum N_train (fun r => prc r i i) + 2 * INR N * INR T * ent_reg) ->
  let '(var, chol_pol_covar) :=
    GPS.optimize_variance N_train N T ent_reg prc in
  let '(_, pol_sigma, pol_prec, _) := prob dU action_out var X in
  (forall i, (i < dU)%nat -> 0 < var i) /\
  mat_eq dU dU (dot dU (transpose chol_pol_covar) chol_pol_covar)
    (pol_sigma n t) /\
  inverse_of dU (pol_sigma n t) (pol_prec n t).
Proof.
  intros HN Hpos. simpl.
  assert (HNt : 0 < INR N_train) by (apply lt_0_INR; lia).
  assert (Hvar : forall i, (i < dU)%nat ->
            0 < 1 / ((rsum N_train (fun r => prc r i i) +
                      2 * INR N * INR T * ent_reg * 1) / INR N_train)).
  { intros i Hi. pose proof (Hpos i Hi).
    apply Rdiv_lt_0_compat; [lra |].
    apply Rdiv_lt_0_compat; [lra | exact HNt]. }
  split; [exact Hvar |]. split.
  - apply chol_of_variance. intros i Hi. left. apply Hvar. exact Hi.
  - apply diag_inverse.
    intros i Hi. apply Rgt_not_eq. apply Hvar. exact Hi.
Qed.

(** X19.  The same for [MU_Policy.update], whose entropy term is not divided by
    the number of controllers. *)
Theorem mu_update_variance_consistent (N_ctr N T dU : nat) (ent_reg : R)
    (prc : nat -> mat) (action_out : vec -> vec) (X : nat -> nat -> vec)
    (n t : nat) :
  (1 <= N_ctr)%nat ->
  (forall i, (i < dU)%nat ->
     0 < rsum N_ctr (fun r => prc r i i) / INR N_ctr +
         2 * INR N * INR T * ent_reg) ->
  let '(var, chol_pol_covar) :=
    MU.optimize_variance N_ctr N T ent_reg prc in
  let '(_, pol_sigma, pol_prec, _) := prob dU action_out var X in
  (forall i, (i < dU)%nat -> 0 < var i) /\
  mat_eq dU dU (dot dU (transpose chol_pol_covar) chol_pol_covar)
    (pol_sigma n t) /\
  inverse_of dU (pol_sigma n t) (pol_prec n t).
Proof.
  intros _ Hpos. simpl.
  assert (Hvar : forall i, (i < dU)%nat ->
            0 < 1 / (rsum N_ctr (fun r => prc r i i) / INR N_ctr +
                     2 * INR N * INR T * ent_reg * 1)).
  { intros i Hi. pose proof (Hpos i Hi).
    apply Rdiv_lt_0_compat; lra. }
  split; [exact Hvar |]. split.
  - apply chol_of_variance. intros i Hi. left. apply Hvar. exact Hi.
  - apply diag_inverse.
    intros i Hi. apply Rgt_not_eq. apply Hvar. exact Hi.
Qed.

Lemma gps_update_variance_consistent_witness :
  let '(var, chol_pol_covar) :=
    GPS.optimize_variance 2 1 3 (1 / 10) (fun _ => identity) in
  let '(_, pol_sigma, pol_prec, _) :=
    prob 2 (fun x => x) var (fun _ _ _ => 0) in
  (forall i, (i < 2)%nat -> 0 < var i) /\
  mat_eq 2 2 (dot 2 (transpose chol_pol_covar) chol_pol_covar)
    (pol_sigma 0%nat 0%nat) /\
  inverse_of 2 (pol_sigma 0%nat 0%nat) (pol_prec 0%nat 0%nat).
Proof.
  apply (gps_update_variance_consistent 2 1 3 2 (1 / 10) (fun _ => identity)
           (fun x => x) (fun _ _ _ => 0) 0 0).
  - lia.
  - intros i _. unfold rsum, identity, eye. rewrite Nat.eqb_refl. simpl. lra.
Defined.

Lemma mu_update_variance_consistent_witness :
  let '(var, chol_pol_covar) :=
    MU.optimize_variance 2 1 3 (1 / 10) (fun _ => identity) in
  let '(_, pol_sigma, pol_prec, _) :=
    prob 2 (fun x => x) var (fun _ _ _ => 0) in
  (forall i, (i < 2)%nat -> 0 < var i) /\
  mat_eq 2 2 (dot 2 (transpose chol_pol_covar) chol_pol_covar)
    (pol_sigma 0%nat 0%nat) /\
  inverse_of 2 (pol_sigma 0%nat 0%nat) (pol_prec 0%nat 0%nat).
Proof.
  apply (mu_update_variance_consistent 2 1 3 2 (1 / 10) (fun _ => identity)
           (fun x => x) (fun _ _ _ => 0) 0 0).
  - lia.
  - intros i _. unfold rsum, identity, eye. rewrite Nat.eqb_refl. simpl. lra.
Defined.

End PolicyCovariances.

(** ** The policy optimizers: precision normalisation *)

Section PrecisionNormalisation.
Import LinAlg PolicyOpt.

Lemma rsum_app (n m : nat) (g : nat -> R) :
  rsum (n + m) g = rsum n g + rsum m (fun s => g (n + s)%nat).
Proof.
  induction m as [| m IH].
  - rewrite Nat.add_0_r. unfold rsum at 3. simpl. lra.
  - rewrite Nat.add_succ_r, !rsum_S, IH. lra.
Qed.

(** A sum over the rows of a reshaped (a, b) array. *)
Lemma rsum_block (a b : nat) (g : nat -> R) :
  rsum (a * b) g = rsum a (fun q => rsum b (fun s => g (q * b + s)%nat)).
Proof.
  induction a as [| a IH]; [reflexivity |].
  rewrite rsum_S, <- IH, Nat.mul_succ_l. apply rsum_app.
Qed.

Lemma mean_trace_scale (n dU : nat) (prc : nat -> mat) (c : R) :
  mean_trace n dU (fun r i j => prc r i j * c) = mean_trace n dU prc * c.
Proof.
  unfold mean_trace, trace.
  rewrite (rsum_ext n _ (fun r => rsum dU (fun i => prc r i i) * c)).
  - rewrite rsum_scal_r. unfold Rdiv. ring.
  - intros r _. apply rsum_scal_r.
Qed.

Lemma normalize_mean_trace (target : R) (n dU : nat) (prc : nat -> mat) :
  mean_trace n dU prc <> 0 ->
  mean_trace n dU (normalize target n dU prc) = target.
Proof.
  intros Hm. unfold normalize. rewrite mean_trace_scale. field. exact Hm.
Qed.

Lemma mean_trace_rows (n dU : nat) (prc : nat -> mat) :
  mean_trace n dU prc <> 0 -> (1 <= n)%nat.
Proof.
  intros Hm. destruct n as [| n]; [| lia].
  exfalso. apply Hm. unfold mean_trace, rsum. simpl. unfold Rdiv. ring.
Qed.

Lemma repeat_index (N b m n t : nat) :
  (n < N)%nat -> (t < b)%nat ->
  ((m * (N * b) + (n * b + t)) / (N * b) = m /\
   (m * (N * b) + (n * b + t)) mod b = t)%nat.
Proof.
  intros Hn Ht.
  assert (Hlt : (n * b + t < N * b)%nat) by nia.
  split.
  - rewrite Nat.add_comm, Nat.div_add by lia.
    rewrite Nat.div_small by exact Hlt. reflexivity.
  - replace (m * (N * b) + (n * b + t))%nat with (t + (m * N + n) * b)%nat
      by ring.
    rewrite Nat.Div0.mod_add. apply Nat.mod_small. exact Ht.
Qed.

(** Repeating every condition's precisions once per sample multiplies the
    sum over the rows by the number of samples. *)
Lemma repeat_flat_sum (M N T : nat) (f : nat -> nat -> R) :
  rsum (M * N * (T - 1))
    (fun r => f (r / (N * (T - 1)))%nat (r mod (T - 1))%nat) =
  INR N * rsum (M * (T - 1))
            (fun r => f (r / (T - 1))%nat (r mod (T - 1))%nat).
Proof.
  set (b := (T - 1)%nat).
  rewrite <- Nat.mul_assoc, !rsum_block, <- rsum_scal_l.
  apply rsum_ext. intros m Hm.
  rewrite rsum_block.
  rewrite (rsum_ext N _ (fun _ => rsum b (fun t => f m t))).
  - rewrite rsum_const. f_equal. apply rsum_ext. intros t Ht.
    destruct (repeat_index 1 b m 0 t ltac:(lia) Ht) as [Hq Hr].
    rewrite Nat.mul_1_l, Nat.mul_0_l, Nat.add_0_l in Hq, Hr.
    rewrite Hq, Hr. reflexivity.
  - intros n Hn. apply rsum_ext. intros t Ht.
    destruct (repeat_index N b m n t Hn Ht) as [Hq Hr].
    rewrite Hq, Hr. reflexivity.
Qed.

Lemma repeat_flat_mean_trace (M N T dU : nat) (prc : nat -> nat -> mat) :
  (1 <= N)%nat ->
  mean_trace (M * N * (T - 1)) dU (repeat_flat N T prc) =
  mean_trace (M * (T - 1)) dU (MU.flat T prc).
Proof.
  intros HN. unfold mean_trace, repeat_flat, MU.flat.
  rewrite (repeat_flat_sum M N T (fun m t => trace dU (prc m t))).
  destruct (Nat.eq_dec (M * (T - 1))%nat 0%nat) as [Hz | Hnz].
  - replace (M * N * (T - 1))%nat with 0%nat by nia. rewrite Hz.
    unfold rsum. simpl. unfold Rdiv. ring.
  - replace (M * N * (T - 1))%nat with (N * (M * (T - 1)))%nat by ring.
    rewrite mult_INR. field. split.
    + apply not_0_INR. exact Hnz.
    + apply not_0_INR. lia.
Qed.

(** X20.  [GPS_Policy.update], line 105: when the mean trace of the training
    precisions is not zero, the normalized precisions have mean trace dU;
    repeating every condition's precisions once per sample does not change
    the mean, so the scale factor is that of the (M, T-1) precisions the
    caller passed. *)
Theorem gps_update_normalizes_precision (M N T dU : nat)
    (prc : nat -> nat -> mat) :
  mean_trace (M * N * (T - 1)) dU (repeat_flat N T prc) <> 0 ->
  mean_trace (M * N * (T - 1)) dU (GPS.normalized M N T dU prc) = INR dU /\
  mean_trace (M * N * (T - 1)) dU (repeat_flat N T prc) =
  mean_trace (M * (T - 1)) dU (MU.flat T prc).
Proof.
  intros Hm. split.
  - apply normalize_mean_trace. exact Hm.
  - apply repeat_flat_mean_trace.
    apply mean_trace_rows in Hm. nia.
Qed.

Lemma gps_update_normalizes_precision_witness :
  mean_trace (1 * 2 * (3 - 1)) 1
    (GPS.normalized 1 2 3 1 (fun _ _ _ _ => 5)) = INR 1 /\
  mean_trace (1 * 2 * (3 - 1)) 1 (repeat_flat 2 3 (fun _ _ _ _ => 5)) =
  mean_trace (1 * (3 - 1)) 1 (MU.flat 3 (fun _ _ _ _ => 5)).
Proof.
  apply (gps_update_normalizes_precision 1 2 3 1 (fun _ _ _ _ => 5)).
  unfold mean_trace, trace, repeat_flat, rsum. simpl. lra.
Defined.

(** X21.  [MU_Policy.update], line 220: the normalized precisions have mean trace
    10 * dU, and every one of them is ten times the precision
    [GPS_Policy.update] trains on for the same condition and timestep. *)
Theorem mu_update_normalizes_precision (M N T dU : nat)
    (prc : nat -> nat -> mat) (m n t i j : nat) :
  mean_trace (M * (T - 1)) dU (MU.flat T prc) <> 0 ->
  (m < M)%nat -> (n < N)%nat -> (t < T - 1)%nat ->
  mean_trace (M * (T - 1)) dU (MU.normalized M T dU prc) = 10 * INR dU /\
  MU.normalized M T dU prc (m * (T - 1) + t)%nat i j =
  10 * GPS.normalized M N T dU prc ((m * N + n) * (T - 1) + t)%nat i j.
Proof.
  intros Hm HM HN HT. split.
  - apply normalize_mean_trace. exact Hm.
  - unfold MU.normalized, GPS.normalized, normalize.
    rewrite repeat_flat_mean_trace by lia.
    unfold repeat_flat, MU.flat.
    destruct (repeat_index 1 (T - 1) m 0 t ltac:(lia) HT) as [Hq Hr].
    rewrite Nat.mul_1_l, Nat.mul_0_l, Nat.add_0_l in Hq, Hr.
    rewrite Hq, Hr.
    destruct (repeat_index N (T - 1) m n t HN HT) as [Hq' Hr'].
    replace ((m * N + n) * (T - 1) + t)%nat
      with (m * (N * (T - 1)) + (n * (T - 1) + t))%nat by ring.
    rewrite Hq', Hr'. field. exact Hm.
Qed.

Lemma mu_update_normalizes_precision_witness :
  mean_trace (1 * (3 - 1)) 1
    (MU.normalized 1 3 1 (fun _ _ _ _ => 5)) = 10 * INR 1 /\
  MU.normalized 1 3 1 (fun _ _ _ _ => 5) (0 * (3 - 1) + 1)%nat 0%nat 0%nat =
  10 * GPS.normalized 1 2 3 1 (fun _ _ _ _ => 5)
         ((0 * 2 + 1) * (3 - 1) + 1)%nat 0%nat 0%nat.
Proof.
  apply (mu_update_normalizes_precision 1 2 3 1 (fun _ _ _ _ => 5) 0 1 1 0 0);
    try lia.
  unfold mean_trace, trace, MU.flat, rsum. simpl. lra.
Defined.

End PrecisionNormalisation.

(** ** The policy optimizers: batches per epoch *)

Section BatchesPerEpoch.
Import PolicyOpt.
Local Open Scope Z_scope.

Lemma batches_per_epoch_cases (n batch_size : Z) :
  (batch_size = 0 /\ batches_per_epoch n batch_size = ZeroDivisionError) \/
  (batch_size <> 0 /\ (n ÷ batch_size) * batch_size = n /\
   batches_per_epoch n batch_size = Batches (n ÷ batch_size)) \/
  (batch_size <> 0 /\ (n ÷ batch_size) * batch_size <> n /\
   batches_per_epoch n batch_size = AssertionError).
Proof.
  unfold batches_per_epoch.
  destruct (Z.eqb_spec batch_size 0) as [Hb | Hb]; [left; auto | right].
  destruct (Z.eqb_spec (n ÷ batch_size * batch_size) n) as [He | He];
    [left | right]; auto.
Qed.

(** X22.  Lines 119-121 of [GPS_Policy.update] and 236-239 of [MU_Policy.update]:
    training goes on with k batches per epoch exactly when the batch size is
    not zero and k batches of that size make up the training set, of
    M*N*(T-1) samples for GPS and M*(T-1) controllers for MU; a batch size
    of zero raises ZeroDivisionError, and any other batch size fails the
    assertion. *)
Theorem update_batches_cover_training_set (M N T batch_size : Z) :
  (forall k,
     batches_per_epoch (GPS.N_train M N T) batch_size = Batches k <->
     batch_size <> 0 /\ k * batch_size = M * N * (T - 1)) /\
  (forall k,
     batches_per_epoch (MU.N_ctr M T) batch_size = Batches k <->
     batch_size <> 0 /\ k * batch_size = M * (T - 1)) /\
  (forall n,
     (batches_per_epoch n batch_size = ZeroDivisionError <->
      batch_size = 0) /\
     (batches_per_epoch n batch_size = AssertionError <->
      batch_size <> 0 /\ ~ (batch_size | n))).
Proof.
  assert (Hk : forall n k,
            batches_per_epoch n batch_size = Batches k <->
            batch_size <> 0 /\ k * batch_size = n).
  { intros n k.
    destruct (batches_per_epoch_cases n batch_size)
      as [[Hb ->] | [[Hb [He ->]] | [Hb [He ->]]]].
    - split; [discriminate | intros [H _]; contradiction].
    - split.
      + intros [= <-]. auto.
      + intros [_ <-]. rewrite Z.quot_mul by exact Hb. reflexivity.
    - split; [discriminate |].
      intros [_ <-]. rewrite Z.quot_mul in He by exact Hb. contradiction. }
  split; [intros k; apply Hk |]. split; [intros k; apply Hk |].
  intros n.
  destruct (batches_per_epoch_cases n batch_size)
    as [[Hb ->] | [[Hb [He ->]] | [Hb [He ->]]]].
  - split; split.
    + intros _. exact Hb.
    + reflexivity.
    + discriminate.
    + intros [H _]. contradiction.
  - split; split.
    + discriminate.
    + intros H. contradiction.
    + discriminate.
    + intros [_ Hnd]. exfalso. apply Hnd. exists (n ÷ batch_size).
      symmetry. exact He.
  - split; split.
    + discriminate.
    + intros H. contradiction.
    + intros _. split; [exact Hb |]. intros [q Hq]. apply He.
      rewrite Hq, Z.quot_mul by exact Hb. reflexivity.
    + reflexivity.
Qed.

End BatchesPerEpoch.

(** ** The latent loss of the MU policy *)

Section LatentLoss.
Import LinAlg PolicyOpt.

Lemma rsum_centered (n : nat) (f g : nat -> R) (a b : R) :
  rsum n (fun r => (f r - a) * (g r - b)) =
  rsum n (fun r => f r * g r) - b * rsum n f - a * rsum n g +
  INR n * (a * b).
Proof.
  induction n as [| n IH]; [unfold rsum; simpl; ring |].
  rewrite !rsum_S, IH, S_INR. ring.
Qed.

(** X23.  In exact arithmetic [tf_cov] of a batch of n >= 1 rows is the population
    covariance of its columns: the mean over the rows of the product of the
    deviations from the column means; it is symmetric and its diagonal,
    whose square root is [latent_std], is not negative. *)
Theorem tf_cov_population_covariance (n : nat) (x : nat -> nat -> R)
    (i j : nat) :
  (1 <= n)%nat ->
  MU.tf_cov n x i j =
    MU.reduce_mean n (fun r =>
      (x r i - MU.reduce_mean n (fun r' => x r' i)) *
      (x r j - MU.reduce_mean n (fun r' => x r' j))) /\
  MU.tf_cov n x i j = MU.tf_cov n x j i /\
  0 <= MU.tf_cov n x i i.
Proof.
  intros Hn.
  assert (HN : INR n <> 0) by (apply not_0_INR; lia).
  assert (Hcov : forall a b,
            MU.tf_cov n x a b =
            MU.reduce_mean n (fun r =>
              (x r a - MU.reduce_mean n (fun r' => x r' a)) *
              (x r b - MU.reduce_mean n (fun r' => x r' b)))).
  { intros a b. unfold MU.tf_cov, MU.reduce_mean. simpl.
    change (@np_sum R exact) with rsum.
    rewrite rsum_centered. field. exact HN. }
  split; [apply Hcov |]. split.
  - unfold MU.tf_cov, MU.reduce_mean. simpl.
    change (@np_sum R exact) with rsum.
    rewrite (rsum_ext n (fun r => x r i * x r j) (fun r => x r j * x r i))
      by (intros; ring).
    ring.
  - rewrite Hcov. unfold MU.reduce_mean at 1. simpl.
    change (@np_sum R exact) with rsum.
    apply Rmult_le_pos.
    + apply rsum_nonneg. intros r _. apply Rle_0_sqr.
    + left. apply Rinv_0_lt_compat. apply lt_0_INR. lia.
Qed.

Lemma tf_cov_population_covariance_witness :
  MU.tf_cov 2 (fun r _ => INR r) 0 0 =
    MU.reduce_mean 2 (fun r =>
      (INR r - MU.reduce_mean 2 (fun r' => INR r')) *
      (INR r - MU.reduce_mean 2 (fun r' => INR r'))) /\
  MU.tf_cov 2 (fun r _ => INR r) 0 0 = MU.tf_cov 2 (fun r _ => INR r) 0 0 /\
  0 <= MU.tf_cov 2 (fun r _ => INR r) 0 0.
Proof.
  apply (tf_cov_population_covariance 2 (fun r _ => INR r) 0 0). lia.
Defined.

Lemma log_gap (s : R) : 0 < s -> 0 <= s - 1 - ln s /\ (s - 1 - ln s = 0 -> s = 1).
Proof.
  intros Hs. split.
  - pose proof (exp_ineq1_le (ln s)) as H. rewrite exp_ln in H by exact Hs.
    lra.
  - intros H0. destruct (Req_dec (ln s) 0) as [Hz | Hnz].
    + lra.
    + pose proof (exp_ineq1 (ln s) Hnz) as H.
      rewrite exp_ln in H by exact Hs. lra.
Qed.

Lemma rsum_zero_terms (n : nat) (f : nat -> R) :
  (forall i, (i < n)%nat -> 0 <= f i) -> rsum n f = 0 ->
  forall i, (i < n)%nat -> f i = 0.
Proof.
  induction n as [| n IH]; intros Hf Hs i Hi; [lia |].
  rewrite rsum_S in Hs.
  assert (H1 : 0 <= rsum n f) by (apply rsum_nonneg; intros; apply Hf; lia).
  assert (H2 : 0 <= f n) by (apply Hf; lia).
  destruct (Nat.eq_dec i n) as [-> | Hne]; [lra |].
  apply IH; [intros; apply Hf; lia | lra | lia].
Qed.

(** X24.  In exact arithmetic, for a batch of n >= 1 latent rows whose dZ >= 1
    columns all have a positive variance, [loss_latent] is not negative, and
    it is zero exactly when every column has mean 0 and variance 1. *)
Theorem loss_latent_nonneg (n dZ : nat) (latent : nat -> nat -> R) :
  (1 <= n)%nat -> (1 <= dZ)%nat ->
  (forall j, (j < dZ)%nat -> 0 < MU.tf_cov n latent j j) ->
  0 <= MU.loss_latent n dZ latent /\
  (MU.loss_latent n dZ latent = 0 <->
   forall j, (j < dZ)%nat ->
     MU.reduce_mean n (fun r => latent r j) = 0 /\
     MU.tf_cov n latent j j = 1).
Proof.
  intros Hn HdZ Hvar.
  assert (HZ : 0 < INR dZ) by (apply lt_0_INR; lia).
  set (term := fun j =>
         sqrt (MU.tf_cov n latent j j) +
         MU.reduce_mean n (fun r => latent r j) *
         MU.reduce_mean n (fun r => latent r j) - 1 -
         ln (sqrt (MU.tf_cov n latent j j))).
  assert (Hloss : MU.loss_latent n dZ latent = rsum dZ term / INR dZ / 2).
  { reflexivity. }
  assert (Hterm : forall j, (j < dZ)%nat -> 0 <= term j).
  { intros j Hj. unfold term.
    pose proof (sqrt_lt_R0 _ (Hvar j Hj)) as Hs.
    destruct (log_gap _ Hs) as [Hg _].
    pose proof (Rle_0_sqr (MU.reduce_mean n (fun r => latent r j))) as Hsq.
    unfold Rsqr in Hsq. lra. }
  assert (Hsum : 0 <= rsum dZ term) by (apply rsum_nonneg; exact Hterm).
  rewrite Hloss. split.
  - apply Rmult_le_pos; [| lra].
    apply Rmult_le_pos; [exact Hsum |].
    left. apply Rinv_0_lt_compat. exact HZ.
  - split.
    + intros H0.
      assert (Hs0 : rsum dZ term = 0).
      { unfold Rdiv in H0.
        apply Rmult_integral in H0. destruct H0 as [H0 | H0]; [| lra].
        apply Rmult_integral in H0. destruct H0 as [H0 | H0]; [exact H0 |].
        pose proof (Rinv_0_lt_compat _ HZ). lra. }
      intros j Hj.
      pose proof (rsum_zero_terms dZ term Hterm Hs0 j Hj) as Hj0.
      unfold term in Hj0.
      pose proof (sqrt_lt_R0 _ (Hvar j Hj)) as Hs.
      destruct (log_gap _ Hs) as [Hg Hg1].
      pose proof (Rle_0_sqr (MU.reduce_mean n (fun r => latent r j))) as Hsq.
      unfold Rsqr in Hsq.
      assert (Hm : MU.reduce_mean n (fun r => latent r j) *
                   MU.reduce_mean n (fun r => latent r j) = 0) by lra.
      split.
      * apply Rmult_integral in Hm. destruct Hm; assumption.
      * assert (Hs1 : sqrt (MU.tf_cov n latent j j) = 1) by (apply Hg1; lra).
        rewrite <- (sqrt_sqrt (MU.tf_cov n latent j j))
          by (left; apply Hvar; exact Hj).
        rewrite Hs1. ring.
    + intros Hall.
      rewrite (rsum_zero dZ term).
      * unfold Rdiv. ring.
      * intros j Hj. destruct (Hall j Hj) as [Hm Hv]. unfold term.
        rewrite Hm, Hv, sqrt_1, ln_1. ring.
Qed.

Lemma loss_latent_nonneg_witness :
  0 <= MU.loss_latent 2 1 (fun r _ => INR r) /\
  (MU.loss_latent 2 1 (fun r _ => INR r) = 0 <->
   forall j, (j < 1)%nat ->
     MU.reduce_mean 2 (fun r => INR r) = 0 /\
     MU.tf_cov 2 (fun r _ => INR r) j j = 1).
Proof.
  apply (loss_latent_nonneg 2 1 (fun r _ => INR r)); try lia.
  intros j _. unfold MU.tf_cov, MU.reduce_mean. simpl. lra.
Defined.

(** X25.  In checked arithmetic a batch of a single latent row has no finite
    [loss_latent], whatever the row and the latent dimension: its covariance
    is zero, and the logarithm of the zero [latent_std] is not finite. *)
Theorem loss_latent_single_row (dZ : nat) (latent : nat -> nat -> option R) :
  MU.loss_latent 1 dZ latent = None.
Proof.
  unfold MU.loss_latent.
  match goal with
  | |- context [MU.reduce_mean dZ ?f] => set (term := f)
  end.
  assert (Hterm : forall j, term j = None).
  { intros j. unfold term, MU.tf_cov, MU.reduce_mean, pow2. simpl.
    destruct (latent 0%nat j) as [v |]; simpl; [| reflexivity].
    destruct (Req_dec_T 1 0) as [H10 | _]; [lra |]. simpl.
    destruct (Rlt_dec _ 0) as [Hneg | _]; simpl; [reflexivity |].
    destruct (Rlt_dec 0 _) as [Hpos | _]; [| reflexivity].
    exfalso. revert Hpos.
    replace ((0 + v * v) / 1 - (0 + v) / 1 * ((0 + v) / 1)) with 0 by field.
    rewrite sqrt_0. lra. }
  unfold MU.reduce_mean.
  destruct dZ as [| dZ].
  - simpl. destruct (Req_dec_T 0 0) as [_ | H0]; [reflexivity | contradiction].
  - cbn [np_sum]. rewrite Hterm. simpl.
    destruct (np_sum dZ term); reflexivity.
Qed.

End LatentLoss.

(** ** Cost fusion: symmetry and the penalty it adds *)

Section FusedCost.
Import LinAlg MDGPS.

Context {Dynamics : Type}.
Implicit Types (self : AlgorithmMDGPS Dynamics) (it : IterationData Dynamics).

(** [x.dot(y)] of two vectors of length [n]. *)
Local Abbreviation ip n x y := (rsum n (fun i => x i * y i)).

Lemma gram_symmetric (n : nat) (L : mat) (i j : nat) :
  dot n (transpose L) L i j = dot n (transpose L) L j i.
Proof. unfold dot, transpose. apply rsum_ext. intros k _. ring. Qed.

Lemma inverse_of_ext (n : nat) (X X' Y : mat) :
  mat_eq n n X X' -> inverse_of n X Y -> inverse_of n X' Y.
Proof.
  intros HX [H1 H2]. split.
  - eapply mat_eq_trans; [| exact H1].
    apply dot_ext; [apply mat_eq_sym; exact HX | apply mat_eq_refl].
  - eapply mat_eq_trans; [| exact H2].
    apply dot_ext; [apply mat_eq_refl | apply mat_eq_sym; exact HX].
Qed.

(** The inverse of a symmetric matrix is symmetric. *)
Lemma symmetric_inverse (n : nat) (X Xi : mat) :
  mat_eq n n X (transpose X) -> inverse_of n X Xi ->
  mat_eq n n Xi (transpose Xi).
Proof.
  intros Hsym Hinv. apply (inverse_unique n X); [exact Hinv |].
  apply (inverse_of_ext n (transpose X));
    [apply mat_eq_sym; exact Hsym | apply transpose_inverse; exact Hinv].
Qed.

Lemma inv_pol_S_symmetric (du : nat) (chol : mat) :
  invertible du chol ->
  mat_eq du du (inv_pol_S du chol) (transpose (inv_pol_S du chol)).
Proof.
  intros Hinv.
  apply (symmetric_inverse du (dot du (transpose chol) chol)).
  - intros i j _ _. unfold transpose at 1. apply gram_symmetric.
  - apply inv_pol_S_inverse; [exact Hinv | apply mat_eq_refl].
Qed.

Lemma gain_block_symmetric (du : nat) (KB S : mat) (i j : nat) :
  mat_eq du du S (transpose S) ->
  dot du (dot du (transpose KB) S) KB i j =
  dot du (dot du (transpose KB) S) KB j i.
Proof.
  intros HS. unfold dot, transpose.
  transitivity (rsum du (fun k => rsum du (fun l => KB l i * S l k * KB k j))).
  { apply rsum_ext. intros k _. symmetry.
    apply (rsum_scal_r du (KB k j) (fun l => KB l i * S l k)). }
  transitivity (rsum du (fun k => rsum du (fun l => KB l j * S l k * KB k i))).
  2: { apply rsum_ext. intros k _.
       apply (rsum_scal_r du (KB k i) (fun l => KB l j * S l k)). }
  rewrite (rsum_swap du du (fun l k => KB l j * S l k * KB k i)).
  apply rsum_ext. intros a Ha. apply rsum_ext. intros b Hb.
  rewrite (HS b a Hb Ha). unfold transpose. ring.
Qed.

Lemma PKLm_of_symmetric (dx du : nat) (KB S : mat) :
  mat_eq du du S (transpose S) ->
  mat_eq (dx + du) (dx + du) (PKLm_of dx du KB S)
    (transpose (PKLm_of dx du KB S)).
Proof.
  intros HS i j Hi Hj.
  unfold transpose at 1. unfold PKLm_of, vstack, hstack, mopp.
  destruct (Nat.ltb_spec i dx), (Nat.ltb_spec j dx).
  - apply gain_block_symmetric. exact HS.
  - f_equal. unfold dot, transpose. apply rsum_ext. intros l Hl.
    rewrite (HS l (j - dx)%nat) by (assumption || lia).
    unfold transpose. ring.
  - f_equal. unfold dot, transpose. apply rsum_ext. intros l Hl.
    rewrite (HS (i - dx)%nat l) by (assumption || lia).
    unfold transpose. ring.
  - apply HS; lia.
Qed.

(** X26.  When the task cost matrix Cm[t] is symmetric and chol_pol_S[t] is
    invertible, the fused matrix fCm[t] that [compute_costs] hands to the LQR
    backward pass is symmetric. *)
Theorem compute_costs_symmetric self (m : nat) (eta : R) it (t : nat) :
  let pol := traj_distr it in
  let info := pol_info it in
  cur self !! m = Some it ->
  0 < eta ->
  (t < T pol)%nat ->
  invertible (dU pol) (chol_pol_S info t) ->
  mat_eq (dX pol + dU pol) (dX pol + dU pol)
    (Cm (traj_info it) t) (transpose (Cm (traj_info it) t)) ->
  exists fCm fcv,
    compute_costs self m eta = Ok (fCm, fcv) /\
    mat_eq (dX pol + dU pol) (dX pol + dU pol) (fCm t) (transpose (fCm t)).
Proof.
  intros pol info Hm Heta Ht Hinv HCm.
  unfold compute_costs, cur_at. rewrite Hm. simpl.
  eexists _, _. split; [reflexivity |].
  fold pol info. intros i j Hi Hj. unfold transpose at 1.
  destruct (Nat.ltb_spec t (T pol)); [| lia].
  rewrite (HCm i j Hi Hj).
  rewrite (PKLm_of_symmetric (dX pol) (dU pol) (pol_K info t) _
             (inv_pol_S_symmetric _ _ Hinv) i j Hi Hj).
  rewrite <- (transpose_identity i j). unfold transpose. reflexivity.
Qed.

Lemma rsum_combine (n : nat) (a b c : R) (f g h : nat -> R) :
  rsum n (fun i => a * f i + b * g i + c * h i) =
  a * rsum n f + b * rsum n g + c * rsum n h.
Proof.
  induction n as [| n IH]; [unfold rsum; simpl; ring |].
  rewrite !rsum_S, IH. ring.
Qed.

(** The value z.dot(C.dot(z)) / 2 + z.dot(c) of a quadratic cost is linear
    in (C, c). *)
Lemma quadratic_combine (n : nat) (a b c : R) (A B C : mat) (z : vec) :
  ip n z (dotv n (fun i j => a * A i j + b * B i j + c * C i j) z) =
  a * ip n z (dotv n A z) + b * ip n z (dotv n B z) +
  c * ip n z (dotv n C z).
Proof.
  rewrite <- rsum_combine. apply rsum_ext. intros i _. unfold dotv.
  rewrite (rsum_ext n _
             (fun k => a * (A i k * z k) + b * (B i k * z k) +
                       c * (C i k * z k))) by (intros; ring).
  rewrite rsum_combine. ring.
Qed.

Lemma quadratic_identity (n : nat) (z : vec) :
  ip n z (dotv n identity z) = ip n z z.
Proof.
  apply rsum_ext. intros i Hi. unfold dotv.
  rewrite (rsum_eye_l n i z Hi). reflexivity.
Qed.

Lemma dotv_dot (m n : nat) (X Y : mat) (v : vec) (i : nat) :
  dotv n (dot m X Y) v i = dotv m X (dotv n Y v) i.
Proof.
  unfold dotv, dot.
  rewrite (rsum_ext n _ (fun k => rsum m (fun l => X i l * Y l k * v k)))
    by (intros; rewrite <- rsum_scal_r; reflexivity).
  rewrite (rsum_swap n m (fun l k => X i l * Y l k * v k)).
  apply rsum_ext. intros l _. rewrite <- rsum_scal_l.
  apply rsum_ext. intros k _. ring.
Qed.

(** x.dot(X.T.dot(w)) = X.dot(x).dot(w) for X of shape (r, c). *)
Lemma ip_transpose (r c : nat) (X : mat) (x w : vec) :
  ip c x (dotv r (transpose X) w) = ip r (dotv c X x) w.
Proof.
  unfold dotv, transpose.
  rewrite (rsum_ext c _ (fun i => rsum r (fun l => X l i * x i * w l))).
  2: { intros i _. rewrite <- rsum_scal_l. apply rsum_ext. intros; ring. }
  rewrite (rsum_swap c r (fun l i => X l i * x i * w l)).
  apply rsum_ext. intros l _. rewrite <- rsum_scal_r. reflexivity.
Qed.

Lemma dotv_concatenate (dx du : nat) (P : mat) (x u : vec) (i : nat) :
  dotv (dx + du) P (concatenate dx x u) i =
  dotv dx P x i + dotv du (fun i b => P i (dx + b)%nat) u i.
Proof.
  unfold dotv. rewrite rsum_app. f_equal; apply rsum_ext; intros k Hk;
    unfold concatenate.
  - destruct (Nat.ltb_spec k dx); [reflexivity | lia].
  - destruct (Nat.ltb_spec (dx + k) dx); [lia |].
    replace (dx + k - dx)%nat with k by lia. reflexivity.
Qed.

Lemma ip_concatenate (dx du : nat) (x u w : vec) :
  ip (dx + du) (concatenate dx x u) w =
  ip dx x w + ip du u (fun a => w (dx + a)%nat).
Proof.
  rewrite rsum_app. f_equal; apply rsum_ext; intros k Hk;
    unfold concatenate.
  - destruct (Nat.ltb_spec k dx); [reflexivity | lia].
  - destruct (Nat.ltb_spec (dx + k) dx); [lia |].
    replace (dx + k - dx)%nat with k by lia. reflexivity.
Qed.

Lemma dotv_minus (n : nat) (X : mat) (a b : vec) (i : nat) :
  dotv n X (fun k => a k - b k) i = dotv n X a i - dotv n X b i.
Proof.
  unfold dotv.
  rewrite (rsum_ext n _ (fun k => X i k * a k + -1 * (X i k * b k)))
    by (intros; ring).
  rewrite rsum_plus, rsum_scal_l. ring.
Qed.

Lemma ip_minus_l (n : nat) (a b w : vec) :
  ip n (fun k => a k - b k) w = ip n a w - ip n b w.
Proof.
  rewrite (rsum_ext n _ (fun k => a k * w k + -1 * (b k * w k)))
    by (intros; ring).
  rewrite rsum_plus, rsum_scal_l. ring.
Qed.

Lemma dotv_dotv_minus (n m : nat) (X Y : mat) (a b : vec) (i : nat) :
  dotv n X (dotv m Y (fun k => a k - b k)) i =
  dotv n X (dotv m Y a) i - dotv n X (dotv m Y b) i.
Proof.
  rewrite <- dotv_minus.
  apply (dotv_ext (S i) n X X _ _ (mat_eq_refl _ _ _)); [| lia].
  intros k _. apply dotv_minus.
Qed.

(** The rows of PKLm.dot(z) for z = [x; u]: with e = u - KB.dot(x) the top
    rows are -KB.T.dot(S.dot(e)) and the bottom rows S.dot(e). *)
Lemma PKLm_of_dotv (dx du : nat) (KB S : mat) (x u : vec) (i : nat) :
  dotv (dx + du) (PKLm_of dx du KB S) (concatenate dx x u) i =
  concatenate dx
    (fun i => - dotv du (transpose KB)
                (dotv du S (fun a => u a - dotv dx KB x a)) i)
    (dotv du S (fun a => u a - dotv dx KB x a)) i.
Proof.
  rewrite dotv_concatenate. unfold concatenate.
  destruct (Nat.ltb_spec i dx) as [Hlt | Hge].
  - assert (E1 : dotv dx (PKLm_of dx du KB S) x i =
                 dotv du (transpose KB) (dotv du S (dotv dx KB x)) i).
    { transitivity (dotv dx (dot du (dot du (transpose KB) S) KB) x i).
      - unfold dotv. apply rsum_ext. intros k Hk.
        unfold PKLm_of, vstack, hstack.
        destruct (Nat.ltb_spec i dx), (Nat.ltb_spec k dx); try lia.
        reflexivity.
      - rewrite !dotv_dot. reflexivity. }
    assert (E2 : dotv du (fun i b => PKLm_of dx du KB S i (dx + b)%nat) u i =
                 - dotv du (transpose KB) (dotv du S u) i).
    { rewrite <- dotv_dot. unfold dotv.
      rewrite (rsum_ext du _
                 (fun k => -1 * (dot du (transpose KB) S i k * u k))).
      - rewrite rsum_scal_l. ring.
      - intros k Hk. unfold PKLm_of, vstack, hstack, mopp.
        destruct (Nat.ltb_spec i dx), (Nat.ltb_spec (dx + k) dx); try lia.
        replace (dx + k - dx)%nat with k by lia. ring. }
    rewrite E1, E2, dotv_dotv_minus. ring.
  - assert (E1 : dotv dx (PKLm_of dx du KB S) x i =
                 - dotv du S (dotv dx KB x) (i - dx)%nat).
    { rewrite <- dotv_dot. unfold dotv.
      rewrite (rsum_ext dx _
                 (fun k => -1 * (dot du S KB (i - dx)%nat k * x k))).
      - rewrite rsum_scal_l. ring.
      - intros k Hk. unfold PKLm_of, vstack, hstack, mopp.
        destruct (Nat.ltb_spec i dx), (Nat.ltb_spec k dx); try lia.
        ring. }
    assert (E2 : dotv du (fun i b => PKLm_of dx du KB S i (dx + b)%nat) u i =
                 dotv du S u (i - dx)%nat).
    { unfold dotv. apply rsum_ext. intros k Hk.
      unfold PKLm_of, vstack, hstack.
      destruct (Nat.ltb_spec i dx), (Nat.ltb_spec (dx + k) dx); try lia.
      replace (dx + k - dx)%nat with k by lia. reflexivity. }
    rewrite E1, E2, dotv_minus. ring.
Qed.

(** z.dot(PKLm.dot(z)) for z = [x; u] is the quadratic form of the
    deviation e = u - KB.dot(x). *)
Lemma PKLm_of_quadratic (dx du : nat) (KB S : mat) (x u : vec) :
  ip (dx + du) (concatenate dx x u)
     (dotv (dx + du) (PKLm_of dx du KB S) (concatenate dx x u)) =
  ip du (fun a => u a - dotv dx KB x a)
     (dotv du S (fun a => u a - dotv dx KB x a)).
Proof.
  rewrite (rsum_ext (dx + du) _
             (fun i => concatenate dx x u i *
                concatenate dx
                  (fun i => - dotv du (transpose KB)
                     (dotv du S (fun a => u a - dotv dx KB x a)) i)
                  (dotv du S (fun a => u a - dotv dx KB x a)) i))
    by (intros i _; rewrite PKLm_of_dotv; reflexivity).
  rewrite ip_concatenate.
  set (Se := dotv du S (fun a => u a - dotv dx KB x a)).
  rewrite (rsum_ext dx _ (fun i => -1 * (x i * dotv du (transpose KB) Se i))).
  2: { intros i Hi. unfold concatenate.
       destruct (Nat.ltb_spec i dx); [ring | lia]. }
  rewrite rsum_scal_l, (ip_transpose du dx KB x Se).
  rewrite (rsum_ext du (fun a => u a * concatenate dx _ Se (dx + a)%nat)
             (fun a => u a * Se a)).
  2: { intros a Ha. unfold concatenate.
       destruct (Nat.ltb_spec (dx + a) dx); [lia |].
       replace (dx + a - dx)%nat with a by lia. reflexivity. }
  rewrite ip_minus_l. ring.
Qed.

(** z.dot(PKLv) for z = [x; u]. *)
Lemma PKLv_of_linear (dx du : nat) (KB S : mat) (kB x u : vec) :
  ip (dx + du) (concatenate dx x u) (PKLv_of dx du KB S kB) =
  - ip du (fun a => u a - dotv dx KB x a) (dotv du S kB).
Proof.
  rewrite ip_concatenate.
  rewrite (rsum_ext dx _
             (fun i => x i * dotv du (transpose KB) (dotv du S kB) i)).
  2: { intros i Hi. unfold PKLv_of, concatenate.
       destruct (Nat.ltb_spec i dx); [| lia].
       rewrite dotv_dot. reflexivity. }
  rewrite (ip_transpose du dx KB x (dotv du S kB)).
  rewrite (rsum_ext du (fun a => u a * PKLv_of dx du KB S kB (dx + a)%nat)
             (fun a => -1 * (u a * dotv du S kB a))).
  2: { intros a Ha. unfold PKLv_of, concatenate, vopp.
       destruct (Nat.ltb_spec (dx + a) dx); [lia |].
       replace (dx + a - dx)%nat with a by lia. ring. }
  rewrite rsum_scal_l, ip_minus_l. ring.
Qed.

(** For a symmetric S, e.dot(S.dot(k)) = k.dot(S.dot(e)). *)
Lemma ip_symmetric (n : nat) (S : mat) (a b : vec) :
  mat_eq n n S (transpose S) ->
  ip n a (dotv n S b) = ip n b (dotv n S a).
Proof.
  intros HS. unfold dotv.
  rewrite (rsum_ext n _ (fun i => rsum n (fun k => a i * S i k * b k))).
  2: { intros i _. rewrite <- rsum_scal_l. apply rsum_ext. intros; ring. }
  rewrite (rsum_swap n n (fun k i => a i * S i k * b k)).
  apply rsum_ext. intros k Hk. rewrite <- rsum_scal_l.
  apply rsum_ext. intros i Hi. rewrite (HS i k Hi Hk). unfold transpose.
  ring.
Qed.

Lemma square_expand (n : nat) (S : mat) (a b : vec) :
  ip n (fun k => a k - b k) (dotv n S (fun k => a k - b k)) =
  ip n a (dotv n S a) - ip n a (dotv n S b) - ip n b (dotv n S a) +
  ip n b (dotv n S b).
Proof.
  rewrite (rsum_ext n _
             (fun i => (a i * dotv n S a i + -1 * (a i * dotv n S b i)) +
                       (-1 * (b i * dotv n S a i) + b i * dotv n S b i)))
    by (intros; rewrite dotv_minus; ring).
  rewrite !rsum_plus, !rsum_scal_l. ring.
Qed.

(** Completing the square: the KL terms are the squared distance, in the
    metric S, of the action from the fitted policy's KB.dot(x) + kB, up to
    a constant. *)
Lemma KL_terms_complete_square (dx du : nat) (KB S : mat) (kB x u : vec) :
  mat_eq du du S (transpose S) ->
  ip (dx + du) (concatenate dx x u)
     (dotv (dx + du) (PKLm_of dx du KB S) (concatenate dx x u)) / 2 +
  ip (dx + du) (concatenate dx x u) (PKLv_of dx du KB S kB) =
  ip du (fun a => u a - dotv dx KB x a - kB a)
     (dotv du S (fun a => u a - dotv dx KB x a - kB a)) / 2 -
  ip du kB (dotv du S kB) / 2.
Proof.
  intros HS. rewrite PKLm_of_quadratic, PKLv_of_linear.
  rewrite (square_expand du S (fun a => u a - dotv dx KB x a) kB).
  rewrite (ip_symmetric du S kB (fun a => u a - dotv dx KB x a) HS). field.
Qed.

(** X27.  What cost fusion adds.  For z = [x; u], the value
    z.dot(fCm[t].dot(z)) / 2 + z.dot(fcv[t]) of the fused cost is the value
    of the task cost, with the gain regularizer on its diagonal, divided by
    eta, plus half the squared distance of the action u from the fitted
    policy's action pol_K[t].dot(x) + pol_k[t] in the metric of the inverse
    of chol_pol_S[t].T.dot(chol_pol_S[t]), minus a constant. *)
Theorem compute_costs_penalizes_deviation self (m : nat) (eta : R) it
    (t : nat) (x u : vec) :
  let pol := traj_distr it in
  let info := pol_info it in
  cur self !! m = Some it ->
  0 < eta ->
  (t < T pol)%nat ->
  invertible (dU pol) (chol_pol_S info t) ->
  exists fCm fcv,
    compute_costs self m eta = Ok (fCm, fcv) /\
    let n := (dX pol + dU pol)%nat in
    let z := concatenate (dX pol) x u in
    let Sinv := inv_pol_S (dU pol) (chol_pol_S info t) in
    let dev := fun a =>
      u a - dotv (dX pol) (pol_K info t) x a - pol_k info t a in
    inverse_of (dU pol)
      (dot (dU pol) (transpose (chol_pol_S info t)) (chol_pol_S info t))
      Sinv /\
    ip n z (dotv n (fCm t) z) / 2 + ip n z (fcv t) =
    (ip n z (dotv n (Cm (traj_info it) t) z) / 2 +
     ip n z (cv (traj_info it) t) +
     K_regularization self * norm_inf (dU pol) (dX pol) (K pol t) *
     ip n z z / 2) / eta +
    ip (dU pol) dev (dotv (dU pol) Sinv dev) / 2 -
    ip (dU pol) (pol_k info t) (dotv (dU pol) Sinv (pol_k info t)) / 2.
Proof.
  intros pol info Hm Heta Ht Hinv.
  unfold compute_costs, cur_at. rewrite Hm. simpl.
  eexists _, _. split; [reflexivity |].
  fold pol info.
  split; [apply inv_pol_S_inverse; [exact Hinv | apply mat_eq_refl] |].
  pose proof (KL_terms_complete_square (dX pol) (dU pol) (pol_K info t)
                (inv_pol_S (dU pol) (chol_pol_S info t)) (pol_k info t) x u
                (inv_pol_S_symmetric _ _ Hinv)) as HKL.
  cbv zeta.
  set (n := (dX pol + dU pol)%nat) in *.
  set (z := concatenate (dX pol) x u) in *.
  set (P := PKLm_of (dX pol) (dU pol) (pol_K info t)
              (inv_pol_S (dU pol) (chol_pol_S info t))) in *.
  set (p := PKLv_of (dX pol) (dU pol) (pol_K info t)
              (inv_pol_S (dU pol) (chol_pol_S info t)) (pol_k info t)) in *.
  set (r := K_regularization self * norm_inf (dU pol) (dX pol) (K pol t)).
  rewrite <- (quadratic_identity n z).
  destruct (Nat.ltb_spec t (T pol)) as [_ | Hge]; [| lia].
  assert (EC : ip n z
                 (dotv n
                    (fun i j =>
                       (Cm (traj_info it) t i j + r * identity i j +
                        P i j * eta) / eta) z) =
               1 / eta * ip n z (dotv n (Cm (traj_info it) t) z) +
               r / eta * ip n z (dotv n identity z) +
               1 * ip n z (dotv n P z)).
  { rewrite <- quadratic_combine. apply rsum_ext. intros i _. f_equal.
    unfold dotv. apply rsum_ext. intros j _. field. lra. }
  assert (Ec : rsum n
                 (fun i => z i * ((cv (traj_info it) t i + p i * eta) / eta)) =
               1 / eta * ip n z (cv (traj_info it) t) + ip n z p).
  { rewrite <- rsum_scal_l, <- rsum_plus. apply rsum_ext. intros i _.
    field. lra. }
  rewrite EC, Ec.
  set (Q := ip n z (dotv n P z)) in *.
  set (q := ip n z p) in *.
  assert (Hq : q = - (Q / 2) +
                 (ip (dU pol)
                    (fun a => u a - dotv (dX pol) (pol_K info t) x a -
                              pol_k info t a)
                    (dotv (dU pol) (inv_pol_S (dU pol) (chol_pol_S info t))
                       (fun a => u a - dotv (dX pol) (pol_K info t) x a -
                                 pol_k info t a)) / 2 -
                  ip (dU pol) (pol_k info t)
                    (dotv (dU pol) (inv_pol_S (dU pol) (chol_pol_S info t))
                       (pol_k info t)) / 2)) by lra.
  rewrite Hq. field. lra.
Qed.

End FusedCost.

Section FusedCostExamples.
Import LinAlg MDGPS Scenarios.

Lemma compute_costs_symmetric_witness :
  exists fCm fcv,
    compute_costs fusion_example 0 2 = Ok (fCm, fcv) /\
    mat_eq (1 + 1) (1 + 1) (fCm 0%nat) (transpose (fCm 0%nat)).
Proof.
  apply (compute_costs_symmetric fusion_example 0 2 (condition 1 0 0 0 1) 0).
  - reflexivity.
  - lra.
  - simpl. lia.
  - exists identity. apply identity_inverse.
  - intros i j _ _. reflexivity.
Defined.

Lemma compute_costs_penalizes_deviation_witness :
  exists fCm fcv,
    compute_costs fusion_example 0 2 = Ok (fCm, fcv) /\
    inverse_of 1 (dot 1 (transpose identity) identity)
      (inv_pol_S 1 identity).
Proof.
  destruct (compute_costs_penalizes_deviation fusion_example 0 2
              (condition 1 0 0 0 1) 0 (fun _ => 1) (fun _ => 3))
    as (fCm & fcv & Hrun & Hinv & _).
  - reflexivity.
  - lra.
  - simpl. lia.
  - exists identity. apply identity_inverse.
  - exists fCm, fcv. split; [exact Hrun | exact Hinv].
Defined.

End FusedCostExamples.

(** ** Acting with the trained policy *)

Section Acting.
Import LinAlg PolicyOpt.




End Acting.
